(** * CTF platform: flag submission, scoring ledger and rate limiter

    A shallow embedding of the server-side core of the platform:

    - [lib/rate-limiter.ts]: the in-memory window counter [checkRateLimit];
    - [lib/security.ts]: [hashFlag], [validateFlag], [sanitizeInput],
      [hashIpAddress] and the [GENERIC_ERRORS] table;
    - [lib/api-utils.ts]: [authenticateRequest], [applyRateLimit] and the
      response builders;
    - [app/api/challenges/submit/route.ts]: the [POST] handler with its
      Firestore transaction;
    - [app/api/challenges/route.ts]: the [GET] listing handler.

    Conventions.  JavaScript numbers that hold counts, points, scores and
    millisecond timestamps are integers far below 2^53 and are modelled by
    [Z].  Strings are Rocq strings whose characters are the code units
    U+0000..U+00FF; flag hashing is given a second time on lists of UTF-16
    code units, for the strings that leave that range.  The Firestore
    collections and the limiter's [Map] are finite maps keyed by document
    ids, and a document is addressed as the SDK does it: [doc] reads the id
    as a path.  A handler is a function of a read-only environment (salt,
    identity provider, clock, availability of the store) and of the world
    it changes; it returns its result with the world after it.  The
    submission handler awaits the store several times; what other requests
    do to the world in the meantime is a parameter of [POST_during], and
    [POST] is the handler served alone.  A call that can throw returns an
    [outcome].  Node's SHA-256 and hexadecimal buffers are written out
    after FIPS 180-4 and checked on known digests. *)

From Stdlib Require Import ZArith Lia List Ascii String.
From stdpp Require Import gmap strings list fin_maps finite.

Local Open Scope string_scope.
Local Open Scope Z_scope.

(* ===================================================================== *)
(** ** Rate limiter ([lib/rate-limiter.ts])                               *)
(* ===================================================================== *)

Record RateLimitEntry := mkEntry {
  count : Z;
  firstRequest : Z;
  lastRequest : Z
}.

Record RateLimitConfig := mkConfig {
  windowMs : Z;
  maxRequests : Z
}.

Record RateLimitResult := mkResult {
  allowed : bool;
  remaining : Z;
  resetTime : Z;
  retryAfter : option Z
}.

(** The keys of [RATE_LIMIT_CONFIGS]. *)
Inductive ConfigKey := flagSubmission | authentication | general | passwordReset.

Definition RATE_LIMIT_CONFIGS (k : ConfigKey) : RateLimitConfig :=
  match k with
  | flagSubmission => mkConfig (60 * 1000) 5
  | authentication => mkConfig (15 * 60 * 1000) 10
  | general => mkConfig (60 * 1000) 60
  | passwordReset => mkConfig (60 * 60 * 1000) 3
  end.

Definition configKey_name (k : ConfigKey) : string :=
  match k with
  | flagSubmission => "flagSubmission"
  | authentication => "authentication"
  | general => "general"
  | passwordReset => "passwordReset"
  end.

(** [Math.ceil (x / d)] on integers, for a positive divisor. *)
Definition ceil_div (x d : Z) : Z := - ((- x) / d).

(** The store key: the template string [`rate:${identifier}`]. *)
Definition rate_key (identifier : string) : string := "rate:" ++ identifier.

(** [checkRateLimit identifier config], with [Date.now()] and the module-level
    [rateLimitStore] made explicit.  The returned map is the store after the
    call. *)
Definition checkRateLimit (identifier : string) (config : RateLimitConfig)
    (now : Z) (store : gmap string RateLimitEntry)
  : RateLimitResult * gmap string RateLimitEntry :=
  let key := rate_key identifier in
  match store !! key with
  | None =>
      (mkResult true (maxRequests config - 1) (now + windowMs config) None,
       <[key := mkEntry 1 now now]> store)
  | Some entry =>
      if bool_decide (now - firstRequest entry > windowMs config) then
        (mkResult true (maxRequests config - 1) (now + windowMs config) None,
         <[key := mkEntry 1 now now]> store)
      else if bool_decide (count entry >= maxRequests config) then
        (mkResult false 0 (firstRequest entry + windowMs config)
           (Some (ceil_div (firstRequest entry + windowMs config - now) 1000)),
         store)
      else
        let entry' := mkEntry (count entry + 1) (firstRequest entry) now in
        (mkResult true (maxRequests config - count entry')
           (firstRequest entry' + windowMs config) None,
         <[key := entry']> store)
  end.

(** A run of calls for one identifier at the given clock readings. *)
Fixpoint run_checks (identifier : string) (config : RateLimitConfig)
    (times : list Z) (store : gmap string RateLimitEntry)
  : list RateLimitResult * gmap string RateLimitEntry :=
  match times with
  | [] => ([], store)
  | now :: rest =>
      let '(r, store1) := checkRateLimit identifier config now store in
      let '(rs, store2) := run_checks identifier config rest store1 in
      (r :: rs, store2)
  end.

(** No live window for the identifier at time [now]: no entry, or an entry
    whose window has run out. *)
Definition no_live_window (identifier : string) (config : RateLimitConfig)
    (now : Z) (store : gmap string RateLimitEntry) : Prop :=
  match store !! rate_key identifier with
  | None => True
  | Some e => now - firstRequest e > windowMs config
  end.

(** The stored counter of the identifier's entry is at most the configured
    maximum. *)
Definition count_bounded (config : RateLimitConfig) (identifier : string)
    (store : gmap string RateLimitEntry) : Prop :=
  match store !! rate_key identifier with
  | None => True
  | Some e => count e <= maxRequests config
  end.

(* ===================================================================== *)
(** ** JavaScript string primitives used by [lib/security.ts]             *)
(* ===================================================================== *)

(** Code unit of a character, and the character of a code unit. *)
Definition code (c : ascii) : Z := Z.of_N (N_of_ascii c).
Definition chr (z : Z) : ascii := ascii_of_N (Z.to_N z).

(** White space and line terminators recognised by [String.prototype.trim]
    among U+0000..U+00FF: TAB, LF, VT, FF, CR, SP and NBSP. *)
Definition is_js_whitespace (c : ascii) : bool :=
  let n := code c in
  ((9 <=? n) && (n <=? 13)) || (n =? 32) || (n =? 160).

Fixpoint trimStart (s : string) : string :=
  match s with
  | EmptyString => EmptyString
  | String c r => if is_js_whitespace c then trimStart r else s
  end.

Fixpoint trimEnd (s : string) : string :=
  match s with
  | EmptyString => EmptyString
  | String c r =>
      match trimEnd r with
      | EmptyString => if is_js_whitespace c then EmptyString else String c EmptyString
      | r' => String c r'
      end
  end.

(** [s.trim()] *)
Definition trim (s : string) : string := trimEnd (trimStart s).

(** [toLowerCase] on one code unit of U+0000..U+00FF: A-Z, and the Latin-1
    capitals U+00C0..U+00DE other than the multiplication sign U+00D7. *)
Definition lower_char (c : ascii) : ascii :=
  let n := code c in
  if ((65 <=? n) && (n <=? 90)) || ((192 <=? n) && (n <=? 222) && negb (n =? 215))
  then chr (n + 32) else c.

Fixpoint toLowerCase (s : string) : string :=
  match s with
  | EmptyString => EmptyString
  | String c r => String (lower_char c) (toLowerCase r)
  end.

(** [s.slice(0, n)] *)
Fixpoint slice0 (n : nat) (s : string) : string :=
  match n, s with
  | S k, String c r => String c (slice0 k r)
  | _, _ => EmptyString
  end.

(** [s.length] *)
Definition str_length (s : string) : Z := Z.of_nat (String.length s).

(** A global regular-expression replace by the empty string: scanning from
    the left, [match_len] gives the length of the match that starts at the
    current position (if any); a match is dropped and the scan resumes right
    after it, otherwise one character is kept.  [skip] counts the characters
    of the current match still to drop. *)
Fixpoint remove_matches (match_len : string -> option nat) (skip : nat)
    (s : string) : string :=
  match s with
  | EmptyString => EmptyString
  | String c r =>
      match skip with
      | S k => remove_matches match_len k r
      | O =>
          match match_len s with
          | Some (S k) => remove_matches match_len k r
          | _ => String c (remove_matches match_len 0 r)
          end
      end
  end.

(** [/[<>]/]: one angle bracket. *)
Definition match_angle (s : string) : option nat :=
  match s with
  | String c _ => if (code c =? 60) || (code c =? 62) then Some 1%nat else None
  | EmptyString => None
  end.

(** Case-insensitive comparison with a lower-case ASCII pattern character
    (the [i] flag without [u]: no character outside ASCII folds to an ASCII
    letter). *)
Definition ci_eq (pat c : ascii) : bool :=
  let n := code c in
  let folded := if (65 <=? n) && (n <=? 90) then chr (n + 32) else c in
  bool_decide (folded = pat).

Fixpoint ci_prefix (pat s : string) : bool :=
  match pat, s with
  | EmptyString, _ => true
  | String p pr, String c r => ci_eq p c && ci_prefix pr r
  | String _ _, EmptyString => false
  end.

(** [/javascript:/i] at the current position. *)
Definition match_javascript (s : string) : option nat :=
  if ci_prefix "javascript:" s then Some 11%nat else None.

(** [\w] without the [u] flag: ASCII letters, digits and underscore. *)
Definition is_word_char (c : ascii) : bool :=
  let n := code c in
  ((48 <=? n) && (n <=? 57)) || ((65 <=? n) && (n <=? 90))
  || ((97 <=? n) && (n <=? 122)) || (n =? 95).

(** Length of the longest run of word characters at the start of [s]. *)
Fixpoint word_run (s : string) : nat :=
  match s with
  | String c r => if is_word_char c then S (word_run r) else O
  | EmptyString => O
  end.

(** [/on\w+=/i] at the current position.  [\w+] is greedy; since [=] is not
    a word character, backtracking to a shorter run can never succeed, so the
    pattern matches exactly when the whole run of word characters after
    [on] is non-empty and is followed by [=]. *)
Definition match_on_handler (s : string) : option nat :=
  match s with
  | String c0 (String c1 r) =>
      if ci_eq "o" c0 && ci_eq "n" c1 then
        let k := word_run r in
        match k, String.get k r with
        | S _, Some e => if code e =? 61 then Some (k + 3)%nat else None
        | _, _ => None
        end
      else None
  | _ => None
  end.

(** [sanitizeInput]: the [!input] guard returns the empty string for the
    empty string, as does the chain below. *)
Definition sanitizeInput (input : string) : string :=
  match input with
  | EmptyString => EmptyString
  | _ =>
      slice0 (Z.to_nat 10000)
        (remove_matches match_on_handler 0
           (remove_matches match_javascript 0
              (remove_matches match_angle 0 (trim input))))
  end.

(* ===================================================================== *)
(** ** Node's [crypto] and [Buffer] primitives                            *)
(* ===================================================================== *)

(** Bytes and 32-bit words are integers; a word is kept below 2^32 by
    [wrap32]. *)
Definition wrap32 (x : Z) : Z := Z.land x 4294967295.

Definition rotr (n x : Z) : Z :=
  Z.lor (Z.shiftr x n) (wrap32 (Z.shiftl x (32 - n))).

Definition choose (x y z : Z) : Z :=
  Z.lxor (Z.land x y) (Z.land (Z.lxor x 4294967295) z).

Definition majority (x y z : Z) : Z :=
  Z.lxor (Z.lxor (Z.land x y) (Z.land x z)) (Z.land y z).

Definition big_sigma0 (x : Z) : Z := Z.lxor (Z.lxor (rotr 2 x) (rotr 13 x)) (rotr 22 x).
Definition big_sigma1 (x : Z) : Z := Z.lxor (Z.lxor (rotr 6 x) (rotr 11 x)) (rotr 25 x).
Definition small_sigma0 (x : Z) : Z := Z.lxor (Z.lxor (rotr 7 x) (rotr 18 x)) (Z.shiftr x 3).
Definition small_sigma1 (x : Z) : Z := Z.lxor (Z.lxor (rotr 17 x) (rotr 19 x)) (Z.shiftr x 10).

(** Value of a hexadecimal digit, either case. *)
Definition hex_val (c : ascii) : option Z :=
  let n := code c in
  if (48 <=? n) && (n <=? 57) then Some (n - 48)
  else if (97 <=? n) && (n <=? 102) then Some (n - 87)
  else if (65 <=? n) && (n <=? 70) then Some (n - 55)
  else None.

(** [Buffer.from(s, "hex")]: pairs of hexadecimal digits are decoded from the
    left; decoding stops at the first pair that is not two hexadecimal
    digits, and a trailing single character is dropped. *)
Fixpoint buffer_from_hex (s : string) : list Z :=
  match s with
  | String a (String b r) =>
      match hex_val a, hex_val b with
      | Some x, Some y => (16 * x + y) :: buffer_from_hex r
      | _, _ => []
      end
  | _ => []
  end.

(** Lower-case hexadecimal digit of a value below 16. *)
Definition hex_digit (v : Z) : ascii :=
  if v <? 10 then chr (48 + v) else chr (87 + v).

(** [buf.toString("hex")] / [digest("hex")] *)
Fixpoint to_hex (bs : list Z) : string :=
  match bs with
  | [] => EmptyString
  | b :: r => String (hex_digit (b / 16)) (String (hex_digit (b mod 16)) (to_hex r))
  end.

(** Big-endian 32-bit words of a byte sequence. *)
Fixpoint be_words (bs : list Z) : list Z :=
  match bs with
  | a :: b :: c :: d :: r => (((a * 256 + b) * 256 + c) * 256 + d) :: be_words r
  | _ => []
  end.

Definition word_bytes (w : Z) : list Z :=
  [Z.shiftr w 24 mod 256; Z.shiftr w 16 mod 256; Z.shiftr w 8 mod 256; w mod 256].

(** Round constants of SHA-256 (FIPS 180-4, 4.2.2), read from their
    hexadecimal text. *)
Definition sha256_K : list Z :=
  be_words (buffer_from_hex
    ("428a2f9871374491b5c0fbcfe9b5dba53956c25b59f111f1923f82a4ab1c5ed5" ++
     "d807aa9812835b01243185be550c7dc372be5d7480deb1fe9bdc06a7c19bf174" ++
     "e49b69c1efbe47860fc19dc6240ca1cc2de92c6f4a7484aa5cb0a9dc76f988da" ++
     "983e5152a831c66db00327c8bf597fc7c6e00bf3d5a7914706ca635114292967" ++
     "27b70a852e1b21384d2c6dfc53380d13650a7354766a0abb81c2c92e92722c85" ++
     "a2bfe8a1a81a664bc24b8b70c76c51a3d192e819d6990624f40e3585106aa070" ++
     "19a4c1161e376c082748774c34b0bcb5391c0cb34ed8aa4a5b9cca4f682e6ff3" ++
     "748f82ee78a5636f84c878148cc7020890befffaa4506cebbef9a3f7c67178f2")).

(** The eight working words. *)
Record sha_state := mkSha {
  sha_a : Z; sha_b : Z; sha_c : Z; sha_d : Z;
  sha_e : Z; sha_f : Z; sha_g : Z; sha_h : Z
}.

Definition sha256_init : sha_state :=
  mkSha 0x6a09e667 0xbb67ae85 0x3c6ef372 0xa54ff53a
        0x510e527f 0x9b05688c 0x1f83d9ab 0x5be0cd19.

(** Message schedule, most recent word first: [n] more words are derived
    from the sixteen before them. *)
Fixpoint extend_schedule (n : nat) (recent : list Z) : list Z :=
  match n with
  | O => recent
  | S k =>
      let w := wrap32 (small_sigma1 (nth 1 recent 0) + nth 6 recent 0
                       + small_sigma0 (nth 14 recent 0) + nth 15 recent 0) in
      extend_schedule k (w :: recent)
  end.

Definition schedule (block : list Z) : list Z :=
  rev (extend_schedule 48 (rev (be_words block))).

Definition sha_round (s : sha_state) (kw : Z * Z) : sha_state :=
  let t1 := sha_h s + big_sigma1 (sha_e s) + choose (sha_e s) (sha_f s) (sha_g s)
            + fst kw + snd kw in
  let t2 := big_sigma0 (sha_a s) + majority (sha_a s) (sha_b s) (sha_c s) in
  mkSha (wrap32 (t1 + t2)) (sha_a s) (sha_b s) (sha_c s)
        (wrap32 (sha_d s + t1)) (sha_e s) (sha_f s) (sha_g s).

Definition compress (s : sha_state) (block : list Z) : sha_state :=
  let r := fold_left sha_round (combine sha256_K (schedule block)) s in
  mkSha (wrap32 (sha_a s + sha_a r)) (wrap32 (sha_b s + sha_b r))
        (wrap32 (sha_c s + sha_c r)) (wrap32 (sha_d s + sha_d r))
        (wrap32 (sha_e s + sha_e r)) (wrap32 (sha_f s + sha_f r))
        (wrap32 (sha_g s + sha_g r)) (wrap32 (sha_h s + sha_h r)).

(** Streaming absorption: bytes collect in [pending] (latest first) and each
    full 64-byte block is compressed into the state. *)
Fixpoint absorb (s : sha_state) (pending : list Z) (bs : list Z) : sha_state :=
  match bs with
  | [] => s
  | b :: r =>
      let pending' := b :: pending in
      if (length pending' =? 64)%nat then absorb (compress s (rev pending')) [] r
      else absorb s pending' r
  end.

(** Padding: the bit 1, zero bytes up to 56 modulo 64, and the bit length as
    a 64-bit big-endian integer. *)
Definition sha256_pad (msg : list Z) : list Z :=
  let len := Z.of_nat (length msg) in
  let bits := 8 * len in
  msg ++ [128] ++ repeat 0 (Z.to_nat ((55 - len) mod 64))
      ++ word_bytes (Z.shiftr bits 32) ++ word_bytes bits.

(** [createHash("sha256").update(bytes).digest()]: 32 bytes. *)
Definition sha256 (msg : list Z) : list Z :=
  let s := absorb sha256_init [] (sha256_pad msg) in
  word_bytes (sha_a s) ++ word_bytes (sha_b s) ++ word_bytes (sha_c s)
  ++ word_bytes (sha_d s) ++ word_bytes (sha_e s) ++ word_bytes (sha_f s)
  ++ word_bytes (sha_g s) ++ word_bytes (sha_h s).

(** UTF-8 encoding of a string of code units U+0000..U+00FF, as
    [hash.update(string)] applies it. *)
Fixpoint utf8 (s : string) : list Z :=
  match s with
  | EmptyString => []
  | String c r =>
      let n := code c in
      if n <? 128 then n :: utf8 r
      else (192 + n / 64) :: (128 + n mod 64) :: utf8 r
  end.

(** [createHash("sha256").update(s).digest("hex")] *)
Definition sha256_hex (s : string) : string := to_hex (sha256 (utf8 s)).

(** [crypto.timingSafeEqual]: throws ([None]) on operands of different byte
    length; otherwise accumulates the differences of all byte pairs and
    tests the accumulator once. *)
Definition timingSafeEqual (a b : list Z) : option bool :=
  if (length a =? length b)%nat then
    Some (fold_left (fun acc xy => Z.lor acc (Z.lxor (fst xy) (snd xy))) (combine a b) 0 =? 0)
  else None.

(* ===================================================================== *)
(** ** Flag hashing and validation ([lib/security.ts])                    *)
(* ===================================================================== *)

(** A call either returns or throws an [Error] with a message. *)
Inductive outcome (A : Type) : Type :=
| Returned (a : A)
| Threw (message : string).
Arguments Returned {A} a.
Arguments Threw {A} message.

(** The value of a call that returned. *)
Definition returned {A : Type} (o : outcome A) : option A :=
  match o with
  | Returned a => Some a
  | Threw _ => None
  end.

(** Truthiness of an optional string ([undefined] and the empty string are
    falsy). *)
Definition truthy (s : option string) : bool :=
  match s with
  | Some (String _ _) => true
  | _ => false
  end.

(** [hashFlag]; [salt] is [process.env.FLAG_HASH_SALT]. *)
Definition hashFlag (salt : option string) (flag : string) : outcome string :=
  match salt with
  | Some (String _ _ as s) =>
      let normalizedFlag := toLowerCase (trim flag) in
      Returned (sha256_hex (s ++ normalizedFlag))
  | _ => Threw "FLAG_HASH_SALT environment variable is not set"
  end.

(** [validateFlag] *)
Definition validateFlag (salt : option string) (submittedFlag storedHash : string)
  : outcome bool :=
  match hashFlag salt submittedFlag with
  | Threw m => Threw m
  | Returned submittedHash =>
      let submittedBuffer := buffer_from_hex submittedHash in
      let storedBuffer := buffer_from_hex storedHash in
      if negb (length submittedBuffer =? length storedBuffer)%nat then Returned false
      else
        match timingSafeEqual submittedBuffer storedBuffer with
        | Some b => Returned b
        | None => Threw "Input buffers must have the same byte length"
        end
  end.

(** [hashIpAddress] *)
Definition hashIpAddress (salt : option string) (ip : string) : string :=
  let s := match salt with
           | Some (String _ _ as s) => s
           | _ => "default-salt"
           end in
  slice0 16 (sha256_hex (s ++ ip)).

(* ===================================================================== *)
(** ** Flag hashing on strings of UTF-16 code units                       *)
(* ===================================================================== *)

(** A JavaScript string is a sequence of 16-bit code units; [string] above
    holds the strings whose code units are U+0000..U+00FF.  The definitions
    of this part follow [hashFlag] and [validateFlag] on arbitrary code
    units, as far as the case table below goes. *)
Fixpoint units (s : string) : list Z :=
  match s with
  | EmptyString => []
  | String c r => code c :: units r
  end.

Definition is_high_surrogate (u : Z) : bool := (0xD800 <=? u) && (u <=? 0xDBFF).
Definition is_low_surrogate (u : Z) : bool := (0xDC00 <=? u) && (u <=? 0xDFFF).

(** UTF-8 encoding of one code point. *)
Definition utf8_of_code_point (n : Z) : list Z :=
  if n <? 0x80 then [n]
  else if n <? 0x800 then [0xC0 + n / 64; 0x80 + n mod 64]
  else if n <? 0x10000 then [0xE0 + n / 4096; 0x80 + (n / 64) mod 64; 0x80 + n mod 64]
  else [0xF0 + n / 262144; 0x80 + (n / 4096) mod 64; 0x80 + (n / 64) mod 64;
        0x80 + n mod 64].

(** [hash.update(string)] encodes the string as UTF-8: a high surrogate
    followed by a low one is one code point above U+FFFF, and a surrogate
    without its partner is encoded as the replacement character U+FFFD. *)
Fixpoint utf8_of_units (us : list Z) : list Z :=
  match us with
  | [] => []
  | u :: r =>
      if is_high_surrogate u then
        match r with
        | v :: r' =>
            if is_low_surrogate v
            then utf8_of_code_point (0x10000 + (u - 0xD800) * 1024 + (v - 0xDC00))
                 ++ utf8_of_units r'
            else utf8_of_code_point 0xFFFD ++ utf8_of_units r
        | [] => utf8_of_code_point 0xFFFD
        end
      else if is_low_surrogate u then utf8_of_code_point 0xFFFD ++ utf8_of_units r
      else utf8_of_code_point u ++ utf8_of_units r
  end.

(** The white space and line terminators that [String.prototype.trim]
    removes. *)
Definition is_js_whitespace_unit (u : Z) : bool :=
  ((9 <=? u) && (u <=? 13)) || (u =? 0x20) || (u =? 0xA0) || (u =? 0x1680)
  || ((0x2000 <=? u) && (u <=? 0x200A)) || (u =? 0x2028) || (u =? 0x2029)
  || (u =? 0x202F) || (u =? 0x205F) || (u =? 0x3000) || (u =? 0xFEFF).

Fixpoint trimStart_units (us : list Z) : list Z :=
  match us with
  | [] => []
  | u :: r => if is_js_whitespace_unit u then trimStart_units r else us
  end.

Fixpoint trimEnd_units (us : list Z) : list Z :=
  match us with
  | [] => []
  | u :: r =>
      match trimEnd_units r with
      | [] => if is_js_whitespace_unit u then [] else [u]
      | r' => u :: r'
      end
  end.

Definition trim_units (us : list Z) : list Z := trimEnd_units (trimStart_units us).

(** [toLowerCase] on one code unit, for the code units tabulated here:
    U+0000..U+00FF (as [lower_char]), and the surrogates and U+FFFD, which
    have no case mapping.  Other code units are outside the table. *)
Definition lower_unit (u : Z) : option Z :=
  if (0 <=? u) && (u <=? 0xFF) then
    Some (if ((65 <=? u) && (u <=? 90)) || ((192 <=? u) && (u <=? 222) && negb (u =? 215))
          then u + 32 else u)
  else if is_high_surrogate u || is_low_surrogate u || (u =? 0xFFFD) then Some u
  else None.

(** [toLowerCase] on a string of tabulated code units.  A high surrogate
    followed by a low one is a code point above U+FFFF, whose case mapping
    is outside the table. *)
Fixpoint toLowerCase_units (us : list Z) : option (list Z) :=
  match us with
  | [] => Some []
  | u :: r =>
      let paired := match r with
                    | v :: _ => is_high_surrogate u && is_low_surrogate v
                    | [] => false
                    end in
      if paired then None
      else
        match lower_unit u, toLowerCase_units r with
        | Some u', Some r' => Some (u' :: r')
        | _, _ => None
        end
  end.

(** [hashFlag] on code units; [None] when the flag leaves the table of
    [toLowerCase_units].  The salt is a string of U+0000..U+00FF. *)
Definition hashFlag_units (salt : option string) (flag : list Z)
  : option (outcome string) :=
  match salt with
  | Some (String _ _ as s) =>
      match toLowerCase_units (trim_units flag) with
      | Some normalizedFlag =>
          Some (Returned (to_hex (sha256 (utf8_of_units (units s ++ normalizedFlag)))))
      | None => None
      end
  | _ => Some (Threw "FLAG_HASH_SALT environment variable is not set")
  end.

(** [validateFlag] on code units; the stored fingerprint is hexadecimal
    text. *)
Definition validateFlag_units (salt : option string) (submittedFlag : list Z)
    (storedHash : string) : option (outcome bool) :=
  match hashFlag_units salt submittedFlag with
  | None => None
  | Some (Threw m) => Some (Threw m)
  | Some (Returned submittedHash) =>
      let submittedBuffer := buffer_from_hex submittedHash in
      let storedBuffer := buffer_from_hex storedHash in
      if negb (length submittedBuffer =? length storedBuffer)%nat then Some (Returned false)
      else
        match timingSafeEqual submittedBuffer storedBuffer with
        | Some b => Some (Returned b)
        | None => Some (Threw "Input buffers must have the same byte length")
        end
  end.

(** The [GENERIC_ERRORS] table. *)
Definition AUTH_FAILED := "Authentication failed. Please check your credentials.".
Definition INVALID_CREDENTIALS := "Invalid email or password.".
Definition EMAIL_NOT_VERIFIED := "Please verify your email address before continuing.".
Definition RATE_LIMITED := "Too many requests. Please try again later.".
Definition SERVER_ERROR := "An unexpected error occurred. Please try again.".
Definition UNAUTHORIZED := "You are not authorized to perform this action.".
Definition NOT_FOUND := "The requested resource was not found.".
Definition VALIDATION_FAILED := "Validation failed. Please check your input.".
Definition FLAG_INCORRECT := "Incorrect flag. Keep trying!".
Definition FLAG_CORRECT := "Correct! Challenge solved.".
Definition ALREADY_SOLVED := "You have already solved this challenge.".

(* ===================================================================== *)
(** ** Documents ([types/index.ts]) and the Firestore collections         *)
(* ===================================================================== *)

(** The [users] document.  The profile fields [displayName], [photoURL],
    [rank] and the timestamps are never read by the handlers below and are
    left out. *)
Record User := mkUser {
  uid : string;
  email : string;
  emailVerified : bool;
  score : Z;
  solvedChallenges : list string;
  isAdmin : bool;
  isBanned : bool
}.

Record ChallengeAttachment := mkAttachment {
  att_name : string;
  att_url : string;
  att_type : string;
  att_size : Z
}.

Record Challenge := mkChallenge {
  title : string;
  description : string;
  category : string;
  difficulty : string;
  points : Z;
  flagHash : string;
  hints : list string;
  attachments : list ChallengeAttachment;
  solveCount : Z;
  isActive : bool;
  author : string
}.

Record ChallengePublic := mkPublic {
  pub_id : string;
  pub_title : string;
  pub_description : string;
  pub_category : string;
  pub_difficulty : string;
  pub_points : Z;
  pub_hints : list string;
  pub_attachments : list ChallengeAttachment;
  pub_solveCount : Z;
  isSolved : bool
}.

(** The audit record written to [submissions]; [sub_correct] is the status
    ["correct"] or ["incorrect"]. *)
Record Submission := mkSubmission {
  sub_challengeId : string;
  sub_userId : string;
  sub_correct : bool;
  sub_ipAddress : string;
  sub_userAgent : string
}.

(** The claims of a verified Firebase ID token that the handlers read. *)
Record DecodedIdToken := mkToken {
  tok_uid : string;
  tok_email : option string;
  tok_email_verified : bool
}.

Inductive LogValue := LStr (s : string) | LNum (z : Z) | LBool (b : bool).

(** One line of [logSecurityEvent]. *)
Record LogEntry := mkLog {
  log_timestamp : Z;
  log_event : string;
  log_attrs : list (string * LogValue)
}.

(** Calls to the collaborators, in the order they are made. *)
Inductive Effect :=
| VerifyIdToken (token : string)
| GetUserDoc (userId : string)
| CheckRateLimit (key : string)
| GetChallengeDoc (challengeId : string)
| QueryActiveChallenges
| AddSubmission (challengeId userId : string)
| RunTransaction (userId challengeId : string).

(** Everything a handler can change: the three collections, the limiter's
    map, the security log, and the record of collaborator calls. *)
Record World := mkWorld {
  users : gmap string User;
  challenges : gmap string Challenge;
  submissions : list Submission;
  rateLimitStore : gmap string RateLimitEntry;
  securityLog : list LogEntry;
  effects : list Effect
}.

(** What a handler reads only: the environment variable, the identity
    provider (the ID tokens it would verify, revocation included), the
    clock, and the availability of the document store: [store_fault] is
    given the calls made so far, the latest Firestore call last, and
    answers with the message of the rejection when that call fails.  A
    call carries the path it addresses, so the rejections of the store for
    a path it does not serve (an id it reserves or finds too long) are
    faults of that call. *)
Record Env := mkEnv {
  FLAG_HASH_SALT : option string;
  idTokens : gmap string DecodedIdToken;
  clock : Z;
  store_fault : list Effect -> option string
}.

Definition set_users (u : gmap string User) (w : World) : World :=
  mkWorld u (challenges w) (submissions w) (rateLimitStore w) (securityLog w) (effects w).
Definition set_challenges (c : gmap string Challenge) (w : World) : World :=
  mkWorld (users w) c (submissions w) (rateLimitStore w) (securityLog w) (effects w).
Definition add_submission (s : Submission) (w : World) : World :=
  mkWorld (users w) (challenges w) (submissions w ++ [s]) (rateLimitStore w)
          (securityLog w) (effects w).
Definition set_rateLimitStore (r : gmap string RateLimitEntry) (w : World) : World :=
  mkWorld (users w) (challenges w) (submissions w) r (securityLog w) (effects w).
Definition emit (e : Effect) (w : World) : World :=
  mkWorld (users w) (challenges w) (submissions w) (rateLimitStore w) (securityLog w)
          (effects w ++ [e]).

(** [logSecurityEvent] *)
Definition logSecurityEvent (env : Env) (event : string)
    (data : list (string * LogValue)) (w : World) : World :=
  mkWorld (users w) (challenges w) (submissions w) (rateLimitStore w)
          (securityLog w ++ [mkLog (clock env) event data]) (effects w).

(* ===================================================================== *)
(** ** Firestore document references                                      *)
(* ===================================================================== *)

(** [path.split("/")] *)
Fixpoint split_slash (path : string) : list string :=
  match path with
  | EmptyString => [EmptyString]
  | String c r =>
      if code c =? 47 then EmptyString :: split_slash r
      else match split_slash r with
           | segment :: segments => String c segment :: segments
           | [] => [String c EmptyString]
           end
  end.

(** [path.indexOf("//") >= 0] *)
Fixpoint has_double_slash (path : string) : bool :=
  match path with
  | String a (String b _ as r) => ((code a =? 47) && (code b =? 47)) || has_double_slash r
  | _ => false
  end.

Definition nonempty_segment (segment : string) : bool :=
  match segment with
  | EmptyString => false
  | String _ _ => true
  end.

(** The text of the errors of [doc]. *)
Definition dquote : string := String (chr 34) EmptyString.

Definition INVALID_RESOURCE_PATH : string :=
  "Value for argument " ++ dquote ++ "documentPath" ++ dquote
  ++ " is not a valid resource path.".

Definition NOT_A_DOCUMENT (documentPath : string) : string :=
  "Value for argument " ++ dquote ++ "documentPath" ++ dquote
  ++ " must point to a document, but was " ++ dquote ++ documentPath ++ dquote
  ++ ". Your path does not contain an even number of components.".

(** [collection.doc(documentPath)] of the Firestore SDK, which the handlers
    call with the id they were sent.  The path must be a non-empty string
    without [//]; it is split at the slashes and empty segments (a leading
    or trailing slash) are dropped; appended to the name of the collection
    it must have an even number of segments, that is an odd number of its
    own.  The reference is that list of segments: one segment is a document
    of the collection, more are a document of a collection nested in it. *)
Definition doc (documentPath : string) : outcome (list string) :=
  match documentPath with
  | EmptyString => Threw (INVALID_RESOURCE_PATH ++ " Path must be a non-empty string.")
  | _ =>
      if has_double_slash documentPath
      then Threw (INVALID_RESOURCE_PATH ++ " Paths must not contain //.")
      else
        let segments := List.filter nonempty_segment (split_slash documentPath) in
        if Nat.even (length segments) then Threw (NOT_A_DOCUMENT documentPath)
        else Returned segments
  end.

(** [ref.path] below the collection, and [ref.id]. *)
Definition ref_path (ref : list string) : string := String.concat "/" ref.
Definition ref_id (ref : list string) : string := List.last ref EmptyString.

(** [ref.get()] on a collection held as a map from document id to
    document.  The maps of [World] hold the documents of the collections
    themselves; no code of the repository writes to a nested collection, so
    a reference with more than one segment finds no document. *)
Definition get_doc {A : Type} (collection : gmap string A) (ref : list string)
  : option A :=
  match ref with
  | [id] => collection !! id
  | _ => None
  end.

(* ===================================================================== *)
(** ** The scoring transaction ([submit/route.ts], lines 146-196)         *)
(* ===================================================================== *)

(** Writes staged on a Firestore transaction. *)
Inductive Write :=
| SetUser (userId : string) (u : User)
| UpdateUserAward (userId : string) (newScore : Z) (challengeId : string)
| IncrementSolveCount (challengeRef : list string).

(** [FieldValue.arrayUnion(x)] applied to an array. *)
Definition arrayUnion (l : list string) (x : string) : list string :=
  if bool_decide (x ∈ l) then l else l ++ [x].

(** One staged write applied to the collections; [update] fails on a
    document that does not exist. *)
Definition apply_write (wr : Write) (w : World) : option World :=
  match wr with
  | SetUser i u => Some (set_users (<[i := u]> (users w)) w)
  | UpdateUserAward i s c =>
      match users w !! i with
      | Some u =>
          let u' := mkUser (uid u) (email u) (emailVerified u) s
                           (arrayUnion (solvedChallenges u) c) (isAdmin u) (isBanned u) in
          Some (set_users (<[i := u']> (users w)) w)
      | None => None
      end
  | IncrementSolveCount ref =>
      match get_doc (challenges w) ref with
      | Some ch =>
          let ch' := mkChallenge (title ch) (description ch) (category ch) (difficulty ch)
                       (points ch) (flagHash ch) (hints ch) (attachments ch)
                       (solveCount ch + 1) (isActive ch) (author ch) in
          Some (set_challenges (<[ref_id ref := ch']> (challenges w)) w)
      | None => None
      end
  end.

(** The commit: the staged writes take effect in order, all or none. *)
Fixpoint commit (ws : list Write) (w : World) : option World :=
  match ws with
  | [] => Some w
  | wr :: rest =>
      match apply_write wr w with
      | Some w' => commit rest w'
      | None => None
      end
  end.

(** The user document created on first touch. *)
Definition new_user (user : DecodedIdToken) : User :=
  mkUser (tok_uid user)
         (match tok_email user with Some (String _ _ as e) => e | _ => "" end)
         (tok_email_verified user) 0 [] false false.

(** The transaction callback: reads the user document through the
    transaction, and stages the writes.  [pts] is [challenge.points] of the
    challenge document the handler fetched.  The solved list is searched
    for the id as it was sent; the counter that is raised is the one of the
    document [doc] finds for that id.  A throwing [doc] rejects the
    callback. *)
Definition transaction_body (user : DecodedIdToken) (challengeId : string)
    (pts : Z) (w : World) : outcome (list Write) :=
  let userDoc := users w !! tok_uid user in
  let currentUserData := match userDoc with Some u => u | None => new_user user end in
  let staged := match userDoc with
                | Some _ => []
                | None => [SetUser (tok_uid user) currentUserData]
                end in
  let currentSolved := match userDoc with
                       | Some u => solvedChallenges u
                       | None => []
                       end in
  if bool_decide (challengeId ∈ currentSolved) then Returned staged
  else
    let newScore := score currentUserData + pts in
    match doc challengeId with
    | Threw m => Threw m
    | Returned challengeRef =>
        Returned (staged ++ [UpdateUserAward (tok_uid user) newScore challengeId;
                             IncrementSolveCount challengeRef])%list
    end.

(** [adminDb.runTransaction]: it rejects when the callback does, or when
    the commit fails on a document that is not there. *)
Definition runTransaction (user : DecodedIdToken) (challengeId : string)
    (pts : Z) (w : World) : outcome World :=
  match transaction_body user challengeId pts w with
  | Threw m => Threw m
  | Returned writes =>
      match commit writes w with
      | Some w' => Returned w'
      | None => Threw "No document to update"
      end
  end.

(** Several award transactions for one (identity, challenge) pair, one after
    the other, as the serialisable store orders concurrent ones. *)
Fixpoint run_transactions (n : nat) (user : DecodedIdToken) (challengeId : string)
    (pts : Z) (w : World) : outcome World :=
  match n with
  | O => Returned w
  | S k =>
      match runTransaction user challengeId pts w with
      | Returned w' => run_transactions k user challengeId pts w'
      | Threw m => Threw m
      end
  end.

(** Point value of a document of the collection (0 when there is none),
    and the sum over a list of documents. *)
Definition points_of (cs : gmap string Challenge) (c : string) : Z :=
  match cs !! c with
  | Some ch => points ch
  | None => 0
  end.

Fixpoint sum_points (cs : gmap string Challenge) (solved : list string) : Z :=
  match solved with
  | [] => 0
  | c :: rest => points_of cs c + sum_points cs rest
  end.

(** The challenge an entry of a solved list stands for: the document of the
    collection that [doc] finds for it. *)
Definition challenge_of (challengeId : string) : option string :=
  match doc challengeId with
  | Returned [id] => Some id
  | _ => None
  end.

(** The solved set of a user: the challenges the entries of the solved list
    stand for, each once. *)
Definition solved_set (u : User) : list string :=
  remove_dups (omap challenge_of (solvedChallenges u)).

(** The score invariant of the data model: every user's score is the sum of
    the points of the challenges in the solved set. *)
Definition score_invariant (w : World) : Prop :=
  forall i u, users w !! i = Some u ->
    score u = sum_points (challenges w) (solved_set u).

(* ===================================================================== *)
(** ** Requests and responses ([lib/api-utils.ts])                        *)
(* ===================================================================== *)

(** A JSON value read from a request body, as far as the handler
    distinguishes them; [VObject] stands for arrays and objects. *)
Inductive JsValue :=
| VUndefined | VNull | VBool (b : bool) | VNumber (z : Z) | VString (s : string) | VObject.

(** The outcome of [request.json()]: a rejection (invalid JSON), the value
    [null], or a value whose properties [challengeId] and [flag] read as
    given ([VUndefined] when absent). *)
Inductive ParsedBody :=
| BodyInvalid
| BodyNull
| BodyFields (challengeId flag : JsValue).

Record Request := mkRequest {
  req_headers : gmap string string;
  req_json : ParsedBody
}.

Record SubmitData := mkSubmitData {
  correct : bool;
  sd_message : string;
  pointsAwarded : option Z;
  newScore : option Z
}.

Inductive ResponseData :=
| DSubmit (d : SubmitData)
| DChallenges (l : list ChallengePublic).

(** [ApiResponse<T>]: absent properties are [None]. *)
Record ApiResponse := mkApi {
  success : bool;
  data : option ResponseData;
  error : option string;
  message : option string
}.

(** A [NextResponse]: status, the rate-limit headers (numbers, rendered by
    [toString]) and the JSON body. *)
Record Response := mkResponse {
  status : Z;
  headers : list (string * Z);
  body : ApiResponse
}.

(** A handler returns a response, or lets an exception escape to the
    framework. *)
Inductive HandlerResult :=
| Responded (r : Response)
| Uncaught (message : string).

Record AuthenticatedContext := mkCtx {
  user : DecodedIdToken;
  userData : option User;
  ipHash : string
}.

(** [s.split(",")[0]] *)
Fixpoint before_comma (s : string) : string :=
  match s with
  | EmptyString => EmptyString
  | String c r => if code c =? 44 then EmptyString else String c (before_comma r)
  end.

(** [s.substring(n)] *)
Fixpoint substring_from (n : nat) (s : string) : string :=
  match n, s with
  | S k, String _ r => substring_from k r
  | _, _ => s
  end.

(** [getClientIp] *)
Definition getClientIp (request : Request) : string :=
  if truthy (req_headers request !! "x-forwarded-for") then
    trim (before_comma (default "" (req_headers request !! "x-forwarded-for")))
  else if truthy (req_headers request !! "x-real-ip") then
    default "" (req_headers request !! "x-real-ip")
  else if truthy (req_headers request !! "x-vercel-forwarded-for") then
    trim (before_comma (default "" (req_headers request !! "x-vercel-forwarded-for")))
  else "unknown".

(** [verifyAuthToken]: a missing or malformed header yields [null] without a
    call to the identity provider; a token the provider rejects (the [catch])
    yields [null] too. *)
Definition verifyAuthToken (env : Env) (request : Request) (w : World)
  : option DecodedIdToken * World :=
  match req_headers request !! "authorization" with
  | Some authHeader =>
      if String.prefix "Bearer " authHeader then
        let token := substring_from 7 authHeader in
        (idTokens env !! token, emit (VerifyIdToken token) w)
      else (None, w)
  | None => (None, w)
  end.

Definition errorResponse (err : string) (st : Z) : Response :=
  mkResponse st [] (mkApi false None (Some err) None).

Definition successResponse (d : ResponseData) (msg : option string) : Response :=
  mkResponse 200 [] (mkApi true (Some d) None msg).

(** [authenticateRequest]; a failing read of the user document is not
    caught here and escapes to the caller. *)
Definition authenticateRequest (env : Env) (request : Request)
    (requireEmailVerified : bool) (w : World)
  : outcome (Response + AuthenticatedContext) * World :=
  let '(decodedToken, w1) := verifyAuthToken env request w in
  match decodedToken with
  | None => (Returned (inl (errorResponse UNAUTHORIZED 401)), w1)
  | Some tok =>
      if requireEmailVerified && negb (tok_email_verified tok) then
        (Returned (inl (errorResponse EMAIL_NOT_VERIFIED 403)), w1)
      else
        let w2 := emit (GetUserDoc (tok_uid tok)) w1 in
        match store_fault env (effects w2) with
        | Some m => (Threw m, w2)
        | None =>
            let ud := users w2 !! tok_uid tok in
            if match ud with Some u => isBanned u | None => false end then
              (Returned (inl (errorResponse UNAUTHORIZED 403)), w2)
            else
              (Returned (inr (mkCtx tok ud
                                (hashIpAddress (FLAG_HASH_SALT env) (getClientIp request)))),
               w2)
        end
  end.

(** [applyRateLimit] *)
Definition applyRateLimit (env : Env) (request : Request) (configKey : ConfigKey)
    (identifier : option string) (w : World)
  : (RateLimitResult * string) * World :=
  let ip := getClientIp request in
  let ipH := hashIpAddress (FLAG_HASH_SALT env) ip in
  let finalIdentifier := match identifier with
                         | Some (String _ _ as i) => i
                         | _ => ipH
                         end in
  let config := RATE_LIMIT_CONFIGS configKey in
  let id := configKey_name configKey ++ ":" ++ finalIdentifier in
  let '(result, store') := checkRateLimit id config (clock env) (rateLimitStore w) in
  ((result, finalIdentifier), emit (CheckRateLimit (rate_key id)) (set_rateLimitStore store' w)).

(** [createRateLimitHeaders]: [Retry-After] only for a truthy (non-zero)
    value. *)
Definition createRateLimitHeaders (result : RateLimitResult) : list (string * Z) :=
  [("X-RateLimit-Remaining", remaining result); ("X-RateLimit-Reset", resetTime result)]
  ++ match retryAfter result with
     | Some r => if r =? 0 then [] else [("Retry-After", r)]
     | None => []
     end.

(** [rateLimitedResponse] *)
Definition rateLimitedResponse (result : RateLimitResult) : Response :=
  mkResponse 429 (createRateLimitHeaders result) (mkApi false None (Some RATE_LIMITED) None).

(** [!v || typeof v !== "string"] fails exactly on a non-empty string. *)
Definition nonempty_string (v : JsValue) : option string :=
  match v with
  | VString (String _ _ as s) => Some s
  | _ => None
  end.

(* ===================================================================== *)
(** ** [POST /api/challenges/submit]                                      *)
(* ===================================================================== *)

(** The [catch] block of the handler. *)
Definition submission_error (env : Env) (userId challengeId : string)
    (msg : string) (w : World) : HandlerResult * World :=
  (Responded (errorResponse SERVER_ERROR 500),
   logSecurityEvent env "FLAG_SUBMISSION_ERROR"
     [("userId", LStr userId); ("challengeId", LStr challengeId); ("error", LStr msg)] w).

(** The [try] block, entered with validated input.  Each Firestore call
    is recorded and then asked of the store; a rejection lands in the
    [catch] block, and so does a throwing [doc].  The handler awaits every
    call, and requests of other callers run in the meantime: [others e] is
    what they have done to the world by the time the call [e] is served.
    The solved list that is searched first is the one of the snapshot
    taken at authentication. *)
Definition evaluate_submission_during (env : Env) (request : Request)
    (others : Effect -> World -> World)
    (ctx : AuthenticatedContext) (ipH challengeId sanitizedFlag : string)
    (w : World) : HandlerResult * World :=
  let usr := user ctx in
  if bool_decide (challengeId ∈ match userData ctx with
                                | Some u => solvedChallenges u
                                | None => []
                                end) then
    (Responded (successResponse (DSubmit (mkSubmitData false ALREADY_SOLVED None None))
                  (Some ALREADY_SOLVED)), w)
  else
    match doc challengeId with
    | Threw m => submission_error env (tok_uid usr) challengeId m w
    | Returned challengeRef =>
    let w1 := emit (GetChallengeDoc (ref_path challengeRef))
                (others (GetChallengeDoc (ref_path challengeRef)) w) in
    match store_fault env (effects w1), get_doc (challenges w1) challengeRef with
    | Some m, _ => submission_error env (tok_uid usr) challengeId m w1
    | None, None => (Responded (errorResponse NOT_FOUND 404), w1)
    | None, Some challenge =>
        if negb (isActive challenge) then (Responded (errorResponse NOT_FOUND 404), w1)
        else
          match validateFlag (FLAG_HASH_SALT env) sanitizedFlag (flagHash challenge) with
          | Threw m => submission_error env (tok_uid usr) challengeId m w1
          | Returned isCorrect =>
              let userAgent := match req_headers request !! "user-agent" with
                               | Some (String _ _ as ua) => ua
                               | _ => "unknown"
                               end in
              let submissionData :=
                mkSubmission challengeId (tok_uid usr) isCorrect ipH (slice0 256 userAgent) in
              let w2 := emit (AddSubmission challengeId (tok_uid usr))
                          (others (AddSubmission challengeId (tok_uid usr)) w1) in
              match store_fault env (effects w2) with
              | Some m => submission_error env (tok_uid usr) challengeId m w2
              | None =>
                  let w3 := logSecurityEvent env "FLAG_SUBMISSION"
                              [("userId", LStr (tok_uid usr));
                               ("challengeId", LStr challengeId);
                               ("ipHash", LStr ipH); ("correct", LBool isCorrect)]
                              (add_submission submissionData w2) in
                  if isCorrect then
                    let w4 := emit (RunTransaction (tok_uid usr) challengeId)
                                (others (RunTransaction (tok_uid usr) challengeId) w3) in
                    match store_fault env (effects w4),
                          runTransaction usr challengeId (points challenge) w4 with
                    | Some m, _ => submission_error env (tok_uid usr) challengeId m w4
                    | None, Threw m => submission_error env (tok_uid usr) challengeId m w4
                    | None, Returned w5 =>
                        let w6 := emit (GetUserDoc (tok_uid usr))
                                    (others (GetUserDoc (tok_uid usr)) w5) in
                        match store_fault env (effects w6) with
                        | Some m => submission_error env (tok_uid usr) challengeId m w6
                        | None =>
                            let updatedScore := match users w6 !! tok_uid usr with
                                                | Some u => score u
                                                | None => 0
                                                end in
                            (Responded (successResponse
                               (DSubmit (mkSubmitData true FLAG_CORRECT
                                           (Some (points challenge)) (Some updatedScore)))
                               None), w6)
                        end
                    end
                  else
                    (Responded (successResponse
                       (DSubmit (mkSubmitData false FLAG_INCORRECT None None)) None), w3)
              end
          end
    end
    end.

(** No other request writes while this one is served. *)
Definition quiet : Effect -> World -> World := fun _ w => w.

(** The [try] block of a request that is served alone. *)
Definition evaluate_submission (env : Env) (request : Request)
    (ctx : AuthenticatedContext) (ipH challengeId sanitizedFlag : string)
    (w : World) : HandlerResult * World :=
  evaluate_submission_during env request quiet ctx ipH challengeId sanitizedFlag w.

(** The handler, among the requests of other callers (see
    [evaluate_submission_during]); what they did before the user record
    was read is part of [w].  The limiter, which is not awaited, is
    consulted on the world as authentication left it; what the others did
    since the user record was read is seen at the first Firestore call of
    the [try] block. *)
Definition POST_during (env : Env) (request : Request)
    (others : Effect -> World -> World) (w : World) : HandlerResult * World :=
  let clientIp := getClientIp request in
  let ipH := hashIpAddress (FLAG_HASH_SALT env) clientIp in
  (* Authenticate request first *)
  let '(authResult, w1) := authenticateRequest env request true w in
  match authResult with
  | Threw m => (Uncaught m, w1)
  | Returned (inl response) => (Responded response, w1)
  | Returned (inr ctx) =>
      let usr := user ctx in
      (* Apply strict rate limiting for flag submission *)
      let rateLimitKey := ipH ++ ":" ++ tok_uid usr in
      let '((rateLimit, _), w2) :=
        applyRateLimit env request flagSubmission (Some rateLimitKey) w1 in
      if negb (allowed rateLimit) then
        (Responded (rateLimitedResponse rateLimit),
         logSecurityEvent env "RATE_LIMITED_FLAG_SUBMISSION"
           [("userId", LStr (tok_uid usr)); ("ipHash", LStr ipH);
            ("remaining", LNum (remaining rateLimit))] w2)
      else
        match req_json request with
        | BodyInvalid => (Responded (errorResponse "Invalid request body" 400), w2)
        | BodyNull =>
            (Uncaught "Cannot destructure property 'challengeId' of 'bodyResult' as it is null.",
             w2)
        | BodyFields cid flag =>
            match nonempty_string cid with
            | None => (Responded (errorResponse VALIDATION_FAILED 400), w2)
            | Some challengeId =>
                match nonempty_string flag with
                | None => (Responded (errorResponse VALIDATION_FAILED 400), w2)
                | Some flagText =>
                    let sanitizedFlag := sanitizeInput flagText in
                    if (str_length sanitizedFlag =? 0) || (str_length sanitizedFlag >? 256)
                    then (Responded (errorResponse VALIDATION_FAILED 400), w2)
                    else evaluate_submission_during env request others ctx ipH challengeId
                           sanitizedFlag w2
                end
            end
        end
  end.

(** The handler of a request that is served alone. *)
Definition POST (env : Env) (request : Request) (w : World) : HandlerResult * World :=
  POST_during env request quiet w.

(* ===================================================================== *)
(** ** [GET /api/challenges]                                              *)
(* ===================================================================== *)

(** The query [where("isActive", "==", true)]; the order of the result
    ([orderBy] category, difficulty) is not modelled. *)
Definition active_challenges (cs : gmap string Challenge) : list (string * Challenge) :=
  List.filter (fun p => isActive (snd p)) (map_to_list cs).

(** The transformation to the public format. *)
Definition to_public (solved : list string) (p : string * Challenge) : ChallengePublic :=
  let d := snd p in
  mkPublic (fst p) (title d) (description d) (category d) (difficulty d) (points d)
           (hints d) (attachments d) (solveCount d) (bool_decide (fst p ∈ solved)).

Definition GET (env : Env) (request : Request) (w : World) : HandlerResult * World :=
  let '((rateLimit, _), w1) := applyRateLimit env request general None w in
  if negb (allowed rateLimit) then (Responded (rateLimitedResponse rateLimit), w1)
  else
    let '(authResult, w2) := authenticateRequest env request true w1 in
    match authResult with
    | Threw m => (Uncaught m, w2)
    | Returned (inl response) => (Responded response, w2)
    | Returned (inr ctx) =>
        let w3 := emit QueryActiveChallenges w2 in
        match store_fault env (effects w3) with
        | Some _ => (Responded (errorResponse "Failed to fetch challenges" 500), w3)
        | None =>
            let solved := match userData ctx with
                          | Some u => solvedChallenges u
                          | None => []
                          end in
            (Responded (successResponse
               (DChallenges (map (to_public solved) (active_challenges (challenges w3))))
               None),
             w3)
        end
    end.

(** Every string value that occurs in a JSON response body. *)
Definition attachment_strings (a : ChallengeAttachment) : list string :=
  [att_name a; att_url a; att_type a].

Definition public_strings (c : ChallengePublic) : list string :=
  [pub_id c; pub_title c; pub_description c; pub_category c; pub_difficulty c]
  ++ pub_hints c ++ flat_map attachment_strings (pub_attachments c).

Definition data_strings (d : ResponseData) : list string :=
  match d with
  | DSubmit s => [sd_message s]
  | DChallenges l => flat_map public_strings l
  end.

Definition body_strings (b : ApiResponse) : list string :=
  match data b with Some d => data_strings d | None => [] end
  ++ match error b with Some e => [e] | None => [] end
  ++ match message b with Some m => [m] | None => [] end.

(** The strings a handler result shows to the caller (an escaped exception
    shows none of the handler's). *)
Definition result_strings (r : HandlerResult) : list string :=
  match r with
  | Responded resp => body_strings (body resp)
  | Uncaught _ => []
  end.

(** The string literals of the submission handler and its helpers that can
    reach a response body. *)
Definition SUBMIT_MESSAGES : list string :=
  [UNAUTHORIZED; EMAIL_NOT_VERIFIED; RATE_LIMITED; "Invalid request body";
   VALIDATION_FAILED; ALREADY_SOLVED; NOT_FOUND; SERVER_ERROR; FLAG_CORRECT;
   FLAG_INCORRECT].

(** The published strings of a challenge document: everything but the
    fingerprint (and the author, which the listing omits as well). *)
Definition challenge_public_strings (p : string * Challenge) : list string :=
  [fst p; title (snd p); description (snd p); category (snd p); difficulty (snd p)]
  ++ hints (snd p) ++ flat_map attachment_strings (attachments (snd p)).

(** A challenge document with its fingerprint replaced. *)
Definition with_flagHash (h : string) (c : Challenge) : Challenge :=
  mkChallenge (title c) (description c) (category c) (difficulty c) (points c) h
              (hints c) (attachments c) (solveCount c) (isActive c) (author c).

(* ===================================================================== *)
(** ** Sample data for the concrete checks                                *)
(* ===================================================================== *)

Definition sample_salt : option string := Some "s3cr3t".

(** The fingerprint the seeding script stores for a flag. *)
Definition seeded_hash (flag : string) : string :=
  match hashFlag sample_salt flag with
  | Returned h => h
  | Threw _ => ""
  end.

Definition sample_challenge (name flag : string) (pts : Z) (active : bool) : Challenge :=
  mkChallenge name "Can you decrypt it?" "crypto" "easy" pts (seeded_hash flag)
              ["Look closer"] [mkAttachment "hidden.png" "/files/hidden.png" "image/png" 2048]
              0 active "admin".

Definition alice_token : DecodedIdToken := mkToken "alice" (Some "alice@example.org") true.
Definition bob_token : DecodedIdToken := mkToken "bob" (Some "bob@example.org") false.
Definition carol_token : DecodedIdToken := mkToken "carol" None true.

(** The store answers every call. *)
Definition store_up : list Effect -> option string := fun _ => None.


(** The store rejects the reads of challenge documents, single or by
    query, and answers every other call. *)
Definition challenge_reads_fail (calls : list Effect) : option string :=
  match last calls with
  | Some (GetChallengeDoc _) | Some QueryActiveChallenges => Some "14 UNAVAILABLE"
  | _ => None
  end.

Definition sample_env (now : Z) : Env :=
  mkEnv sample_salt
        (list_to_map [("tok-alice", alice_token); ("tok-bob", bob_token);
                      ("tok-carol", carol_token)])
        now store_up.

Definition sample_challenges : gmap string Challenge :=
  list_to_map
    [("c0", sample_challenge "Warm-up" "ctf{warm_up}" 500 true);
     ("c1", sample_challenge "ROT13 Rookie" "ctf{rotate_me_baby_one_more_time}" 250 true);
     ("c2", sample_challenge "Retired" "ctf{retired}" 100 false);
     ("c3", sample_challenge "Angle" "ctf{a<b}" 300 true);
     ("c4", sample_challenge "Handler" "ctf{conn_a=b}" 300 true);
     ("c5", sample_challenge "Scheme" "ctf{javascript:alert}" 300 true)].

Definition alice : User := mkUser "alice" "alice@example.org" true 500 ["c0"] false false.

Definition sample_world : World :=
  mkWorld (list_to_map [("alice", alice)]) sample_challenges [] ∅ [] [].

Definition submit_request (token challengeId flag : string) : Request :=
  mkRequest (list_to_map [("authorization", "Bearer " ++ token);
                          ("x-forwarded-for", "203.0.113.7, 10.0.0.1")])
            (BodyFields (VString challengeId) (VString flag)).

(** The limiter key of the sample caller with the given uid. *)
Definition sample_limiter_id (userId : string) : string :=
  "flagSubmission:" ++ hashIpAddress sample_salt "203.0.113.7" ++ ":" ++ userId.

(** A world whose limiter window for the given uid is full since time 0. *)
Definition throttled_world (userId : string) : World :=
  set_rateLimitStore {[ rate_key (sample_limiter_id userId) := mkEntry 5 0 4000 ]} sample_world.

(** The user record after an award of [pts] for [challengeId], and the
    challenge record after one more solve: the words of the ledger contract,
    to compare the transaction with. *)
Definition awarded (u : User) (pts : Z) (challengeId : string) : User :=
  mkUser (uid u) (email u) (emailVerified u) (score u + pts)
         (solvedChallenges u ++ [challengeId]) (isAdmin u) (isBanned u).

Definition solved_once_more (ch : Challenge) : Challenge :=
  mkChallenge (title ch) (description ch) (category ch) (difficulty ch) (points ch)
              (flagHash ch) (hints ch) (attachments ch) (solveCount ch + 1)
              (isActive ch) (author ch).

(** The record the transaction works on: the stored one, or the one it
    creates on first touch. *)
Definition ledger_record (usr : DecodedIdToken) (w : World) : User :=
  default (new_user usr) (users w !! tok_uid usr).

(** A string made of one repeated character. *)
Fixpoint repeat_char (c : ascii) (n : nat) : string :=
  match n with
  | O => EmptyString
  | S k => String c (repeat_char c k)
  end.

Definition is_byte (b : Z) : Prop := 0 <= b < 256.

(** The digest that [hashFlag] renders in hexadecimal. *)
Definition flag_digest (salt flag : string) : list Z :=
  sha256 (utf8 (salt ++ toLowerCase (trim flag))).

(** The same digest for a normalised flag given as code units. *)
Definition unit_digest (salt : string) (normalizedFlag : list Z) : list Z :=
  sha256 (utf8_of_units (units salt ++ normalizedFlag)).

(** The rate-limit key the submission handler builds for a caller. *)
Definition submission_limit_key (env : Env) (request : Request) (usr : DecodedIdToken)
  : string :=
  hashIpAddress (FLAG_HASH_SALT env) (getClientIp request) ++ ":" ++ tok_uid usr.

(** The request got past authentication (leaving [ctx]) and past the rate
    limiter (leaving the world [w2]). *)
Definition passes_gates (env : Env) (request : Request) (w : World)
    (ctx : AuthenticatedContext) (w2 : World) : Prop :=
  exists w1 rl fid,
    authenticateRequest env request true w = (Returned (inr ctx), w1)
    /\ applyRateLimit env request flagSubmission
         (Some (submission_limit_key env request (user ctx))) w1 = ((rl, fid), w2)
    /\ allowed rl = true.

(** The length check of the handler on the sanitised flag. *)
Definition acceptable_flag (sanitizedFlag : string) : Prop :=
  0 < str_length sanitizedFlag <= 256.

(** The solved list of the snapshot taken at authentication. *)
Definition snapshot_solved (ctx : AuthenticatedContext) : list string :=
  match userData ctx with
  | Some u => solvedChallenges u
  | None => []
  end.

Definition is_rate_check (e : Effect) : bool :=
  match e with
  | CheckRateLimit _ => true
  | _ => false
  end.

(** The gates of the submission handler, run for their result: the context
    and the world a request reaches the body parsing with. *)
Definition gate_of (env : Env) (request : Request) (w : World)
  : option (AuthenticatedContext * World) :=
  match authenticateRequest env request true w with
  | (Returned (inr ctx), w1) =>
      match applyRateLimit env request flagSubmission
              (Some (submission_limit_key env request (user ctx))) w1 with
      | ((rl, _), w2) => if allowed rl then Some (ctx, w2) else None
      end
  | _ => None
  end.

(** The three rejections of [authenticateRequest]. *)
Definition AUTH_REJECTIONS : list Response :=
  [errorResponse UNAUTHORIZED 401; errorResponse EMAIL_NOT_VERIFIED 403;
   errorResponse UNAUTHORIZED 403].

(** The string literals that can reach a body of the listing handler. *)
Definition LISTING_MESSAGES : list string :=
  [RATE_LIMITED; UNAUTHORIZED; EMAIL_NOT_VERIFIED; "Failed to fetch challenges"].

Definition no_rate_check (es : list Effect) : Prop :=
  forallb (fun e => negb (is_rate_check e)) es = true.

(* ===================================================================== *)
(** ** Proof support                                                      *)
(* ===================================================================== *)

(** Membership of a literal in a list of literals, and the matching case
    analysis of a hypothesis. *)
Ltac in_literals :=
  repeat first [ apply list_elem_of_here | apply list_elem_of_further ].

(** The handler of a request served alone, opened up to its [try] block. *)
Ltac open_POST :=
  unfold POST, POST_during;
  repeat change (evaluate_submission_during ?env ?req quiet ?a ?b ?c ?d ?e)
           with (evaluate_submission env req a b c d e).

Ltac open_try :=
  unfold evaluate_submission, evaluate_submission_during, quiet.

Ltac literal_cases :=
  let Hs := fresh "Hs" in
  cbn; intros Hs;
  repeat (apply elem_of_cons in Hs; destruct Hs as [-> | Hs]);
  first [ now apply elem_of_nil in Hs | solve [in_literals] ].

(* ===================================================================== *)
(** ** The rest of the rate limiter ([lib/rate-limiter.ts])               *)
(* ===================================================================== *)

(** [resetRateLimit] *)
Definition resetRateLimit (identifier : string) (store : gmap string RateLimitEntry)
  : gmap string RateLimitEntry :=
  delete (rate_key identifier) store.

Record RateLimitStatus := mkStatus {
  status_count : Z;
  status_remaining : Z;
  status_resetTime : Z
}.

(** [getRateLimitStatus]: the status without incrementing. *)
Definition getRateLimitStatus (identifier : string) (config : RateLimitConfig)
    (now : Z) (store : gmap string RateLimitEntry) : RateLimitStatus :=
  match store !! rate_key identifier with
  | Some entry =>
      if bool_decide (now - firstRequest entry > windowMs config) then
        mkStatus 0 (maxRequests config) (now + windowMs config)
      else
        mkStatus (count entry) (Z.max 0 (maxRequests config - count entry))
                 (firstRequest entry + windowMs config)
  | None => mkStatus 0 (maxRequests config) (now + windowMs config)
  end.

(** [Math.max(...Object.values(RATE_LIMIT_CONFIGS).map((c) => c.windowMs))] *)
Definition maxWindow : Z :=
  Z.max (windowMs (RATE_LIMIT_CONFIGS flagSubmission))
    (Z.max (windowMs (RATE_LIMIT_CONFIGS authentication))
       (Z.max (windowMs (RATE_LIMIT_CONFIGS general))
          (windowMs (RATE_LIMIT_CONFIGS passwordReset)))).

(** [cleanupExpiredEntries]: every entry whose last request is older than
    the largest window is deleted. *)
Definition cleanupExpiredEntries (now : Z) (store : gmap string RateLimitEntry)
  : gmap string RateLimitEntry :=
  filter (fun kv => ~ (now - lastRequest (snd kv) > maxWindow)) store.

(** The identifier [applyRateLimit] hands to [checkRateLimit]. *)
Definition limiter_identifier (configKey : ConfigKey) (finalIdentifier : string) : string :=
  configKey_name configKey ++ ":" ++ finalIdentifier.

(* ===================================================================== *)
(** ** The rest of [lib/security.ts]                                      *)
(* ===================================================================== *)

(** A test on every character, and on some character, of a string. *)
Fixpoint string_forall (P : ascii -> bool) (s : string) : bool :=
  match s with
  | EmptyString => true
  | String c r => P c && string_forall P r
  end.

Fixpoint string_exists (P : ascii -> bool) (s : string) : bool :=
  match s with
  | EmptyString => false
  | String c r => P c || string_exists P r
  end.

Definition is_angle (c : ascii) : bool := (code c =? 60) || (code c =? 62).

Definition is_upper (c : ascii) : bool := (65 <=? code c) && (code c <=? 90).
Definition is_lower (c : ascii) : bool := (97 <=? code c) && (code c <=? 122).
Definition is_digit (c : ascii) : bool := (48 <=? code c) && (code c <=? 57).
Definition is_alnum (c : ascii) : bool := is_upper c || is_lower c || is_digit c.

(** The characters [sanitizeDisplayName] keeps: letters, digits,
    underscore, hyphen and white space (the white space of [trim]). *)
Definition is_display_char (c : ascii) : bool :=
  is_alnum c || (code c =? 95) || (code c =? 45) || is_js_whitespace c.

(** One character outside that class. *)
Definition match_not_display (s : string) : option nat :=
  match s with
  | String c _ => if is_display_char c then None else Some 1%nat
  | EmptyString => None
  end.

(** [sanitizeDisplayName] *)
Definition sanitizeDisplayName (name : string) : string :=
  match name with
  | EmptyString => EmptyString
  | _ => slice0 50 (remove_matches match_not_display 0 (trim name))
  end.

(** *** [validatePassword] *)

Inductive PasswordStrength := weak | fair | strong | very_strong.

Record PasswordValidation := mkPasswordValidation {
  pv_isValid : bool;
  pv_errors : list string;
  pv_strength : PasswordStrength
}.

(** The character class that [validatePassword] builds from
    [PASSWORD_REQUIREMENTS.symbols]. The pattern escapes the regex
    metacharacters of that text and leaves the hyphen alone, so inside the
    brackets the three characters plus, hyphen, equals read as the range
    from plus (43) to equals (61). The other members are single characters,
    listed here by code in the order of the text. *)
Definition is_password_symbol (c : ascii) : bool :=
  let n := code c in
  existsb (Z.eqb n) [33; 64; 35; 36; 37; 94; 38; 42; 40; 41; 95]
  || ((43 <=? n) && (n <=? 61))
  || existsb (Z.eqb n) [91; 93; 123; 125; 124; 59; 39; 58; 34; 44; 46; 47; 60; 62; 63;
                        96; 126].

(** A case-insensitive search for a lower-case ASCII pattern. *)
Fixpoint contains_ci (pat s : string) : bool :=
  ci_prefix pat s
  || match s with
     | EmptyString => false
     | String _ r => contains_ci pat r
     end.

(** The [commonPatterns]: a leading 123456 and six case-insensitive words. *)
Definition matches_common_pattern (password : string) : bool :=
  String.prefix "123456" password
  || contains_ci "password" password
  || contains_ci "qwerty" password
  || contains_ci "abc123" password
  || contains_ci "admin" password
  || contains_ci "letmein" password
  || contains_ci "welcome" password.

(** [validatePassword]: the errors in the order they are pushed, and the
    score behind the strength. *)
Definition password_score (password : string) : Z :=
  let len := str_length password in
  let s0 := if len <? 12 then 0
            else 1 + (if len >=? 16 then 1 else 0) + (if len >=? 20 then 1 else 0) in
  let s1 := s0 + (if string_exists is_upper password then 1 else 0) in
  let s2 := s1 + (if string_exists is_lower password then 1 else 0) in
  let s3 := s2 + (if string_exists is_digit password then 1 else 0) in
  let s4 := s3 + (if string_exists is_password_symbol password then 1 else 0) in
  if matches_common_pattern password then Z.max 0 (s4 - 2) else s4.

Definition password_errors (password : string) : list string :=
  let len := str_length password in
  (if len <? 12 then ["Password must be at least 12 characters"] else [])
  ++ (if len >? 128 then ["Password must not exceed 128 characters"] else [])
  ++ (if string_exists is_upper password then []
      else ["Password must contain at least one uppercase letter"])
  ++ (if string_exists is_lower password then []
      else ["Password must contain at least one lowercase letter"])
  ++ (if string_exists is_digit password then []
      else ["Password must contain at least one digit"])
  ++ (if string_exists is_password_symbol password then []
      else ["Password must contain at least one special character"])
  ++ (if matches_common_pattern password
      then ["Password contains a common pattern that is easily guessed"] else []).

Definition validatePassword (password : string) : PasswordValidation :=
  let errors := password_errors password in
  let score := password_score password in
  let strength := if score >=? 7 then very_strong
                  else if score >=? 5 then strong
                  else if score >=? 3 then fair
                  else weak in
  mkPasswordValidation (match errors with [] => true | _ => false end) errors strength.

(** *** [validateEmail] *)

Record ValidationResult := mkValidation {
  vr_isValid : bool;
  vr_errors : list string
}.

(** The class of the local part: letters, digits and the twenty marks of
    the pattern, by code in the order of the pattern. *)
Definition is_local_char (c : ascii) : bool :=
  is_alnum c
  || existsb (Z.eqb (code c))
       [46; 33; 35; 36; 37; 38; 39; 42; 43; 47; 61; 63; 94; 95; 96; 123; 124; 125; 126; 45].

Definition is_label_char (c : ascii) : bool := is_alnum c || (code c =? 45).

(** The characters of a domain: those of a label, and the dot. *)
Definition is_domain_char (c : ascii) : bool := is_label_char c || (code c =? 46).

(** The last character of a string. *)
Fixpoint last_char (s : string) : option ascii :=
  match s with
  | EmptyString => None
  | String c EmptyString => Some c
  | String _ r => last_char r
  end.

(** One domain label: a letter or digit, then optionally up to 61 letters,
    digits and hyphens followed by a letter or digit; that is one to 63
    letters, digits and hyphens with no hyphen at either end. *)
Definition label_ok (l : string) : bool :=
  match l with
  | EmptyString => false
  | String c _ =>
      is_alnum c
      && match last_char l with Some d => is_alnum d | None => false end
      && string_forall is_label_char l
      && (String.length l <=? 63)%nat
  end.

(** The text up to the first occurrence of a character, and the text after
    it ([None] when the character does not occur). *)
Fixpoint split_first (sep : ascii) (s : string) : option (string * string) :=
  match s with
  | EmptyString => None
  | String c r =>
      if bool_decide (c = sep) then Some (EmptyString, r)
      else match split_first sep r with
           | Some (a, b) => Some (String c a, b)
           | None => None
           end
  end.

(** The domain: labels separated by single dots. *)
Fixpoint domain_ok (fuel : nat) (d : string) : bool :=
  match fuel with
  | O => false
  | S k =>
      match split_first "." d with
      | None => label_ok d
      | Some (l, rest) => label_ok l && domain_ok k rest
      end
  end.

(** [emailRegex.test]: the pattern is anchored at both ends; its local part
    cannot hold an at sign, so it ends at the first one. *)
Definition email_regex_test (email : string) : bool :=
  match split_first "@" email with
  | None => false
  | Some (local, domain) =>
      match local with
      | EmptyString => false
      | _ => string_forall is_local_char local
             && domain_ok (S (String.length domain)) domain
      end
  end.

(** [validateEmail] *)
Definition validateEmail (email : string) : ValidationResult :=
  let errors :=
    if match email with EmptyString => true | _ => false end
       || (str_length (trim email) =? 0)
    then ["Email is required"]
    else if negb (email_regex_test email) then ["Invalid email format"]
    else if str_length email >? 254 then ["Email exceeds maximum length"]
    else [] in
  mkValidation (match errors with [] => true | _ => false end) errors.

(* ===================================================================== *)
(** ** Reading the handlers                                               *)
(* ===================================================================== *)

(** The identity [verifyAuthToken] finds for a request: the decoded token of
    the [Bearer] header, if the identity provider accepts it. *)
Definition bearer_identity (env : Env) (request : Request) : option DecodedIdToken :=
  match req_headers request !! "authorization" with
  | Some authHeader =>
      if String.prefix "Bearer " authHeader
      then idTokens env !! substring_from 7 authHeader
      else None
  | None => None
  end.

(** The limiter key of the listing handler: [applyRateLimit(request,
    "general")] falls back to the hashed client address. *)
Definition listing_limit_key (env : Env) (request : Request) : string :=
  rate_key (limiter_identifier general
              (hashIpAddress (FLAG_HASH_SALT env) (getClientIp request))).

(** The limiter key of the submission handler for a caller. *)
Definition submission_rate_key (env : Env) (request : Request) (usr : DecodedIdToken)
  : string :=
  rate_key (limiter_identifier flagSubmission (submission_limit_key env request usr)).

(** The [submissionData] the submission handler stores. *)
Definition submission_record (request : Request) (usr : DecodedIdToken)
    (ipH challengeId : string) (isCorrect : bool) : Submission :=
  mkSubmission challengeId (tok_uid usr) isCorrect ipH
    (slice0 256 (match req_headers request !! "user-agent" with
                 | Some (String _ _ as ua) => ua
                 | _ => "unknown"
                 end)).

(** The three answers of the submission handler that carry a verdict. *)
Definition already_solved_response : Response :=
  successResponse (DSubmit (mkSubmitData false ALREADY_SOLVED None None))
                  (Some ALREADY_SOLVED).

Definition incorrect_response : Response :=
  successResponse (DSubmit (mkSubmitData false FLAG_INCORRECT None None)) None.

Definition correct_response (pts total : Z) : Response :=
  successResponse (DSubmit (mkSubmitData true FLAG_CORRECT (Some pts) (Some total))) None.

(** The solved list stored for an identity ([userData?.solvedChallenges ||
    []]). *)
Definition stored_solved (w : World) (userId : string) : list string :=
  match users w !! userId with
  | Some u => solvedChallenges u
  | None => []
  end.

(** A request that carries only headers, as the GET handlers read it. *)
Definition listing_request (token : string) : Request :=
  mkRequest (list_to_map [("authorization", "Bearer " ++ token);
                          ("x-forwarded-for", "203.0.113.7, 10.0.0.1")])
            BodyInvalid.

(* ===================================================================== *)
(** ** [GET /api/challenges/[id]]                                         *)
(* ===================================================================== *)

(** The answer of the single-challenge handler: [successResponse(challenge)]
    with the public entry and its [isComingSoon], or one of the answers
    without data. *)
Inductive DetailResult :=
| DetailFound (challenge : ChallengePublic) (isComingSoon : bool)
| DetailOther (r : HandlerResult).

(** The handler.  [comingSoon] holds the optional field [isComingSoon] of
    the challenge documents that have it, which no other handler reads;
    [data.isComingSoon || false] is its value or [false].  The id of the
    route goes through [doc] inside the [try] block; the entry carries
    [challengeDoc.id], the id of the document that was found. *)
Definition GET_by_id (env : Env) (comingSoon : gmap string bool) (request : Request)
    (id : string) (w : World) : DetailResult * World :=
  let '((rateLimit, _), w1) := applyRateLimit env request general None w in
  if negb (allowed rateLimit) then (DetailOther (Responded (rateLimitedResponse rateLimit)), w1)
  else
    let '(authResult, w2) := authenticateRequest env request true w1 in
    match authResult with
    | Threw m => (DetailOther (Uncaught m), w2)
    | Returned (inl response) => (DetailOther (Responded response), w2)
    | Returned (inr ctx) =>
        match doc id with
        | Threw _ =>
            (DetailOther (Responded (errorResponse "Failed to fetch challenge" 500)), w2)
        | Returned challengeRef =>
            let w3 := emit (GetChallengeDoc (ref_path challengeRef)) w2 in
            match store_fault env (effects w3), get_doc (challenges w3) challengeRef with
            | Some _, _ =>
                (DetailOther (Responded (errorResponse "Failed to fetch challenge" 500)), w3)
            | None, None => (DetailOther (Responded (errorResponse NOT_FOUND 404)), w3)
            | None, Some d =>
                if negb (isActive d) then
                  (DetailOther (Responded (errorResponse NOT_FOUND 404)), w3)
                else
                  let solved := match userData ctx with
                                | Some u => solvedChallenges u
                                | None => []
                                end in
                  (DetailFound (to_public solved (ref_id challengeRef, d))
                     (default false (comingSoon !! ref_id challengeRef)), w3)
            end
        end
    end.

(* ===================================================================== *)
(** ** Ranks ([user/profile/route.ts], [user/[uid]/route.ts])             *)
(* ===================================================================== *)

(** The number of stored users that satisfy a test. *)
Definition count_users (P : User -> bool) (w : World) : Z :=
  Z.of_nat (length (List.filter (fun kv => P (snd kv)) (map_to_list (users w)))).

(** The rank on the caller's own profile: one more than the count of the
    query [where("score", ">", userData.score).where("isBanned", "==",
    false)]. *)
Definition profile_rank (w : World) (userData : User) : Z :=
  count_users (fun u => (score u >? score userData) && negb (isBanned u)) w + 1.

(** The rank on a public profile: [null] unless the score is positive,
    else one more than the count of [where("score", ">", userData.score)]. *)
Definition public_rank (w : World) (userData : User) : option Z :=
  if score userData >? 0
  then Some (count_users (fun u => score u >? score userData) w + 1)
  else None.

(** A character that no pattern of [sanitizeInput] mentions in a way that
    could complete a match: not an angle bracket, not the colon that ends
    [javascript:], not the equals sign that ends an event handler. *)
Definition is_plain_flag_char (c : ascii) : bool :=
  negb (is_angle c || (code c =? 58) || (code c =? 61)).

(* ===================================================================== *)
(** * Properties                                                          *)
(* ===================================================================== *)

(** ** The primitives on known values *)

(** SHA-256 on the test vectors of FIPS 180-4 and on inputs around the
    block boundaries. *)
Example sha256_vectors :
  sha256_hex "abc" = "ba7816bf8f01cfea414140de5dae2223b00361a396177a9cb410ff61f20015ad"
  /\ sha256_hex "" = "e3b0c44298fc1c149afbf4c8996fb92427ae41e4649b934ca495991b7852b855"
  /\ to_hex (sha256 (repeat 97 55))
     = "9f4390f8d30c2dd92ec9f095b65e2b9ae9b0a925a5258e241c9f1e910f734318"
  /\ to_hex (sha256 (repeat 97 56))
     = "b35439a4ac6f0948b6d6f9e3c6af0f5f590ce20f1bde7090ef7970686ec6738a"
  /\ to_hex (sha256 (repeat 97 64))
     = "ffe054fe7ae0cb6dc65c3af9b61d5209f439851db43d0ba5997337df154668eb"
  /\ to_hex (sha256 (repeat 97 119))
     = "31eba51c313a5c08226adf18d4a359cfdfd8d2e816b13f4af952f7ea6584dcfb".
Proof. vm_compute. repeat split. Qed.

(** A character above U+007F is hashed through its two UTF-8 bytes. *)
Example sha256_latin1 :
  sha256_hex ("s3cr3tctf{" ++ String (chr 233) "}")
  = "a15cff3ebfd7f06a5b53a72e52a949cb7fae720cc0d6e519c45f280454224411".
Proof. vm_compute. reflexivity. Qed.

Example sanitizeInput_samples :
  sanitizeInput "  ctf{a<b>c}  " = "ctf{abc}"
  /\ sanitizeInput "xJavaScript:yONclick=z on= onload =" = "xyz on= onload ="
  /\ sanitizeInput "javajavascript:script:" = "javascript:"
  /\ sanitizeInput "ctf{union_select_flag_from_secrets}" = "ctf{union_select_flag_from_secrets}"
  /\ sanitizeInput "ctf{conn_a=b}" = "ctf{cb}"
  /\ sanitizeInput "<>" = "".
Proof. vm_compute. repeat split. Qed.

Example normalisation_samples :
  trim "  a b  " = "a b"
  /\ toLowerCase "CTF{Flag}" = "ctf{flag}"
  /\ hashFlag (Some "s3cr3t") "  CTF{x}  " = Returned (sha256_hex "s3cr3tctf{x}")
  /\ hashIpAddress (Some "s3cr3t") "203.0.113.7" = "f3b54c12026d9fce".
Proof. vm_compute. repeat split. Qed.

(** ** The rate limiter *)

Section RateLimiter.

Variables (identifier : string) (config : RateLimitConfig).

Lemma check_absent now (store : gmap string RateLimitEntry) :
  store !! rate_key identifier = None ->
  checkRateLimit identifier config now store =
    (mkResult true (maxRequests config - 1) (now + windowMs config) None,
     <[rate_key identifier := mkEntry 1 now now]> store).
Proof. intros H. unfold checkRateLimit. now rewrite H. Qed.

Lemma check_expired now (store : gmap string RateLimitEntry) e :
  store !! rate_key identifier = Some e ->
  now - firstRequest e > windowMs config ->
  checkRateLimit identifier config now store =
    (mkResult true (maxRequests config - 1) (now + windowMs config) None,
     <[rate_key identifier := mkEntry 1 now now]> store).
Proof.
  intros H Hexp. unfold checkRateLimit. rewrite H.
  now rewrite bool_decide_eq_true_2.
Qed.

Lemma check_live_rejected now (store : gmap string RateLimitEntry) e :
  store !! rate_key identifier = Some e ->
  now - firstRequest e <= windowMs config ->
  count e >= maxRequests config ->
  checkRateLimit identifier config now store =
    (mkResult false 0 (firstRequest e + windowMs config)
       (Some (ceil_div (firstRequest e + windowMs config - now) 1000)),
     store).
Proof.
  intros H Hlive Hfull. unfold checkRateLimit. rewrite H.
  rewrite bool_decide_eq_false_2 by lia.
  now rewrite bool_decide_eq_true_2.
Qed.

Lemma check_live_allowed now (store : gmap string RateLimitEntry) e :
  store !! rate_key identifier = Some e ->
  now - firstRequest e <= windowMs config ->
  count e < maxRequests config ->
  checkRateLimit identifier config now store =
    (mkResult true (maxRequests config - (count e + 1))
       (firstRequest e + windowMs config) None,
     <[rate_key identifier := mkEntry (count e + 1) (firstRequest e) now]> store).
Proof.
  intros H Hlive Hroom. unfold checkRateLimit. rewrite H.
  rewrite bool_decide_eq_false_2 by lia.
  now rewrite bool_decide_eq_false_2 by lia.
Qed.

(** The four branches are the only ones: a rejection means a live window
    whose counter has reached the maximum. *)
Lemma rejected_inv now (store : gmap string RateLimitEntry) r store' :
  checkRateLimit identifier config now store = (r, store') ->
  allowed r = false ->
  exists e, store !! rate_key identifier = Some e
            /\ now - firstRequest e <= windowMs config
            /\ count e >= maxRequests config.
Proof.
  unfold checkRateLimit.
  destruct (store !! rate_key identifier) as [e|] eqn:He; [|intros [= <- _]; discriminate].
  repeat case_bool_decide; intros [= <- _]; try discriminate.
  intros _. exists e. repeat split; [lia | assumption].
Qed.

(** Calls inside a live window that started at [t1], with [a] requests still
    available: the first [a] are let through, the others are turned away,
    and the window keeps its start. *)
Lemma run_in_window t1 (ts : list Z) :
  Forall (fun t => t - t1 <= windowMs config) ts ->
  forall (a : nat) (store : gmap string RateLimitEntry) e,
    store !! rate_key identifier = Some e ->
    firstRequest e = t1 ->
    count e = maxRequests config - Z.of_nat a ->
    map allowed (fst (run_checks identifier config ts store))
      = (repeat true (Nat.min (length ts) a) ++ repeat false (length ts - a))%list
    /\ exists e', snd (run_checks identifier config ts store) !! rate_key identifier = Some e'
                  /\ firstRequest e' = t1
                  /\ count e' = maxRequests config - Z.of_nat (a - length ts).
Proof.
  induction 1 as [|t ts Ht _ IH]; intros a store e He Hfirst Hcount; cbn [run_checks].
  - split; [reflexivity|]. exists e. cbn [length]. rewrite Nat.sub_0_r. auto.
  - destruct a as [|a].
    + rewrite (check_live_rejected t store e) by (rewrite ?Hfirst; cbn in *; lia || assumption).
      destruct (IH 0%nat store e He Hfirst Hcount) as [Hflags (e' & He' & Hf' & Hc')].
      destruct (run_checks identifier config ts store) as [rs st] eqn:Hrun.
      cbn [fst snd map length] in *. split.
      * rewrite Hflags. rewrite Nat.min_0_r, Nat.sub_0_r. reflexivity.
      * exists e'. auto.
    + rewrite (check_live_allowed t store e) by (rewrite ?Hfirst; lia || assumption).
      set (e1 := mkEntry (count e + 1) (firstRequest e) t).
      destruct (IH a (<[rate_key identifier := e1]> store) e1) as [Hflags (e' & He' & Hf' & Hc')].
      { apply lookup_insert_eq. }
      { exact Hfirst. }
      { subst e1. cbn. lia. }
      destruct (run_checks identifier config ts _) as [rs st] eqn:Hrun.
      cbn [fst snd map length] in *. split.
      * rewrite Hflags. reflexivity.
      * exists e'. auto.
Qed.

(** A run that opens a window at [t1] and stays inside it. *)
Lemma run_fresh_window t1 (ts : list Z) (store : gmap string RateLimitEntry) :
  1 <= maxRequests config ->
  no_live_window identifier config t1 store ->
  Forall (fun t => t - t1 <= windowMs config) ts ->
  map allowed (fst (run_checks identifier config (t1 :: ts) store))
    = (repeat true (Nat.min (S (length ts)) (Z.to_nat (maxRequests config)))
       ++ repeat false (S (length ts) - Z.to_nat (maxRequests config)))%list
  /\ exists e', snd (run_checks identifier config (t1 :: ts) store) !! rate_key identifier
                  = Some e'
                /\ firstRequest e' = t1
                /\ count e' <= maxRequests config.
Proof.
  intros Hmax Hfresh Hts. cbn [run_checks].
  assert (checkRateLimit identifier config t1 store =
          (mkResult true (maxRequests config - 1) (t1 + windowMs config) None,
           <[rate_key identifier := mkEntry 1 t1 t1]> store)) as ->.
  { unfold no_live_window in Hfresh.
    destruct (store !! rate_key identifier) as [e|] eqn:He.
    - now apply check_expired with e.
    - now apply check_absent. }
  destruct (run_in_window t1 ts Hts (Z.to_nat (maxRequests config - 1))
              (<[rate_key identifier := mkEntry 1 t1 t1]> store) (mkEntry 1 t1 t1))
    as [Hflags (e' & He' & Hf' & Hc')].
  { apply lookup_insert_eq. }
  { reflexivity. }
  { cbn. lia. }
  destruct (run_checks identifier config ts _) as [rs st] eqn:Hrun.
  cbn [fst snd map] in *. split.
  - rewrite Hflags.
    replace (Z.to_nat (maxRequests config)) with (S (Z.to_nat (maxRequests config - 1))) by lia.
    reflexivity.
  - exists e'. repeat split; auto. lia.
Qed.

End RateLimiter.

Lemma ceil_div_spec x d :
  0 < d -> d * (ceil_div x d - 1) < x <= d * ceil_div x d.
Proof.
  intros Hd. unfold ceil_div.
  pose proof (Z.div_mod (- x) d ltac:(lia)) as Hdm.
  pose proof (Z.mod_pos_bound (- x) d Hd) as Hb.
  lia.
Qed.

Lemma check_preserves_bound identifier config now (store : gmap string RateLimitEntry) :
  1 <= maxRequests config ->
  count_bounded config identifier store ->
  count_bounded config identifier (snd (checkRateLimit identifier config now store)).
Proof.
  intros Hmax Hb. unfold count_bounded, checkRateLimit in *.
  destruct (store !! rate_key identifier) as [e|] eqn:He;
    repeat case_bool_decide; cbn [snd];
    rewrite ?lookup_insert_eq, ?He; cbn; lia.
Qed.

Lemma run_preserves_bound identifier config (times : list Z) :
  1 <= maxRequests config ->
  forall store : gmap string RateLimitEntry,
    count_bounded config identifier store ->
    count_bounded config identifier (snd (run_checks identifier config times store)).
Proof.
  intros Hmax. induction times as [|t ts IH]; intros store Hb; cbn [run_checks].
  - exact Hb.
  - pose proof (check_preserves_bound identifier config t store Hmax Hb) as H1.
    destruct (checkRateLimit identifier config t store) as [r st1].
    specialize (IH st1 H1).
    destruct (run_checks identifier config ts st1) as [rs st2]. exact IH.
Qed.

(** C5 (rate window).  With the flag-submission policy (5 requests per
    60000 ms), a run of calls for one identifier that opens a window at [t1]
    and stays within it has exactly its first five calls allowed and every
    later one (the sixth in particular) rejected; a call made once more than
    60000 ms have passed since [t1] is allowed again, reports
    [remaining = 5 - 1] and leaves a fresh entry with count 1. *)
Theorem rate_window_flag_submission
    (identifier : string) (store : gmap string RateLimitEntry)
    (t1 : Z) (ts : list Z) (t' : Z) :
  let config := RATE_LIMIT_CONFIGS flagSubmission in
  no_live_window identifier config t1 store ->
  Forall (fun t => t - t1 <= 60000) ts ->
  t' - t1 > 60000 ->
  let run := run_checks identifier config (t1 :: ts) store in
  let next := checkRateLimit identifier config t' (snd run) in
  maxRequests config = 5 /\ windowMs config = 60000
  /\ map allowed (fst run)
     = (repeat true (Nat.min (S (length ts)) 5) ++ repeat false (S (length ts) - 5))%list
  /\ allowed (fst next) = true
  /\ remaining (fst next) = 5 - 1
  /\ snd next !! rate_key identifier = Some (mkEntry 1 t' t').
Proof.
  intros config Hfresh Hts Hlate run next.
  split; [reflexivity|]. split; [reflexivity|].
  destruct (run_fresh_window identifier config t1 ts store) as [Hflags (e' & He' & Hf' & _)];
    [ cbn; lia | exact Hfresh | exact Hts | ].
  split; [exact Hflags|].
  subst next. fold run in He'.
  rewrite (check_expired identifier config t' (snd run) e' He') by (rewrite Hf'; cbn; lia).
  cbn [fst snd allowed remaining]. repeat split.
  apply lookup_insert_eq.
Qed.

Lemma rate_window_flag_submission_witness :
  no_live_window "u" (RATE_LIMIT_CONFIGS flagSubmission) 0 ∅
  /\ Forall (fun t => t - 0 <= 60000) [1000; 2000; 3000; 4000; 60000]
  /\ 60001 - 0 > 60000
  /\ map allowed (fst (run_checks "u" (RATE_LIMIT_CONFIGS flagSubmission)
                         [0; 1000; 2000; 3000; 4000; 60000] ∅))
     = [true; true; true; true; true; false]
  /\ remaining (fst (checkRateLimit "u" (RATE_LIMIT_CONFIGS flagSubmission) 60001
                       (snd (run_checks "u" (RATE_LIMIT_CONFIGS flagSubmission)
                               [0; 1000; 2000; 3000; 4000; 60000] ∅)))) = 4.
Proof.
  assert (H1 : no_live_window "u" (RATE_LIMIT_CONFIGS flagSubmission) 0 ∅) by exact I.
  assert (H2 : Forall (fun t => t - 0 <= 60000) [1000; 2000; 3000; 4000; 60000]).
  { repeat constructor; discriminate. }
  assert (H3 : 60001 - 0 > 60000) by reflexivity.
  pose proof (rate_window_flag_submission "u" ∅ 0 [1000; 2000; 3000; 4000; 60000] 60001
                H1 H2 H3) as (_ & _ & Hflags & _ & Hrem & _).
  split; [exact H1|]. split; [exact H2|]. split; [exact H3|].
  split; [exact Hflags | exact Hrem].
Defined.

(** C8, as the code has it.  Whenever the check rejects, the window is live
    with its counter at the maximum, and [retryAfter] is the time left in the
    window in whole seconds, rounded up:
    [Math.ceil((firstRequest + windowMs - now) / 1000)]; the result also
    reports [remaining = 0] and [resetTime = firstRequest + windowMs]. *)
Theorem retry_after_is_ceiling_of_seconds
    (identifier : string) (config : RateLimitConfig) (now : Z)
    (store store' : gmap string RateLimitEntry) (r : RateLimitResult) :
  checkRateLimit identifier config now store = (r, store') ->
  allowed r = false ->
  exists e q,
    store !! rate_key identifier = Some e
    /\ now - firstRequest e <= windowMs config
    /\ count e >= maxRequests config
    /\ retryAfter r = Some q
    /\ q = ceil_div (firstRequest e + windowMs config - now) 1000
    /\ 1000 * (q - 1) < firstRequest e + windowMs config - now <= 1000 * q
    /\ remaining r = 0
    /\ resetTime r = firstRequest e + windowMs config.
Proof.
  intros Hcall Hrej.
  destruct (rejected_inv identifier config now store r store' Hcall Hrej)
    as (e & He & Hlive & Hfull).
  rewrite (check_live_rejected identifier config now store e He Hlive Hfull) in Hcall.
  injection Hcall as <- <-.
  exists e, (ceil_div (firstRequest e + windowMs config - now) 1000).
  repeat split; try assumption; apply ceil_div_spec; lia.
Qed.

Lemma retry_after_is_ceiling_of_seconds_witness :
  exists e q,
    ({[ rate_key "u" := mkEntry 5 0 4000 ]} : gmap string RateLimitEntry) !! rate_key "u"
      = Some e
    /\ 10500 - firstRequest e <= windowMs (RATE_LIMIT_CONFIGS flagSubmission)
    /\ count e >= maxRequests (RATE_LIMIT_CONFIGS flagSubmission)
    /\ retryAfter (fst (checkRateLimit "u" (RATE_LIMIT_CONFIGS flagSubmission) 10500
                          {[ rate_key "u" := mkEntry 5 0 4000 ]})) = Some q
    /\ q = ceil_div (firstRequest e + windowMs (RATE_LIMIT_CONFIGS flagSubmission) - 10500) 1000
    /\ 1000 * (q - 1)
       < firstRequest e + windowMs (RATE_LIMIT_CONFIGS flagSubmission) - 10500 <= 1000 * q
    /\ remaining (fst (checkRateLimit "u" (RATE_LIMIT_CONFIGS flagSubmission) 10500
                         {[ rate_key "u" := mkEntry 5 0 4000 ]})) = 0
    /\ resetTime (fst (checkRateLimit "u" (RATE_LIMIT_CONFIGS flagSubmission) 10500
                         {[ rate_key "u" := mkEntry 5 0 4000 ]}))
       = firstRequest e + windowMs (RATE_LIMIT_CONFIGS flagSubmission).
Proof.
  exact (retry_after_is_ceiling_of_seconds "u" (RATE_LIMIT_CONFIGS flagSubmission) 10500
           {[ rate_key "u" := mkEntry 5 0 4000 ]} _ _ eq_refl eq_refl).
Defined.

(** C8 as stated fails: 10 s into a full one-minute window that started at
    time 0, the check rejects with [retryAfter = 50] (seconds), while
    [windowStart + windowMs - now] is 50000. *)
Lemma retry_after_counterexample :
  let store : gmap string RateLimitEntry := {[ rate_key "u" := mkEntry 5 0 4000 ]} in
  let r := fst (checkRateLimit "u" (RATE_LIMIT_CONFIGS flagSubmission) 10000 store) in
  allowed r = false
  /\ retryAfter r = Some 50
  /\ 0 + windowMs (RATE_LIMIT_CONFIGS flagSubmission) - 10000 = 50000.
Proof. vm_compute. repeat split. Qed.

(** C10, as the code has it.  A rejected check returns the store it was
    given, entry included, so it neither extends nor resets the window; with
    a maximum of at least 1, as in each of the configured policies, no call
    and no run of calls raises a stored counter above the maximum; and every
    call made in a live window, allowed or not, keeps the window's
    first-request stamp and reports the reset time
    [firstRequest + windowMs]. *)
Theorem rejected_check_leaves_limiter_unchanged
    (identifier : string) (config : RateLimitConfig) (now : Z)
    (store store' : gmap string RateLimitEntry) (r : RateLimitResult) :
  checkRateLimit identifier config now store = (r, store') ->
  (allowed r = false ->
     store' = store
     /\ exists e, store' !! rate_key identifier = Some e
                  /\ count e >= maxRequests config
                  /\ now - firstRequest e <= windowMs config)
  /\ (1 <= maxRequests config ->
      count_bounded config identifier store ->
      count_bounded config identifier store'
      /\ forall times,
           count_bounded config identifier
             (snd (run_checks identifier config times store')))
  /\ (forall e, store !! rate_key identifier = Some e ->
                now - firstRequest e <= windowMs config ->
                resetTime r = firstRequest e + windowMs config
                /\ exists e', store' !! rate_key identifier = Some e'
                              /\ firstRequest e' = firstRequest e).
Proof.
  intros Hcall. split; [|split].
  - intros Hrej.
    destruct (rejected_inv identifier config now store r store' Hcall Hrej)
      as (e & He & Hlive & Hfull).
    rewrite (check_live_rejected identifier config now store e He Hlive Hfull) in Hcall.
    injection Hcall as <- <-. split; [reflexivity|]. exists e. auto.
  - intros Hmax Hb.
    pose proof (check_preserves_bound identifier config now store Hmax Hb) as H1.
    rewrite Hcall in H1. cbn [snd] in H1. split; [exact H1|].
    intros times. now apply run_preserves_bound.
  - intros e He Hlive.
    destruct (Z_lt_ge_dec (count e) (maxRequests config)) as [Hroom|Hfull].
    + rewrite (check_live_allowed identifier config now store e He Hlive Hroom) in Hcall.
      injection Hcall as <- <-. cbn. split; [reflexivity|].
      eexists. split; [apply lookup_insert_eq | reflexivity].
    + rewrite (check_live_rejected identifier config now store e He Hlive Hfull) in Hcall.
      injection Hcall as <- <-. cbn. split; [reflexivity|]. exists e. auto.
Qed.

Lemma rejected_check_leaves_limiter_unchanged_witness :
  checkRateLimit "u" (RATE_LIMIT_CONFIGS flagSubmission) 10000
    {[ rate_key "u" := mkEntry 5 0 4000 ]}
  = (mkResult false 0 60000 (Some 50), {[ rate_key "u" := mkEntry 5 0 4000 ]})
  /\ (({[ rate_key "u" := mkEntry 5 0 4000 ]} : gmap string RateLimitEntry)
      = {[ rate_key "u" := mkEntry 5 0 4000 ]}
      /\ exists e, ({[ rate_key "u" := mkEntry 5 0 4000 ]} : gmap string RateLimitEntry)
                     !! rate_key "u" = Some e
                   /\ count e >= maxRequests (RATE_LIMIT_CONFIGS flagSubmission)
                   /\ 10000 - firstRequest e <= windowMs (RATE_LIMIT_CONFIGS flagSubmission)).
Proof.
  split; [reflexivity|].
  exact (proj1 (rejected_check_leaves_limiter_unchanged "u"
                  (RATE_LIMIT_CONFIGS flagSubmission) 10000
                  {[ rate_key "u" := mkEntry 5 0 4000 ]} _ _ eq_refl) eq_refl).
Defined.

(** C10 as stated fails for a policy whose maximum is 0: the branch that
    opens a window does not look at the maximum, so the first check of an
    identifier is allowed and stores the count 1, above the maximum; the
    check after it is rejected and leaves that count in place. *)
Lemma zero_maximum_counterexample :
  maxRequests (mkConfig 60000 0) = 0
  /\ allowed (fst (checkRateLimit "u" (mkConfig 60000 0) 1000 ∅)) = true
  /\ snd (checkRateLimit "u" (mkConfig 60000 0) 1000 ∅) !! rate_key "u"
     = Some (mkEntry 1 1000 1000)
  /\ ~ count_bounded (mkConfig 60000 0) "u"
         (snd (checkRateLimit "u" (mkConfig 60000 0) 1000 ∅))
  /\ checkRateLimit "u" (mkConfig 60000 0) 2000
       (snd (checkRateLimit "u" (mkConfig 60000 0) 1000 ∅))
     = (mkResult false 0 61000 (Some 59),
        snd (checkRateLimit "u" (mkConfig 60000 0) 1000 ∅)).
Proof.
  split; [reflexivity|]. split; [reflexivity|]. split; [reflexivity|].
  split; [|reflexivity].
  unfold count_bounded.
  change (snd (checkRateLimit "u" (mkConfig 60000 0) 1000 ∅) !! rate_key "u")
    with (Some (mkEntry 1 1000 1000)).
  cbn. lia.
Qed.

(** ** The scoring transaction *)

Section Ledger.

Variables (usr : DecodedIdToken) (challengeId : string) (pts : Z).

Lemma transaction_already_solved (w : World) :
  challengeId ∈ solvedChallenges (ledger_record usr w) ->
  runTransaction usr challengeId pts w = Returned w.
Proof.
  unfold runTransaction, transaction_body, ledger_record.
  destruct (users w !! tok_uid usr) as [u|] eqn:Hu; cbn [default].
  - intros Hin. now rewrite bool_decide_eq_true_2.
  - cbn. intros Hin. now apply elem_of_nil in Hin.
Qed.

(** The id is not in the solved list and [doc] finds the document [k] for
    it: the award is committed on [k]. *)
Lemma transaction_award (w : World) k ch :
  challengeId ∉ solvedChallenges (ledger_record usr w) ->
  doc challengeId = Returned [k] ->
  challenges w !! k = Some ch ->
  runTransaction usr challengeId pts w =
    Returned (set_challenges (<[k := solved_once_more ch]> (challenges w))
                (set_users (<[tok_uid usr := awarded (ledger_record usr w) pts challengeId]>
                              (users w)) w)).
Proof.
  unfold runTransaction, transaction_body, ledger_record.
  destruct (users w !! tok_uid usr) as [u|] eqn:Hu; cbn [default];
    intros Hnotin Hdoc Hch; rewrite Hdoc.
  - rewrite bool_decide_eq_false_2 by assumption.
    cbn [app commit apply_write]. rewrite Hu.
    cbn [set_users challenges get_doc ref_id last]. rewrite Hch.
    unfold arrayUnion. rewrite bool_decide_eq_false_2 by assumption. reflexivity.
  - rewrite bool_decide_eq_false_2 by assumption.
    cbn [app commit apply_write set_users users challenges].
    rewrite lookup_insert_eq. cbn [set_users users challenges get_doc ref_id last].
    rewrite Hch, insert_insert_eq. reflexivity.
Qed.

(** The reference finds no document: the commit fails, nothing is written. *)
Lemma transaction_missing_challenge (w : World) ref :
  challengeId ∉ solvedChallenges (ledger_record usr w) ->
  doc challengeId = Returned ref ->
  get_doc (challenges w) ref = None ->
  runTransaction usr challengeId pts w = Threw "No document to update".
Proof.
  unfold runTransaction, transaction_body, ledger_record.
  destruct (users w !! tok_uid usr) as [u|] eqn:Hu; cbn [default];
    intros Hnotin Hdoc Hch; rewrite Hdoc.
  - rewrite bool_decide_eq_false_2 by assumption.
    cbn [app commit apply_write]. rewrite Hu.
    cbn [set_users challenges]. now rewrite Hch.
  - rewrite bool_decide_eq_false_2 by assumption.
    cbn [app commit apply_write set_users users challenges].
    rewrite lookup_insert_eq. cbn [set_users users challenges].
    now rewrite Hch.
Qed.

(** The id is no document path: the callback is rejected. *)
Lemma transaction_no_reference (w : World) m :
  challengeId ∉ solvedChallenges (ledger_record usr w) ->
  doc challengeId = Threw m ->
  runTransaction usr challengeId pts w = Threw m.
Proof.
  unfold runTransaction, transaction_body, ledger_record.
  destruct (users w !! tok_uid usr) as [u|] eqn:Hu; cbn [default];
    intros Hnotin Hdoc; rewrite Hdoc;
    now rewrite bool_decide_eq_false_2 by assumption.
Qed.

(** A committed run is one of the two above. *)
Lemma transaction_committed (w w' : World) :
  runTransaction usr challengeId pts w = Returned w' ->
  (challengeId ∈ solvedChallenges (ledger_record usr w) /\ w' = w)
  \/ ((challengeId ∉ solvedChallenges (ledger_record usr w))
      /\ exists k ch,
           doc challengeId = Returned [k]
           /\ challenges w !! k = Some ch
           /\ w' = set_challenges (<[k := solved_once_more ch]> (challenges w))
                     (set_users (<[tok_uid usr := awarded (ledger_record usr w) pts
                                                    challengeId]> (users w)) w)).
Proof.
  intros Hrun.
  destruct (decide (challengeId ∈ solvedChallenges (ledger_record usr w))) as [Hin|Hnotin].
  - left. rewrite transaction_already_solved in Hrun by assumption.
    split; [exact Hin | now injection Hrun].
  - right. split; [exact Hnotin|].
    destruct (doc challengeId) as [ref|m] eqn:Hdoc.
    2: { now rewrite (transaction_no_reference w m Hnotin Hdoc) in Hrun. }
    destruct (get_doc (challenges w) ref) as [ch|] eqn:Hch.
    2: { now rewrite (transaction_missing_challenge w ref Hnotin Hdoc Hch) in Hrun. }
    destruct ref as [|k [|k' ref]]; try discriminate Hch. cbn [get_doc] in Hch.
    exists k, ch. split; [reflexivity|]. split; [exact Hch|].
    rewrite (transaction_award w k ch Hnotin Hdoc Hch) in Hrun. now injection Hrun.
Qed.


(** After a committed run the id is in the solved list. *)
Lemma transaction_marks_solved (w w' : World) :
  runTransaction usr challengeId pts w = Returned w' ->
  challengeId ∈ solvedChallenges (ledger_record usr w').
Proof.
  intros Hrun.
  destruct (transaction_committed w w' Hrun)
    as [[Hin ->] | (_ & k & ch & _ & _ & ->)]; [exact Hin|].
  unfold ledger_record at 1. cbn [set_challenges set_users users].
  rewrite lookup_insert_eq. cbn. apply elem_of_app. right. now apply list_elem_of_singleton.
Qed.

Lemma transactions_collapse (n : nat) (w : World) :
  run_transactions (S n) usr challengeId pts w = runTransaction usr challengeId pts w.
Proof.
  cbn [run_transactions].
  destruct (runTransaction usr challengeId pts w) as [w'|m] eqn:Hrun; [|reflexivity].
  pose proof (transaction_marks_solved w w' Hrun) as Hin.
  clear Hrun. induction n as [|n IH]; [reflexivity|].
  cbn [run_transactions]. now rewrite transaction_already_solved.
Qed.

End Ledger.

(** What a commit leaves alone. *)
Lemma commit_frame ws (w0 w' : World) :
  commit ws w0 = Some w' ->
  effects w' = effects w0 /\ submissions w' = submissions w0
  /\ rateLimitStore w' = rateLimitStore w0 /\ securityLog w' = securityLog w0.
Proof.
  revert w0. induction ws as [|wr ws IH]; intros w0; cbn [commit].
  - intros [= ->]. auto.
  - destruct (apply_write wr w0) as [w1|] eqn:Hwr; [|discriminate].
    intros Hc. destruct (IH _ Hc) as (-> & -> & -> & ->).
    destruct wr; cbn [apply_write] in Hwr; repeat case_match; simplify_eq; auto.
Qed.

Lemma transaction_frame usr c pts (w0 w' : World) :
  runTransaction usr c pts w0 = Returned w' ->
  effects w' = effects w0 /\ submissions w' = submissions w0
  /\ rateLimitStore w' = rateLimitStore w0 /\ securityLog w' = securityLog w0.
Proof.
  unfold runTransaction.
  destruct (transaction_body usr c pts w0) as [ws|m]; [|discriminate].
  destruct (commit ws w0) as [w1|] eqn:Hc; [|discriminate].
  intros [= <-]. now apply commit_frame with ws.
Qed.


(** Scenario A on the sample data: 250 points on top of a score of 500,
    once, however often the transaction runs. *)
Example ledger_scenario_A :
  (returned (runTransaction alice_token "c1" 250 sample_world)
     ≫= fun w' => score <$> users w' !! "alice") = Some 750
  /\ (returned (runTransaction alice_token "c1" 250 sample_world)
       ≫= fun w' => solvedChallenges <$> users w' !! "alice") = Some ["c0"; "c1"]
  /\ (returned (runTransaction alice_token "c1" 250 sample_world)
       ≫= fun w' => solveCount <$> challenges w' !! "c1") = Some 1
  /\ (returned (run_transactions 3 alice_token "c1" 250 sample_world)
       ≫= fun w' => score <$> users w' !! "alice") = Some 750
  /\ (returned (run_transactions 3 alice_token "c1" 250 sample_world)
       ≫= fun w' => solveCount <$> challenges w' !! "c1") = Some 1.
Proof. vm_compute. repeat split. Qed.

(** C1 at the failing input.  The stored record of alice holds the
    challenge [c0] (500 points) and the score 500.  Run with the id as it
    is stored, the transaction writes nothing.  Run with [c0/], which [doc]
    reads as the same document but which is not in the solved list as a
    text, it commits a second award for that challenge: the score becomes
    1000, the list holds both texts and the solve counter of [c0] is
    raised; the handler answers that submission [correct: true] with 500
    points. *)
Theorem alias_id_is_awarded_again :
  users sample_world !! "alice" = Some alice
  /\ solvedChallenges alice = ["c0"]
  /\ score alice = 500
  /\ doc "c0" = Returned ["c0"]
  /\ doc "c0/" = Returned ["c0"]
  /\ (returned (runTransaction alice_token "c0" 500 sample_world)
      ≫= fun w' => users w' !! "alice") = Some alice
  /\ (returned (runTransaction alice_token "c0/" 500 sample_world)
      ≫= fun w' => users w' !! "alice")
     = Some (mkUser "alice" "alice@example.org" true 1000 ["c0"; "c0/"] false false)
  /\ (solveCount <$> challenges sample_world !! "c0") = Some 0
  /\ (returned (runTransaction alice_token "c0/" 500 sample_world)
      ≫= fun w' => solveCount <$> challenges w' !! "c0") = Some 1
  /\ fst (POST (sample_env 1000) (submit_request "tok-alice" "c0/" "ctf{warm_up}")
            sample_world)
     = Responded (successResponse
                    (DSubmit (mkSubmitData true FLAG_CORRECT (Some 500) (Some 1000))) None).
Proof. vm_compute. repeat split. Qed.

(** ** The score invariant *)

Lemma sum_points_app cs (l : list string) c :
  sum_points cs (l ++ [c]) = sum_points cs l + points_of cs c.
Proof. induction l as [|x l IH]; cbn [app sum_points]; lia. Qed.

Lemma points_of_solved_once_more (cs : gmap string Challenge) cid ch c :
  cs !! cid = Some ch ->
  points_of (<[cid := solved_once_more ch]> cs) c = points_of cs c.
Proof.
  intros Hch. unfold points_of.
  destruct (decide (cid = c)) as [->|Hne].
  - now rewrite lookup_insert_eq, Hch.
  - now rewrite lookup_insert_ne.
Qed.

Lemma sum_points_solved_once_more (cs : gmap string Challenge) cid ch (l : list string) :
  cs !! cid = Some ch ->
  sum_points (<[cid := solved_once_more ch]> cs) l = sum_points cs l.
Proof.
  intros Hch. induction l as [|x l IH]; cbn [sum_points]; [reflexivity|].
  now rewrite IH, (points_of_solved_once_more cs cid ch x Hch).
Qed.

Lemma remove_dups_snoc_new (l : list string) k :
  k ∉ l -> remove_dups (l ++ [k]) = (remove_dups l ++ [k])%list.
Proof.
  induction l as [|x l IH]; intros Hk; [reflexivity|].
  apply not_elem_of_cons in Hk as [Hne Hk].
  cbn [app remove_dups].
  destruct (decide_rel elem_of x (l ++ [k])%list) as [Hin|Hout];
    destruct (decide_rel elem_of x l) as [Hin'|Hout']; cbn [app]; rewrite ?IH by exact Hk;
    try reflexivity.
  - apply elem_of_app in Hin as [Hin|Hin]; [contradiction|].
    apply list_elem_of_singleton in Hin. congruence.
  - exfalso. apply Hout. apply elem_of_app. now left.
Qed.

(** The solved set after an award for an id that stands for the challenge
    [k], when [k] was not in the set. *)
Lemma solved_set_awarded (u : User) pts c k :
  doc c = Returned [k] ->
  k ∉ solved_set u ->
  solved_set (awarded u pts c) = (solved_set u ++ [k])%list.
Proof.
  intros Hdoc Hk. unfold solved_set in *. cbn [awarded solvedChallenges].
  assert (Hc : challenge_of c = Some k) by (unfold challenge_of; now rewrite Hdoc).
  assert (Hone : omap challenge_of [c] = [k]) by (cbn; now rewrite Hc).
  rewrite omap_app, Hone.
  apply remove_dups_snoc_new. intros Hin. apply Hk. now apply elem_of_remove_dups.
Qed.

(** The invariant only reads the two collections. *)
Lemma score_invariant_ext (w1 w2 : World) :
  users w2 = users w1 -> challenges w2 = challenges w1 ->
  score_invariant w1 -> score_invariant w2.
Proof. unfold score_invariant. intros -> ->. auto. Qed.

Lemma first_touch_preserves_invariant (usr : DecodedIdToken) (w : World) :
  score_invariant w ->
  score_invariant (set_users (<[tok_uid usr := new_user usr]> (users w)) w).
Proof.
  intros Hinv i u. cbn [set_users users challenges].
  destruct (decide (tok_uid usr = i)) as [->|Hne].
  - rewrite lookup_insert_eq. intros [= <-]. reflexivity.
  - rewrite lookup_insert_ne by assumption. apply Hinv.
Qed.

(** What the transaction keeps: an award for an id whose challenge is not
    yet in the solved set of the record (given the stored point value)
    leaves the invariant in place. *)
Lemma award_of_new_challenge_preserves_invariant
    (usr : DecodedIdToken) (challengeId k : string) (w w' : World) :
  score_invariant w ->
  doc challengeId = Returned [k] ->
  k ∉ solved_set (ledger_record usr w) ->
  runTransaction usr challengeId (points_of (challenges w) k) w = Returned w' ->
  score_invariant w'.
Proof.
  intros Hinv Hdoc Hk Hrun.
  destruct (transaction_committed _ _ _ _ _ Hrun)
    as [[_ ->] | (_ & k' & ch & Hdoc' & Hch & ->)]; [exact Hinv|].
  rewrite Hdoc in Hdoc'. injection Hdoc' as <-.
  intros i u. cbn [set_challenges set_users users challenges].
  rewrite (sum_points_solved_once_more _ _ _ _ Hch).
  destruct (decide (tok_uid usr = i)) as [<-|Hne].
  - rewrite lookup_insert_eq. intros [= <-].
    rewrite (solved_set_awarded _ _ _ _ Hdoc Hk), sum_points_app.
    cbn [awarded score]. f_equal.
    unfold ledger_record.
    destruct (users w !! tok_uid usr) as [u0|] eqn:Hu; cbn [default].
    + exact (Hinv _ _ Hu).
    + reflexivity.
  - rewrite lookup_insert_ne by assumption. apply Hinv.
Qed.

Lemma sample_world_invariant : score_invariant sample_world.
Proof.
  intros i u. cbn [sample_world users].
  change (list_to_map [("alice", alice)] : gmap string User)
    with (<["alice" := alice]> (∅ : gmap string User)).
  destruct (decide (i = "alice")) as [-> | Hne].
  - rewrite lookup_insert_eq. intros [= <-]. vm_compute. reflexivity.
  - rewrite lookup_insert_ne by congruence. now rewrite lookup_empty.
Qed.

(** C6 at the failing input.  The sample data satisfies the invariant:
    alice has solved [c0] (500 points) and has the score 500.  After her
    submission of the flag of [c0] under the id [c0/] the stored score is
    1000 and the solved list holds [c0] and [c0/], which stand for the one
    challenge [c0]: the solved set is still that challenge, its points sum
    to 500, and the invariant is broken. *)
Theorem alias_award_breaks_score_invariant :
  score_invariant sample_world
  /\ users (snd (POST (sample_env 1000) (submit_request "tok-alice" "c0/" "ctf{warm_up}")
                   sample_world)) !! "alice"
     = Some (mkUser "alice" "alice@example.org" true 1000 ["c0"; "c0/"] false false)
  /\ solved_set (mkUser "alice" "alice@example.org" true 1000 ["c0"; "c0/"] false false)
     = ["c0"]
  /\ sum_points
       (challenges (snd (POST (sample_env 1000)
                           (submit_request "tok-alice" "c0/" "ctf{warm_up}") sample_world)))
       ["c0"] = 500
  /\ ~ score_invariant
         (snd (POST (sample_env 1000) (submit_request "tok-alice" "c0/" "ctf{warm_up}")
                 sample_world)).
Proof.
  assert (Hu : users (snd (POST (sample_env 1000)
                             (submit_request "tok-alice" "c0/" "ctf{warm_up}")
                             sample_world)) !! "alice"
               = Some (mkUser "alice" "alice@example.org" true 1000 ["c0"; "c0/"]
                         false false))
    by (vm_compute; reflexivity).
  split; [exact sample_world_invariant|]. split; [exact Hu|].
  split; [vm_compute; reflexivity|]. split; [vm_compute; reflexivity|].
  intros Hinv. specialize (Hinv _ _ Hu). vm_compute in Hinv. discriminate Hinv.
Qed.

(** The helpers that never touch the two scoring collections. *)
Lemma authenticate_stores env request b (w : World) :
  users (snd (authenticateRequest env request b w)) = users w
  /\ challenges (snd (authenticateRequest env request b w)) = challenges w
  /\ rateLimitStore (snd (authenticateRequest env request b w)) = rateLimitStore w
  /\ submissions (snd (authenticateRequest env request b w)) = submissions w.
Proof.
  unfold authenticateRequest, verifyAuthToken.
  repeat case_match; simplify_eq; cbn; auto.
Qed.

Lemma applyRateLimit_stores env request k i (w : World) :
  users (snd (applyRateLimit env request k i w)) = users w
  /\ challenges (snd (applyRateLimit env request k i w)) = challenges w
  /\ submissions (snd (applyRateLimit env request k i w)) = submissions w.
Proof.
  unfold applyRateLimit. repeat case_match; cbn; auto.
Qed.

(** ** Hexadecimal buffers and the digest *)

Lemma hex_val_hex_digit v :
  0 <= v < 16 -> hex_val (hex_digit v) = Some v.
Proof.
  intros Hv.
  assert (v = 0 \/ v = 1 \/ v = 2 \/ v = 3 \/ v = 4 \/ v = 5 \/ v = 6 \/ v = 7 \/ v = 8
          \/ v = 9 \/ v = 10 \/ v = 11 \/ v = 12 \/ v = 13 \/ v = 14 \/ v = 15) as Hcases
    by lia.
  repeat (destruct Hcases as [-> | Hcases]; [reflexivity|]). subst v. reflexivity.
Qed.

Lemma buffer_from_hex_to_hex (bs : list Z) :
  Forall is_byte bs -> buffer_from_hex (to_hex bs) = bs.
Proof.
  induction 1 as [|b bs Hb _ IH]; [reflexivity|].
  unfold is_byte in Hb. cbn [to_hex buffer_from_hex].
  rewrite !hex_val_hex_digit.
  - rewrite IH. f_equal. pose proof (Z.div_mod b 16 ltac:(lia)). lia.
  - apply Z.mod_pos_bound. lia.
  - split; [apply Z.div_pos; lia | apply Z.div_lt_upper_bound; lia].
Qed.

Lemma word_bytes_are_bytes w : Forall is_byte (word_bytes w).
Proof.
  unfold word_bytes, is_byte.
  repeat constructor; apply Z.mod_pos_bound; lia.
Qed.

Lemma sha256_bytes msg : Forall is_byte (sha256 msg).
Proof.
  unfold sha256. repeat (apply Forall_app; split); apply word_bytes_are_bytes.
Qed.

Lemma sha256_length msg : length (sha256 msg) = 32%nat.
Proof. unfold sha256. rewrite !length_app. reflexivity. Qed.

Lemma fold_lor_zero (l : list (Z * Z)) acc :
  fold_left (fun a xy => Z.lor a (Z.lxor (fst xy) (snd xy))) l acc = 0
  <-> acc = 0 /\ Forall (fun xy => fst xy = snd xy) l.
Proof.
  revert acc. induction l as [|[x y] l IH]; intros acc; cbn [fold_left fst snd].
  - split; [intros ->; split; [reflexivity | constructor] | intros [-> _]; reflexivity].
  - rewrite IH, Z.lor_eq_0_iff. split.
    + intros [[Ha Hxy] Hl]. split; [exact Ha|]. constructor; [|exact Hl].
      cbn. now apply Z.lxor_eq.
    + intros [Ha Hl]. inversion Hl as [|? ? Hxy Hl']; subst. cbn in Hxy. subst y.
      repeat split; [apply Z.lxor_nilpotent | exact Hl'].
Qed.

Lemma combine_all_equal (a b : list Z) :
  length a = length b ->
  Forall (fun xy => fst xy = snd xy) (combine a b) <-> a = b.
Proof.
  revert b. induction a as [|x a IH]; intros [|y b]; cbn [length combine]; try discriminate.
  - intros _. split; [reflexivity | constructor].
  - intros [= Hlen]. split.
    + intros H. inversion H as [|? ? Hxy Hrest]; subst. cbn in Hxy. subst y.
      f_equal. now apply IH.
    + intros [= -> ->]. constructor; [reflexivity|]. now apply IH.
Qed.

(** [timingSafeEqual] decides equality of buffers of one length. *)
Lemma timingSafeEqual_spec (a b : list Z) :
  length a = length b ->
  timingSafeEqual a b = Some (bool_decide (a = b)).
Proof.
  intros Hlen. unfold timingSafeEqual.
  rewrite Hlen, Nat.eqb_refl. f_equal.
  destruct (decide (a = b)) as [Heq|Hne].
  - rewrite (bool_decide_eq_true_2 _ Heq). apply Z.eqb_eq.
    apply fold_lor_zero. split; [reflexivity|]. now apply combine_all_equal.
  - rewrite (bool_decide_eq_false_2 _ Hne). apply Z.eqb_neq.
    intros H0. apply fold_lor_zero in H0 as [_ Hall].
    now apply combine_all_equal in Hall.
Qed.

(** ** The flag matcher *)

Lemma hashFlag_configured salt flag :
  truthy salt = true ->
  hashFlag salt flag = Returned (to_hex (flag_digest (default "" salt) flag)).
Proof.
  destruct salt as [[|c s]|]; cbn [truthy]; try discriminate. reflexivity.
Qed.

Lemma validateFlag_digests salt S1 S2 :
  truthy salt = true ->
  validateFlag salt S1 (to_hex (flag_digest (default "" salt) S2))
  = Returned (bool_decide (flag_digest (default "" salt) S1 = flag_digest (default "" salt) S2)).
Proof.
  intros Hsalt. unfold validateFlag. rewrite (hashFlag_configured salt S1 Hsalt).
  unfold flag_digest.
  rewrite !buffer_from_hex_to_hex by apply sha256_bytes.
  rewrite !sha256_length. cbn [Nat.eqb negb].
  rewrite timingSafeEqual_spec by now rewrite !sha256_length.
  reflexivity.
Qed.

(** *** Strings of code units *)

Lemma code_range (c : ascii) : 0 <= code c < 256.
Proof. unfold code. pose proof (N_ascii_bounded c). lia. Qed.

Lemma lower_unit_code (c : ascii) : lower_unit (code c) = Some (code (lower_char c)).
Proof. destruct c as [[] [] [] [] [] [] [] []]; reflexivity. Qed.

Lemma is_js_whitespace_unit_code (c : ascii) :
  is_js_whitespace_unit (code c) = is_js_whitespace c.
Proof. destruct c as [[] [] [] [] [] [] [] []]; reflexivity. Qed.

Lemma not_surrogate_code (c : ascii) :
  is_high_surrogate (code c) = false /\ is_low_surrogate (code c) = false.
Proof.
  pose proof (code_range c). unfold is_high_surrogate, is_low_surrogate.
  split; apply andb_false_iff; left; apply Z.leb_gt; lia.
Qed.

Lemma units_app (s t : string) : units (s ++ t) = (units s ++ units t)%list.
Proof.
  induction s as [|c s IH]; [reflexivity|].
  change (code c :: units (s ++ t) = code c :: (units s ++ units t)%list). now rewrite IH.
Qed.

Lemma trimStart_units_agrees (s : string) :
  trimStart_units (units s) = units (trimStart s).
Proof.
  induction s as [|c s IH]; [reflexivity|].
  cbn [units trimStart_units trimStart]. rewrite is_js_whitespace_unit_code.
  destruct (is_js_whitespace c); [exact IH | reflexivity].
Qed.

Lemma trimEnd_units_agrees (s : string) :
  trimEnd_units (units s) = units (trimEnd s).
Proof.
  induction s as [|c s IH]; [reflexivity|].
  cbn [units trimEnd_units trimEnd]. rewrite IH, is_js_whitespace_unit_code.
  destruct (trimEnd s) as [|c' s']; cbn [units].
  - destruct (is_js_whitespace c); reflexivity.
  - reflexivity.
Qed.

Lemma trim_units_agrees (s : string) : trim_units (units s) = units (trim s).
Proof. unfold trim_units, trim. now rewrite trimStart_units_agrees, trimEnd_units_agrees. Qed.

Lemma toLowerCase_units_agrees (s : string) :
  toLowerCase_units (units s) = Some (units (toLowerCase s)).
Proof.
  induction s as [|c s IH]; [reflexivity|].
  cbn [units toLowerCase_units toLowerCase]. rewrite IH, lower_unit_code.
  destruct (not_surrogate_code c) as [-> _].
  destruct (units s); reflexivity.
Qed.

Lemma utf8_of_units_latin (s : string) (us : list Z) :
  utf8_of_units (units s ++ us) = (utf8 s ++ utf8_of_units us)%list.
Proof.
  induction s as [|c s IH]; [reflexivity|].
  cbn [units app utf8_of_units utf8].
  destruct (not_surrogate_code c) as [-> ->]. rewrite IH.
  pose proof (code_range c) as Hc. unfold utf8_of_code_point.
  destruct (Z.ltb_spec (code c) 128) as [Hlt|Hge].
  - replace (code c <? 0x80) with true by (symmetry; apply Z.ltb_lt; lia). reflexivity.
  - replace (code c <? 0x80) with false by (symmetry; apply Z.ltb_ge; lia).
    replace (code c <? 0x800) with true by (symmetry; apply Z.ltb_lt; lia). reflexivity.
Qed.

Lemma utf8_of_units_agrees (s : string) : utf8_of_units (units s) = utf8 s.
Proof.
  rewrite <- (app_nil_r (units s)), utf8_of_units_latin. cbn [utf8_of_units].
  apply app_nil_r.
Qed.

(** On strings of U+0000..U+00FF the functions on code units are the
    functions on [string]. *)
Lemma hashFlag_units_agrees (salt : option string) (flag : string) :
  hashFlag_units salt (units flag) = Some (hashFlag salt flag).
Proof.
  unfold hashFlag_units, hashFlag. destruct salt as [[|c s]|]; try reflexivity.
  rewrite trim_units_agrees, toLowerCase_units_agrees.
  unfold sha256_hex. rewrite <- units_app, utf8_of_units_agrees. reflexivity.
Qed.

Lemma validateFlag_units_agrees (salt : option string) (flag storedHash : string) :
  validateFlag_units salt (units flag) storedHash = Some (validateFlag salt flag storedHash).
Proof.
  unfold validateFlag_units, validateFlag. rewrite hashFlag_units_agrees.
  destruct (hashFlag salt flag) as [h|m]; [|reflexivity].
  cbv zeta. destruct (negb _); [reflexivity|].
  destruct (timingSafeEqual _ _); reflexivity.
Qed.

Lemma hashFlag_units_configured salt flag normalizedFlag :
  truthy salt = true ->
  toLowerCase_units (trim_units flag) = Some normalizedFlag ->
  hashFlag_units salt flag
  = Some (Returned (to_hex (unit_digest (default "" salt) normalizedFlag))).
Proof.
  intros Hsalt Hn. unfold hashFlag_units. rewrite Hn.
  destruct salt as [[|c s]|]; cbn [truthy] in Hsalt; try discriminate. reflexivity.
Qed.

Lemma validateFlag_units_digests salt S1 n1 n2 :
  truthy salt = true ->
  toLowerCase_units (trim_units S1) = Some n1 ->
  validateFlag_units salt S1 (to_hex (unit_digest (default "" salt) n2))
  = Some (Returned (bool_decide (unit_digest (default "" salt) n1
                                 = unit_digest (default "" salt) n2))).
Proof.
  intros Hsalt Hn. unfold validateFlag_units.
  rewrite (hashFlag_units_configured salt S1 n1 Hsalt Hn).
  unfold unit_digest.
  rewrite !buffer_from_hex_to_hex by apply sha256_bytes.
  rewrite !sha256_length. cbn [Nat.eqb negb].
  rewrite timingSafeEqual_spec by now rewrite !sha256_length.
  reflexivity.
Qed.

(** C3, as the code has it.  Flags are strings of UTF-16 code units whose
    normal form (trimmed, lower case) is [n1], [n2].  With the salt
    configured, [hashFlag] returns a fingerprint; a secret matches its own
    fingerprint; and validating [S1] against the fingerprint of [S2] returns
    true exactly when the SHA-256 digests of the UTF-8 encodings of
    salt + [n1] and salt + [n2] are the same 32 bytes.  Hence secrets whose
    normal forms have the same UTF-8 encoding match (equal normal forms among
    them), and a secret is rejected whenever its digest differs from the
    stored one. *)
Theorem fingerprint_match_iff_digests_equal
    (salt : option string) (S1 S2 n1 n2 : list Z) :
  truthy salt = true ->
  toLowerCase_units (trim_units S1) = Some n1 ->
  toLowerCase_units (trim_units S2) = Some n2 ->
  exists h2,
    hashFlag_units salt S2 = Some (Returned h2)
    /\ validateFlag_units salt S2 h2 = Some (Returned true)
    /\ validateFlag_units salt S1 h2
       = Some (Returned (bool_decide (unit_digest (default "" salt) n1
                                      = unit_digest (default "" salt) n2)))
    /\ (utf8_of_units n1 = utf8_of_units n2 ->
        validateFlag_units salt S1 h2 = Some (Returned true))
    /\ (unit_digest (default "" salt) n1 <> unit_digest (default "" salt) n2 ->
        validateFlag_units salt S1 h2 = Some (Returned false)).
Proof.
  intros Hsalt Hn1 Hn2. exists (to_hex (unit_digest (default "" salt) n2)).
  split; [now apply hashFlag_units_configured|].
  rewrite (validateFlag_units_digests salt S2 n2 n2 Hsalt Hn2).
  rewrite (validateFlag_units_digests salt S1 n1 n2 Hsalt Hn1).
  split; [now rewrite bool_decide_eq_true_2|].
  split; [reflexivity|]. split.
  - intros Henc. rewrite bool_decide_eq_true_2; [reflexivity|].
    unfold unit_digest. now rewrite !utf8_of_units_latin, Henc.
  - intros Hne. now rewrite bool_decide_eq_false_2.
Qed.

Lemma fingerprint_match_iff_digests_equal_witness :
  let S1 := units "  CTF{Warm_Up} " in
  let S2 := units "ctf{warm_up}" in
  let n := units "ctf{warm_up}" in
  truthy sample_salt = true
  /\ toLowerCase_units (trim_units S1) = Some n
  /\ toLowerCase_units (trim_units S2) = Some n
  /\ exists h2,
       hashFlag_units sample_salt S2 = Some (Returned h2)
       /\ validateFlag_units sample_salt S2 h2 = Some (Returned true)
       /\ validateFlag_units sample_salt S1 h2
          = Some (Returned (bool_decide (unit_digest (default "" sample_salt) n
                                         = unit_digest (default "" sample_salt) n)))
       /\ (utf8_of_units n = utf8_of_units n ->
           validateFlag_units sample_salt S1 h2 = Some (Returned true))
       /\ (unit_digest (default "" sample_salt) n <> unit_digest (default "" sample_salt) n ->
           validateFlag_units sample_salt S1 h2 = Some (Returned false)).
Proof.
  cbv zeta. split; [reflexivity|]. split; [reflexivity|]. split; [reflexivity|].
  exact (fingerprint_match_iff_digests_equal sample_salt
           (units "  CTF{Warm_Up} ") (units "ctf{warm_up}")
           (units "ctf{warm_up}") (units "ctf{warm_up}") eq_refl eq_refl eq_refl).
Defined.

(** The second half of C3 as stated fails.  The string made of the unpaired
    surrogate U+D800 and the string made of the replacement character
    U+FFFD are their own normal forms and differ, but both are encoded as
    the bytes EF BF BD, so they have one fingerprint and the one is accepted
    against the fingerprint of the other. *)
Lemma lone_surrogate_counterexample :
  let S1 := [0xD800] in
  let S2 := [0xFFFD] in
  toLowerCase_units (trim_units S1) = Some S1
  /\ toLowerCase_units (trim_units S2) = Some S2
  /\ S1 <> S2
  /\ utf8_of_units S1 = [0xEF; 0xBF; 0xBD]
  /\ utf8_of_units S2 = [0xEF; 0xBF; 0xBD]
  /\ hashFlag_units sample_salt S2
     = Some (Returned "64ad4da06d5e56314c75607df4ccc26016d488fd20b3aca0bb611816542415b2")
  /\ hashFlag_units sample_salt S1 = hashFlag_units sample_salt S2
  /\ (forall h2, hashFlag_units sample_salt S2 = Some (Returned h2) ->
                 validateFlag_units sample_salt S1 h2 = Some (Returned true)).
Proof.
  cbv zeta. split; [reflexivity|]. split; [reflexivity|].
  split; [discriminate|]. split; [reflexivity|]. split; [reflexivity|].
  split; [vm_compute; reflexivity|]. split; [reflexivity|].
  intros h2 Hh. vm_compute in Hh. injection Hh as <-. vm_compute. reflexivity.
Qed.

(** The fingerprints of strings of U+0000..U+00FF, as the handlers use
    them: the match is the equality of the digests. *)
Lemma latin_fingerprint_match (salt : option string) (S1 S2 : string) :
  truthy salt = true ->
  exists h2,
    hashFlag salt S2 = Returned h2
    /\ validateFlag salt S2 h2 = Returned true
    /\ validateFlag salt S1 h2
       = Returned (bool_decide (flag_digest (default "" salt) S1
                                = flag_digest (default "" salt) S2))
    /\ (toLowerCase (trim S1) = toLowerCase (trim S2) ->
        validateFlag salt S1 h2 = Returned true)
    /\ (flag_digest (default "" salt) S1 <> flag_digest (default "" salt) S2 ->
        validateFlag salt S1 h2 = Returned false).
Proof.
  intros Hsalt. exists (to_hex (flag_digest (default "" salt) S2)).
  split; [now apply hashFlag_configured|].
  rewrite !validateFlag_digests by assumption.
  split; [now rewrite bool_decide_eq_true_2|].
  split; [reflexivity|]. split.
  - intros Hnorm. rewrite bool_decide_eq_true_2; [reflexivity|].
    unfold flag_digest. now rewrite Hnorm.
  - intros Hne. now rewrite bool_decide_eq_false_2.
Qed.

(** Distinct sample flags are told apart, and case and outer white space are
    ignored (evaluated with the real digest). *)
Example fingerprint_samples :
  validateFlag sample_salt "ctf{warm_up}" (seeded_hash "ctf{retired}") = Returned false
  /\ validateFlag sample_salt " CTF{Retired}" (seeded_hash "ctf{retired}") = Returned true
  /\ validateFlag None "ctf{retired}" (seeded_hash "ctf{retired}")
     = Threw "FLAG_HASH_SALT environment variable is not set".
Proof. vm_compute. repeat split. Qed.

(** ** The submission handler, path by path *)

Lemma POST_auth_rejected env request (w w1 : World) resp :
  authenticateRequest env request true w = (Returned (inl resp), w1) ->
  POST env request w = (Responded resp, w1).
Proof. intros H. open_POST. now rewrite H. Qed.

Lemma POST_rate_limited env request (w w1 w2 : World) ctx rl fid :
  authenticateRequest env request true w = (Returned (inr ctx), w1) ->
  applyRateLimit env request flagSubmission
    (Some (submission_limit_key env request (user ctx))) w1 = ((rl, fid), w2) ->
  allowed rl = false ->
  POST env request w =
    (Responded (rateLimitedResponse rl),
     logSecurityEvent env "RATE_LIMITED_FLAG_SUBMISSION"
       [("userId", LStr (tok_uid (user ctx)));
        ("ipHash", LStr (hashIpAddress (FLAG_HASH_SALT env) (getClientIp request)));
        ("remaining", LNum (remaining rl))] w2).
Proof.
  intros Hauth Hrl Hrej. open_POST. rewrite Hauth.
  unfold submission_limit_key in Hrl. rewrite Hrl, Hrej. reflexivity.
Qed.

Lemma POST_malformed_id env request (w w2 : World) ctx cid flag :
  passes_gates env request w ctx w2 ->
  req_json request = BodyFields cid flag ->
  nonempty_string cid = None ->
  POST env request w = (Responded (errorResponse VALIDATION_FAILED 400), w2).
Proof.
  intros (w1 & rl & fid & Hauth & Hrl & Hok) Hbody Hcid. open_POST. rewrite Hauth.
  unfold submission_limit_key in Hrl. rewrite Hrl, Hok, Hbody, Hcid. reflexivity.
Qed.

Lemma POST_malformed_flag env request (w w2 : World) ctx cid flag c :
  passes_gates env request w ctx w2 ->
  req_json request = BodyFields cid flag ->
  nonempty_string cid = Some c ->
  (nonempty_string flag = None
   \/ exists f, nonempty_string flag = Some f /\ ~ acceptable_flag (sanitizeInput f)) ->
  POST env request w = (Responded (errorResponse VALIDATION_FAILED 400), w2).
Proof.
  intros (w1 & rl & fid & Hauth & Hrl & Hok) Hbody Hcid Hflag. open_POST. rewrite Hauth.
  unfold submission_limit_key in Hrl. rewrite Hrl, Hok, Hbody, Hcid. cbn [negb].
  destruct Hflag as [-> | (f & -> & Hbad)]; [reflexivity|].
  unfold acceptable_flag in Hbad.
  destruct (str_length (sanitizeInput f) =? 0) eqn:H0; [reflexivity|].
  destruct (str_length (sanitizeInput f) >? 256) eqn:H1; [reflexivity|].
  rewrite Z.gtb_ltb in H1. unfold str_length in *. lia.
Qed.

(** Past the gates and the validation, the [try] block runs on the
    sanitised flag. *)
Lemma POST_evaluates env request (w w2 : World) ctx cid flag c f :
  passes_gates env request w ctx w2 ->
  req_json request = BodyFields cid flag ->
  nonempty_string cid = Some c ->
  nonempty_string flag = Some f ->
  acceptable_flag (sanitizeInput f) ->
  POST env request w =
    evaluate_submission env request ctx
      (hashIpAddress (FLAG_HASH_SALT env) (getClientIp request)) c (sanitizeInput f) w2.
Proof.
  intros (w1 & rl & fid & Hauth & Hrl & Hok) Hbody Hcid Hflag Hlen. open_POST.
  rewrite Hauth. unfold submission_limit_key in Hrl. rewrite Hrl, Hok, Hbody, Hcid, Hflag.
  cbn [negb]. unfold acceptable_flag in Hlen.
  destruct (str_length (sanitizeInput f) =? 0) eqn:H0; [lia|].
  destruct (str_length (sanitizeInput f) >? 256) eqn:H1; [|reflexivity].
  rewrite Z.gtb_ltb in H1. lia.
Qed.

(** ** Sanitisation only deletes characters *)

Lemma slice0_length n s : (String.length (slice0 n s) <= String.length s)%nat.
Proof. revert s. induction n as [|n IH]; intros [|c s]; cbn; auto with arith. Qed.


Lemma remove_matches_length m k s :
  (String.length (remove_matches m k s) <= String.length s)%nat.
Proof.
  revert k. induction s as [|c s IH]; intros k; cbn [remove_matches String.length]; [lia|].
  destruct k as [|k]; [|specialize (IH k); lia].
  destruct (m (String c s)) as [[|j]|]; cbn [String.length];
    [specialize (IH 0%nat) | specialize (IH j) | specialize (IH 0%nat)]; lia.
Qed.


Lemma trimStart_length s : (String.length (trimStart s) <= String.length s)%nat.
Proof.
  induction s as [|c s IH]; cbn [trimStart String.length]; [lia|].
  destruct (is_js_whitespace c); cbn [String.length]; lia.
Qed.

Lemma trimEnd_length s : (String.length (trimEnd s) <= String.length s)%nat.
Proof.
  induction s as [|c s IH]; cbn [trimEnd String.length]; [lia|].
  destruct (trimEnd s); [destruct (is_js_whitespace c)|]; cbn [String.length] in *; lia.
Qed.

Lemma trim_length s : (String.length (trim s) <= String.length s)%nat.
Proof.
  unfold trim. pose proof (trimEnd_length (trimStart s)). pose proof (trimStart_length s). lia.
Qed.




(** The gates leave the collections as they are. *)
Lemma passes_gates_stores env request (w w2 : World) ctx :
  passes_gates env request w ctx w2 ->
  users w2 = users w /\ challenges w2 = challenges w /\ submissions w2 = submissions w.
Proof.
  intros (w1 & rl & fid & Hauth & Hrl & _).
  pose proof (authenticate_stores env request true w) as (Hu & Hc & _ & Hs).
  pose proof (applyRateLimit_stores env request flagSubmission
                (Some (submission_limit_key env request (user ctx))) w1) as (Hu' & Hc' & Hs').
  rewrite Hauth in Hu, Hc, Hs. rewrite Hrl in Hu', Hc', Hs'. cbn [snd] in *.
  repeat split; congruence.
Qed.



(** The control: a flag without such text is accepted. *)
Example submission_scenario_A :
  fst (POST (sample_env 1000)
         (submit_request "tok-alice" "c1" " CTF{Rotate_Me_Baby_One_More_Time} ") sample_world)
  = Responded (successResponse
                 (DSubmit (mkSubmitData true FLAG_CORRECT (Some 250) (Some 750))) None).
Proof. vm_compute. reflexivity. Qed.

(** ** The order of the gates *)

Lemma gate_of_passes env request (w w2 : World) ctx :
  gate_of env request w = Some (ctx, w2) -> passes_gates env request w ctx w2.
Proof.
  unfold gate_of, passes_gates.
  destruct (authenticateRequest env request true w) as [[[resp|ctx']|m] w1];
    [discriminate| |discriminate].
  destruct (applyRateLimit _ _ _ _ w1) as [[rl fid] w2'] eqn:Hrl.
  destruct (allowed rl) eqn:Hok; [|discriminate].
  intros [= <- <-]. exists w1, rl, fid. auto.
Qed.


(** What authentication does: a rejection is one of three responses and is
    reached after no call, one call (the token) or two (token, user record);
    success is reached after exactly the two.  The limiter is not touched. *)
Lemma authenticate_effects env request (w w1 : World) res :
  authenticateRequest env request true w = (res, w1) ->
  rateLimitStore w1 = rateLimitStore w
  /\ exists es,
       effects w1 = (effects w ++ es)%list
       /\ no_rate_check es
       /\ match res with
          | Returned (inl resp) => resp ∈ AUTH_REJECTIONS
          | Returned (inr ctx) =>
              exists token, es = [VerifyIdToken token; GetUserDoc (tok_uid (user ctx))]
          | Threw _ => True
          end.
Proof.
  unfold authenticateRequest, verifyAuthToken, AUTH_REJECTIONS, no_rate_check.
  repeat case_match; simplify_eq; intros [= <- <-]; (split; [reflexivity|]);
    cbn [emit effects user];
    first
      [ exists []; split; [now rewrite app_nil_r|]
      | eexists [_]; split; [reflexivity|]
      | eexists [_; _]; split; [now rewrite <- app_assoc|] ];
    (split; [reflexivity|]);
    first [ exact I | solve [in_literals] | eexists; reflexivity ].
Qed.

Lemma applyRateLimit_effects env request k i (w : World) :
  exists key,
    effects (snd (applyRateLimit env request k i w)) = (effects w ++ [CheckRateLimit key])%list.
Proof.
  unfold applyRateLimit. case_match. cbn. eauto.
Qed.

Lemma evaluate_effects env request ctx ipH c flag (w : World) :
  exists es,
    effects (snd (evaluate_submission env request ctx ipH c flag w)) = (effects w ++ es)%list
    /\ no_rate_check es.
Proof.
  open_try; unfold submission_error, no_rate_check.
  case_bool_decide; [exists []; now rewrite app_nil_r|].
  destruct (doc c) as [ref|m]; [|exists []; cbn; now rewrite app_nil_r].
  cbn [emit challenges effects].
  destruct (store_fault env _); [eexists [_]; split; reflexivity|].
  destruct (get_doc (challenges w) ref) as [ch|]; [|eexists [_]; split; reflexivity].
  destruct (negb (isActive ch)); [eexists [_]; split; reflexivity|].
  destruct (validateFlag _ _ _) as [isCorrect|m]; [|eexists [_]; split; reflexivity].
  destruct (store_fault env _);
    [eexists [_; _]; cbn; rewrite <- !app_assoc; split; reflexivity|].
  destruct isCorrect;
    [|eexists [_; _]; cbn; rewrite <- !app_assoc; split; reflexivity].
  destruct (store_fault env _);
    [eexists [_; _; _]; cbn; rewrite <- !app_assoc; split; reflexivity|].
  match goal with |- context [runTransaction ?u ?cc ?p ?w0] =>
    destruct (runTransaction u cc p w0) as [w5|m] eqn:Hrun
  end.
  - apply transaction_frame in Hrun as (Heff & _).
    destruct (store_fault env _);
      eexists [_; _; _; _]; cbn [snd emit logSecurityEvent effects]; rewrite Heff;
      cbn [emit logSecurityEvent add_submission effects]; rewrite <- !app_assoc;
      split; reflexivity.
  - eexists [_; _; _]. cbn [snd emit logSecurityEvent add_submission effects].
    rewrite <- !app_assoc. split; reflexivity.
Qed.

(** Every run of the handler, as a sequence of collaborator calls: the
    limiter, when it is consulted at all, comes third, after the token
    verification and the read of the user record. *)
Lemma POST_effects env request (w : World) :
  exists es,
    effects (snd (POST env request w)) = (effects w ++ es)%list
    /\ (no_rate_check es
        \/ exists token userId key rest,
             es = VerifyIdToken token :: GetUserDoc userId :: CheckRateLimit key :: rest
             /\ no_rate_check rest).
Proof.
  open_POST.
  destruct (authenticateRequest env request true w) as [[[resp|ctx]|m] w1] eqn:Hauth.
  1,3: destruct (authenticate_effects _ _ _ _ _ Hauth) as (_ & es & Hes & Hno & _);
       exists es; cbn [snd]; auto.
  destruct (authenticate_effects _ _ _ _ _ Hauth) as (_ & es & Hes & _ & token & ->).
  fold (submission_limit_key env request (user ctx)).
  destruct (applyRateLimit_effects env request flagSubmission
              (Some (submission_limit_key env request (user ctx))) w1) as (key & Hkey).
  destruct (applyRateLimit env request flagSubmission _ w1) as [[rl fid] w2].
  cbn [snd] in Hkey.
  assert (Hpre : effects w2
                 = (effects w ++ [VerifyIdToken token; GetUserDoc (tok_uid (user ctx));
                                  CheckRateLimit key])%list).
  { rewrite Hkey, Hes, <- app_assoc. reflexivity. }
  assert (Hdone : forall res,
             exists es,
               effects (snd (res : HandlerResult, w2)) = (effects w ++ es)%list
               /\ (no_rate_check es
                   \/ exists token userId key rest,
                        es = VerifyIdToken token :: GetUserDoc userId
                               :: CheckRateLimit key :: rest
                        /\ no_rate_check rest)).
  { intros res. eexists. split; [exact Hpre|].
    right. exists token, (tok_uid (user ctx)), key, []. now split. }
  destruct (negb (allowed rl)).
  { eexists. split; [cbn [snd logSecurityEvent effects]; exact Hpre|].
    right. exists token, (tok_uid (user ctx)), key, []. now split. }
  destruct (req_json request) as [| |cid flag]; [apply Hdone..|].
  destruct (nonempty_string cid) as [c|]; [|apply Hdone].
  destruct (nonempty_string flag) as [f|]; [|apply Hdone].
  destruct (_ || _); [apply Hdone|].
  destruct (evaluate_effects env request ctx
              (hashIpAddress (FLAG_HASH_SALT env) (getClientIp request)) c (sanitizeInput f) w2)
    as (rest & Hrest & Hno).
  eexists. split; [rewrite Hrest, Hpre, <- app_assoc; reflexivity|].
  right. exists token, (tok_uid (user ctx)), key, rest. now split.
Qed.

(** C2, as the code has it.  The handler authenticates first.  A request
    that authentication rejects (no or invalid token: 401; e-mail not
    verified: 403; banned: 403) gets that rejection whatever the state of the
    limiter, and the limiter is neither consulted nor changed.  A request
    that authenticates and is over the limit is rejected as rate-limited
    (429) right after the limiter call, with the collections untouched.  In
    every run, a limiter call is preceded by the token verification and the
    read of the user record. *)
Theorem authentication_precedes_rate_limit (env : Env) (request : Request) (w : World) :
  (forall resp w1,
      authenticateRequest env request true w = (Returned (inl resp), w1) ->
      POST env request w = (Responded resp, w1)
      /\ resp ∈ AUTH_REJECTIONS
      /\ rateLimitStore w1 = rateLimitStore w
      /\ exists es, effects w1 = (effects w ++ es)%list /\ no_rate_check es)
  /\ (forall ctx w1 rl fid w2,
        authenticateRequest env request true w = (Returned (inr ctx), w1) ->
        applyRateLimit env request flagSubmission
          (Some (submission_limit_key env request (user ctx))) w1 = ((rl, fid), w2) ->
        allowed rl = false ->
        fst (POST env request w) = Responded (rateLimitedResponse rl)
        /\ status (rateLimitedResponse rl) = 429
        /\ error (body (rateLimitedResponse rl)) = Some RATE_LIMITED
        /\ users (snd (POST env request w)) = users w
        /\ challenges (snd (POST env request w)) = challenges w
        /\ submissions (snd (POST env request w)) = submissions w
        /\ exists token key,
             effects (snd (POST env request w))
             = (effects w ++ [VerifyIdToken token; GetUserDoc (tok_uid (user ctx));
                              CheckRateLimit key])%list)
  /\ (exists es,
        effects (snd (POST env request w)) = (effects w ++ es)%list
        /\ (no_rate_check es
            \/ exists token userId key rest,
                 es = VerifyIdToken token :: GetUserDoc userId :: CheckRateLimit key :: rest
                 /\ no_rate_check rest)).
Proof.
  split; [|split].
  - intros resp w1 Hauth.
    destruct (authenticate_effects _ _ _ _ _ Hauth) as (Hstore & es & Hes & Hno & Hin).
    split; [now apply POST_auth_rejected|]. eauto 6.
  - intros ctx w1 rl fid w2 Hauth Hrl Hrej.
    rewrite (POST_rate_limited _ _ _ _ _ _ _ _ Hauth Hrl Hrej).
    cbn [fst snd logSecurityEvent users challenges submissions effects].
    pose proof (authenticate_stores env request true w) as (Hu & Hc & _ & Hs).
    pose proof (applyRateLimit_stores env request flagSubmission
                  (Some (submission_limit_key env request (user ctx))) w1) as (Hu' & Hc' & Hs').
    destruct (applyRateLimit_effects env request flagSubmission
                (Some (submission_limit_key env request (user ctx))) w1) as (key & Hkey).
    destruct (authenticate_effects _ _ _ _ _ Hauth) as (_ & es & Hes & _ & token & ->).
    rewrite Hauth in Hu, Hc, Hs. rewrite Hrl in Hu', Hc', Hs', Hkey. cbn [snd] in *.
    repeat split; try congruence.
    exists token, key. rewrite Hkey, Hes, <- app_assoc. reflexivity.
  - apply POST_effects.
Qed.

(** C2 as stated fails: Bob's token is valid but his e-mail is not verified,
    and the limiter window for his key is full; the limiter would reject,
    yet the answer is the 403 of authentication, reached after the token
    verification alone, the limiter's entry being as before. *)
Lemma rate_limit_first_counterexample :
  let env := sample_env 10000 in
  let request := submit_request "tok-bob" "c1" "ctf{guess}" in
  let w := throttled_world "bob" in
  allowed (fst (checkRateLimit (sample_limiter_id "bob") (RATE_LIMIT_CONFIGS flagSubmission)
                  (clock env) (rateLimitStore w))) = false
  /\ fst (POST env request w) = Responded (errorResponse EMAIL_NOT_VERIFIED 403)
  /\ effects (snd (POST env request w)) = [VerifyIdToken "tok-bob"]
  /\ rateLimitStore (snd (POST env request w)) !! rate_key (sample_limiter_id "bob")
     = Some (mkEntry 5 0 4000)
  /\ rateLimitStore w !! rate_key (sample_limiter_id "bob") = Some (mkEntry 5 0 4000).
Proof. vm_compute. repeat split. Qed.

(** The same caller state with a verified identity is turned away as
    rate-limited. *)
Example rate_limited_after_authentication :
  let env := sample_env 10000 in
  let request := submit_request "tok-alice" "c1" "ctf{guess}" in
  let w := throttled_world "alice" in
  fst (POST env request w)
  = Responded (mkResponse 429
                 [("X-RateLimit-Remaining", 0); ("X-RateLimit-Reset", 60000);
                  ("Retry-After", 50)]
                 (mkApi false None (Some RATE_LIMITED) None))
  /\ effects (snd (POST env request w))
     = [VerifyIdToken "tok-alice"; GetUserDoc "alice";
        CheckRateLimit (rate_key (sample_limiter_id "alice"))].
Proof. vm_compute. repeat split. Qed.

(* ===================================================================== *)
(** ** The handlers, case by case                                          *)
(* ===================================================================== *)

(** What a successful authentication tells about the caller. *)
Lemma authenticate_identity env request b (w w1 : World) ctx :
  authenticateRequest env request b w = (Returned (inr ctx), w1) ->
  bearer_identity env request = Some (user ctx)
  /\ (b = true -> tok_email_verified (user ctx) = true)
  /\ userData ctx = users w !! tok_uid (user ctx)
  /\ (forall u, users w !! tok_uid (user ctx) = Some u -> isBanned u = false)
  /\ ipHash ctx = hashIpAddress (FLAG_HASH_SALT env) (getClientIp request).
Proof.
  unfold authenticateRequest, verifyAuthToken, bearer_identity.
  destruct (req_headers request !! "authorization") as [h|]; [|discriminate].
  destruct (String.prefix "Bearer " h); [|discriminate].
  destruct (idTokens env !! substring_from 7 h) as [tok|]; [|discriminate].
  destruct (b && negb (tok_email_verified tok)) eqn:Hv; [discriminate|].
  cbn [emit effects users].
  destruct (store_fault env _); [discriminate|].
  destruct (users w !! tok_uid tok) as [u|] eqn:Hu.
  - destruct (isBanned u) eqn:Hb; [discriminate|].
    intros [= <- <-]. cbn [user userData ipHash]. rewrite Hu.
    repeat split; try reflexivity.
    + intros ->. now destruct (tok_email_verified tok).
    + now intros u' [= <-].
  - intros [= <- <-]. cbn [user userData ipHash]. rewrite Hu.
    repeat split; try reflexivity.
    + intros ->. now destruct (tok_email_verified tok).
    + discriminate.
Qed.

(** An authentication that does not succeed answers without data. *)
Lemma authenticate_rejection_has_no_data env request b (w w1 : World) resp :
  authenticateRequest env request b w = (Returned (inl resp), w1) ->
  data (body resp) = None /\ status resp <> 200 /\ status resp <> 500.
Proof.
  unfold authenticateRequest, verifyAuthToken.
  repeat case_match; simplify_eq; intros [= <- <-]; cbn; repeat split; lia.
Qed.

(** The [try] block of the submission handler, outcome by outcome. *)
Lemma get_doc_single {A : Type} (m : gmap string A) ref (x : A) :
  get_doc m ref = Some x -> exists k, ref = [k] /\ m !! k = Some x.
Proof.
  destruct ref as [|k [|k' ref]]; cbn [get_doc]; try discriminate. eauto.
Qed.

Lemma evaluate_cases env request ctx ipH c flag (w : World) :
  let r := fst (evaluate_submission env request ctx ipH c flag w) in
  let w' := snd (evaluate_submission env request ctx ipH c flag w) in
  (c ∈ snapshot_solved ctx
   /\ r = Responded already_solved_response
   /\ w' = w)
  \/ ((c ∉ snapshot_solved ctx)
      /\ r = Responded (errorResponse NOT_FOUND 404)
      /\ users w' = users w /\ challenges w' = challenges w
      /\ submissions w' = submissions w
      /\ exists ref,
           doc c = Returned ref
           /\ (get_doc (challenges w) ref = None
               \/ exists ch, get_doc (challenges w) ref = Some ch /\ isActive ch = false))
  \/ ((c ∉ snapshot_solved ctx)
      /\ r = Responded (errorResponse SERVER_ERROR 500))
  \/ ((c ∉ snapshot_solved ctx)
      /\ r = Responded incorrect_response
      /\ users w' = users w /\ challenges w' = challenges w
      /\ submissions w'
         = (submissions w ++ [submission_record request (user ctx) ipH c false])%list
      /\ exists k ch,
           doc c = Returned [k] /\ challenges w !! k = Some ch /\ isActive ch = true
           /\ validateFlag (FLAG_HASH_SALT env) flag (flagHash ch) = Returned false)
  \/ ((c ∉ snapshot_solved ctx)
      /\ exists k ch w4 w5,
           doc c = Returned [k]
           /\ challenges w !! k = Some ch
           /\ isActive ch = true
           /\ validateFlag (FLAG_HASH_SALT env) flag (flagHash ch) = Returned true
           /\ users w4 = users w /\ challenges w4 = challenges w
           /\ runTransaction (user ctx) c (points ch) w4 = Returned w5
           /\ users w' = users w5 /\ challenges w' = challenges w5
           /\ submissions w'
              = (submissions w ++ [submission_record request (user ctx) ipH c true])%list
           /\ r = Responded (correct_response (points ch)
                               (match users w5 !! tok_uid (user ctx) with
                                | Some u => score u
                                | None => 0
                                end))).
Proof.
  cbv zeta. open_try; unfold submission_error.
  fold (snapshot_solved ctx).
  case_bool_decide as Hs; [left; auto|].
  right.
  destruct (doc c) as [ref|m] eqn:Hdoc; [|right; left; auto].
  cbn [emit challenges effects].
  destruct (store_fault env _); [right; left; auto|].
  destruct (get_doc (challenges w) ref) as [ch|] eqn:Hch; [|left; cbn; eauto 10].
  destruct (isActive ch) eqn:Hact; cbn [negb]; [|left; cbn; eauto 12].
  destruct (get_doc_single _ _ _ Hch) as (k & -> & Hk).
  destruct (validateFlag _ _ _) as [isCorrect|m] eqn:Hv; [|right; left; auto].
  destruct (store_fault env _); [right; left; auto|].
  destruct isCorrect; [|right; right; left; cbn; eauto 12].
  destruct (store_fault env _); [right; left; auto|].
  match goal with |- context [runTransaction ?u ?cc ?p ?w0] =>
    destruct (runTransaction u cc p w0) as [w5|m] eqn:Hrun; [|right; left; auto];
    pose proof (transaction_frame _ _ _ _ _ Hrun) as (He & Hsub & _ & _)
  end.
  destruct (store_fault env _); [right; left; auto|].
  right. right. right. split; [exact Hs|].
  eexists k, ch, _, w5. split; [reflexivity|]. split; [exact Hk|]. split; [exact Hact|].
  split; [exact Hv|].
  split; [|split; [|split; [exact Hrun|]]]; [reflexivity..|].
  cbn [fst snd emit users challenges submissions]. rewrite Hsub.
  repeat split.
Qed.

(** Before the [try] block: every answer is without data and leaves the
    collections alone; past it, the handler is the [try] block run on the
    sanitised flag. *)
Lemma POST_cases env request (w : World) :
  (users (snd (POST env request w)) = users w
   /\ challenges (snd (POST env request w)) = challenges w
   /\ submissions (snd (POST env request w)) = submissions w
   /\ match fst (POST env request w) with
      | Responded resp => data (body resp) = None /\ status resp <> 200 /\ status resp <> 500
      | Uncaught _ => True
      end)
  \/ exists ctx w2 c f,
       passes_gates env request w ctx w2
       /\ req_json request = BodyFields (VString c) (VString f)
       /\ c <> EmptyString
       /\ acceptable_flag (sanitizeInput f)
       /\ POST env request w
          = evaluate_submission env request ctx
              (hashIpAddress (FLAG_HASH_SALT env) (getClientIp request))
              c (sanitizeInput f) w2.
Proof.
  open_POST.
  pose proof (authenticate_stores env request true w) as (Hu1 & Hc1 & _ & Hs1).
  destruct (authenticateRequest env request true w) as [[[resp|ctx]|m] w1] eqn:Hauth;
    cbn [snd fst] in *.
  - left. pose proof (authenticate_rejection_has_no_data _ _ _ _ _ _ Hauth). auto.
  - fold (submission_limit_key env request (user ctx)).
    pose proof (applyRateLimit_stores env request flagSubmission
                  (Some (submission_limit_key env request (user ctx))) w1) as (Hu2 & Hc2 & Hs2).
    destruct (applyRateLimit env request flagSubmission _ w1) as [[rl fid] w2] eqn:Hrl;
      cbn [snd] in *.
    destruct (allowed rl) eqn:Hok; cbn [negb].
    2:{ left. cbn. repeat split; try congruence; lia. }
    assert (Hpre : users w2 = users w /\ challenges w2 = challenges w
                   /\ submissions w2 = submissions w) by (repeat split; congruence).
    destruct (req_json request) as [| |cid flag] eqn:Hbody;
      [left; cbn; repeat split; try apply Hpre; lia
      |left; cbn; repeat split; apply Hpre|].
    destruct cid as [| | | |[|a c]|]; cbn [nonempty_string];
      try (left; cbn; repeat split; try apply Hpre; lia).
    destruct flag as [| | | |[|a' f]|]; cbn [nonempty_string];
      try (left; cbn; repeat split; try apply Hpre; lia).
    destruct (str_length (sanitizeInput (String a' f)) =? 0) eqn:H0;
      [left; cbn; repeat split; try apply Hpre; lia|].
    destruct (str_length (sanitizeInput (String a' f)) >? 256) eqn:H1;
      [left; cbn; repeat split; try apply Hpre; lia|].
    cbn [orb]. right. exists ctx, w2, (String a c), (String a' f).
    split; [exists w1, rl, fid; auto|].
    split; [reflexivity|]. split; [discriminate|].
    split; [|reflexivity].
    unfold acceptable_flag. rewrite Z.gtb_ltb in H1. unfold str_length in *. lia.
  - left. auto.
Qed.

(** ** The rejection shapes *)

Lemma evaluate_not_found env request ctx ipH c flag (w : World) ref :
  c ∉ snapshot_solved ctx ->
  doc c = Returned ref ->
  store_fault env (effects w ++ [GetChallengeDoc (ref_path ref)]) = None ->
  (get_doc (challenges w) ref = None
   \/ exists ch, get_doc (challenges w) ref = Some ch /\ isActive ch = false) ->
  evaluate_submission env request ctx ipH c flag w
  = (Responded (errorResponse NOT_FOUND 404), emit (GetChallengeDoc (ref_path ref)) w).
Proof.
  intros Hnew Hdoc Hup Hmissing. open_try. fold (snapshot_solved ctx).
  rewrite bool_decide_eq_false_2 by assumption. rewrite Hdoc.
  cbn [emit challenges effects].
  rewrite Hup. destruct Hmissing as [-> | (ch & -> & ->)]; reflexivity.
Qed.

Lemma evaluate_no_reference env request ctx ipH c flag (w : World) m :
  c ∉ snapshot_solved ctx ->
  doc c = Threw m ->
  fst (evaluate_submission env request ctx ipH c flag w)
  = Responded (errorResponse SERVER_ERROR 500).
Proof.
  intros Hnew Hdoc. open_try. fold (snapshot_solved ctx).
  rewrite bool_decide_eq_false_2 by assumption. now rewrite Hdoc.
Qed.

(** C4, as the code has it.  For a request past authentication and rate
    limiting: a challenge id that is not a non-empty string is rejected with
    status 400 and the validation message (the response a malformed flag
    gets).  A well-formed id that the caller has not solved is handed to
    [doc], which reads it as a path: when it names no document (it holds
    [//], or an even number of segments) the answer is the 500 of the
    [catch] block; when it names a document (empty segments dropped, so
    [c1/] names [c1]) and the store answers the lookup, then an absent
    document and an inactive one are rejected with status 404 and the
    not-found message, the two cases giving the same response and the same
    trace, and a document that is there and active is never answered that
    way. *)
Theorem not_found_shape_for_absent_and_inactive
    (env : Env) (request : Request) (w w2 : World) (ctx : AuthenticatedContext)
    (cid flag : JsValue) :
  passes_gates env request w ctx w2 ->
  req_json request = BodyFields cid flag ->
  (nonempty_string cid = None ->
     POST env request w = (Responded (errorResponse VALIDATION_FAILED 400), w2))
  /\ (forall c f,
        nonempty_string cid = Some c ->
        nonempty_string flag = Some f ->
        acceptable_flag (sanitizeInput f) ->
        c ∉ snapshot_solved ctx ->
        (forall m, doc c = Threw m ->
           fst (POST env request w) = Responded (errorResponse SERVER_ERROR 500))
        /\ (forall ref,
              doc c = Returned ref ->
              store_fault env (effects w2 ++ [GetChallengeDoc (ref_path ref)]) = None ->
              ((get_doc (challenges w) ref = None
                \/ exists ch, get_doc (challenges w) ref = Some ch /\ isActive ch = false) ->
               POST env request w
               = (Responded (errorResponse NOT_FOUND 404),
                  emit (GetChallengeDoc (ref_path ref)) w2))
              /\ (forall ch,
                    get_doc (challenges w) ref = Some ch -> isActive ch = true ->
                    fst (POST env request w) <> Responded (errorResponse NOT_FOUND 404)))).
Proof.
  intros Hgates Hbody. split.
  - intros Hcid. now apply POST_malformed_id with ctx cid flag.
  - intros c f Hcid Hflag Hlen Hnew.
    rewrite (POST_evaluates _ _ _ _ _ _ _ _ _ Hgates Hbody Hcid Hflag Hlen).
    destruct (passes_gates_stores _ _ _ _ _ Hgates) as (_ & Hc2 & _).
    split; [|intros ref Hdoc Hup; split].
    + intros m Hdoc. now apply evaluate_no_reference with m.
    + intros Hmissing. apply evaluate_not_found; [exact Hnew | exact Hdoc | exact Hup |].
      rewrite Hc2. exact Hmissing.
    + intros ch Hch Hact Hresp.
      destruct (evaluate_cases env request ctx
                  (hashIpAddress (FLAG_HASH_SALT env) (getClientIp request))
                  c (sanitizeInput f) w2)
        as [(Hin & _) | [(_ & _ & _ & _ & _ & ref' & Hdoc' & Hgone) | [(_ & Hr)
           | [(_ & Hr & _) | (_ & k & ch' & w4 & w5 & _ & _ & _ & _ & _ & _ & _ & _ & _ & _
                                & Hr)]]]].
      * contradiction.
      * rewrite Hdoc in Hdoc'. injection Hdoc' as <-. rewrite Hc2, Hch in Hgone.
        destruct Hgone as [Hgone | (ch' & [= <-] & Hoff)]; congruence.
      * rewrite Hr in Hresp. discriminate Hresp.
      * rewrite Hr in Hresp. discriminate Hresp.
      * rewrite Hr in Hresp. discriminate Hresp.
Qed.

Lemma not_found_shape_for_absent_and_inactive_witness :
  exists ctx w2,
    passes_gates (sample_env 1000) (submit_request "tok-alice" "c2/" "ctf{guess}")
      sample_world ctx w2
    /\ req_json (submit_request "tok-alice" "c2/" "ctf{guess}")
       = BodyFields (VString "c2/") (VString "ctf{guess}")
    /\ doc "c2/" = Returned ["c2"]
    /\ POST (sample_env 1000) (submit_request "tok-alice" "c2/" "ctf{guess}") sample_world
       = (Responded (errorResponse NOT_FOUND 404), emit (GetChallengeDoc "c2") w2).
Proof.
  destruct (gate_of (sample_env 1000) (submit_request "tok-alice" "c2/" "ctf{guess}")
              sample_world) as [[ctx w2]|] eqn:Hg.
  - exists ctx, w2. pose proof (gate_of_passes _ _ _ _ _ Hg) as Hgates.
    split; [exact Hgates|]. split; [reflexivity|]. split; [reflexivity|].
    assert (Hnew : "c2/" ∉ snapshot_solved ctx).
    { vm_compute in Hg. injection Hg as <- _. vm_compute. intros Hin.
      apply list_elem_of_singleton in Hin. discriminate. }
    assert (Hlen : acceptable_flag (sanitizeInput "ctf{guess}"))
      by (vm_compute; split; [reflexivity | discriminate]).
    apply (proj1 (proj2 (proj2 (not_found_shape_for_absent_and_inactive _ _ _ _ _ _ _
                                  Hgates eq_refl)
                           "c2/" "ctf{guess}" eq_refl eq_refl Hlen Hnew)
                    ["c2"] eq_refl eq_refl)).
    right. eexists. split; vm_compute; reflexivity.
  - vm_compute in Hg. discriminate.
Defined.

(** C4 as stated fails for a malformed id: the empty string and a number in
    place of the id are answered with 400 and the validation message, an
    id that names no document with the 500 of the [catch] block, an absent
    id and an inactive challenge (also under the name [c2/]) with 404 and
    the not-found message. *)
Lemma malformed_id_counterexample :
  let env := sample_env 1000 in
  let answer cid := fst (POST env (mkRequest
                                     (list_to_map [("authorization", "Bearer tok-alice")])
                                     (BodyFields cid (VString "ctf{guess}")))
                           sample_world) in
  answer (VString "") = Responded (errorResponse VALIDATION_FAILED 400)
  /\ answer (VNumber 7) = Responded (errorResponse VALIDATION_FAILED 400)
  /\ answer (VString "../c1") = Responded (errorResponse SERVER_ERROR 500)
  /\ answer (VString "no-such-id") = Responded (errorResponse NOT_FOUND 404)
  /\ answer (VString "c2") = Responded (errorResponse NOT_FOUND 404)
  /\ answer (VString "c2/") = Responded (errorResponse NOT_FOUND 404)
  /\ errorResponse VALIDATION_FAILED 400 <> errorResponse NOT_FOUND 404
  /\ errorResponse SERVER_ERROR 500 <> errorResponse NOT_FOUND 404.
Proof. vm_compute. repeat split; discriminate. Qed.

(** ** What can reach a response body *)

Lemma to_hex_length bs : String.length (to_hex bs) = (2 * length bs)%nat.
Proof. induction bs as [|b bs IH]; cbn [to_hex String.length length]; lia. Qed.

Lemma fingerprint_length salt flag h :
  hashFlag salt flag = Returned h -> String.length h = 64%nat.
Proof.
  destruct salt as [[|c s]|]; cbn [hashFlag]; try discriminate.
  intros [= <-]. unfold sha256_hex. now rewrite to_hex_length, sha256_length.
Qed.

Lemma submit_messages_are_short s :
  s ∈ SUBMIT_MESSAGES -> (String.length s < 64)%nat.
Proof.
  unfold SUBMIT_MESSAGES. rewrite !elem_of_cons, elem_of_nil.
  intros H; repeat (destruct H as [-> | H]; [vm_compute; lia|]); contradiction.
Qed.

Lemma auth_rejection_strings resp s :
  resp ∈ AUTH_REJECTIONS -> s ∈ body_strings (body resp) ->
  s ∈ [UNAUTHORIZED; EMAIL_NOT_VERIFIED].
Proof.
  intros Hresp. unfold AUTH_REJECTIONS in Hresp.
  repeat (apply elem_of_cons in Hresp; destruct Hresp as [-> | Hresp]);
    [literal_cases.. | now apply elem_of_nil in Hresp].
Qed.

Lemma evaluate_strings env request ctx ipH c flag (w : World) s :
  s ∈ result_strings (fst (evaluate_submission env request ctx ipH c flag w)) ->
  s ∈ SUBMIT_MESSAGES.
Proof.
  open_try; unfold submission_error, SUBMIT_MESSAGES.
  repeat (case_bool_decide || case_match); literal_cases.
Qed.

Lemma POST_strings env request (w : World) s :
  s ∈ result_strings (fst (POST env request w)) -> s ∈ SUBMIT_MESSAGES.
Proof.
  open_POST.
  destruct (authenticateRequest env request true w) as [[[resp|ctx]|m] w1] eqn:Hauth.
  { destruct (authenticate_effects _ _ _ _ _ Hauth) as (_ & es & _ & _ & Hin).
    cbn [fst result_strings]. intros Hs.
    pose proof (auth_rejection_strings resp s Hin Hs) as Hs'. revert Hs'.
    unfold SUBMIT_MESSAGES. literal_cases. }
  2: { cbn. intros Hs. now apply elem_of_nil in Hs. }
  destruct (applyRateLimit env request flagSubmission _ w1) as [[rl fid] w2].
  unfold SUBMIT_MESSAGES.
  destruct (negb (allowed rl)); [literal_cases|].
  destruct (req_json request) as [| |cid flag]; try literal_cases.
  destruct (nonempty_string cid) as [c|]; [|literal_cases].
  destruct (nonempty_string flag) as [f|]; [|literal_cases].
  destruct (_ || _); [literal_cases|].
  apply evaluate_strings.
Qed.

Lemma to_public_strings solved p :
  public_strings (to_public solved p) = challenge_public_strings p.
Proof. reflexivity. Qed.

Lemma GET_strings env request (w : World) s :
  s ∈ result_strings (fst (GET env request w)) ->
  s ∈ LISTING_MESSAGES
  \/ exists p, p ∈ map_to_list (challenges w) /\ isActive (snd p) = true
               /\ s ∈ challenge_public_strings p.
Proof.
  unfold GET.
  pose proof (applyRateLimit_stores env request general None w) as (_ & Hc1 & _).
  destruct (applyRateLimit env request general None w) as [[rl fid] w1]. cbn [snd] in Hc1.
  destruct (negb (allowed rl)).
  { intros H. left. revert H. unfold LISTING_MESSAGES. literal_cases. }
  pose proof (authenticate_stores env request true w1) as (_ & Hc2 & _).
  destruct (authenticateRequest env request true w1) as [[[resp|ctx]|m] w2] eqn:Hauth;
    cbn [snd] in Hc2.
  { destruct (authenticate_effects _ _ _ _ _ Hauth) as (_ & es & _ & _ & Hin).
    cbn [fst result_strings]. intros Hs. left.
    pose proof (auth_rejection_strings resp s Hin Hs) as Hs'. revert Hs'.
    unfold LISTING_MESSAGES. literal_cases. }
  2: { cbn. intros Hs. now apply elem_of_nil in Hs. }
  destruct (store_fault env _).
  { intros H. left. revert H. unfold LISTING_MESSAGES. literal_cases. }
  cbn [fst result_strings successResponse body emit challenges].
  unfold body_strings. cbn [data error message data_strings]. rewrite !app_nil_r.
  rewrite Hc2, Hc1. intros Hs. right.
  apply list_elem_of_In, in_flat_map in Hs as (q & Hq & Hsq).
  apply in_map_iff in Hq as (p & <- & Hp).
  unfold active_challenges in Hp. apply filter_In in Hp as [Hp Hact].
  exists p. rewrite to_public_strings in Hsq.
  repeat split; [now apply list_elem_of_In | exact Hact | now apply list_elem_of_In].
Qed.

(** Authentication and the limiter do not read the challenge collection. *)
Lemma authenticate_set_challenges env request b cs (w : World) :
  authenticateRequest env request b (set_challenges cs w)
  = (fst (authenticateRequest env request b w),
     set_challenges cs (snd (authenticateRequest env request b w))).
Proof.
  unfold authenticateRequest, verifyAuthToken.
  destruct (req_headers request !! "authorization") as [h|]; [|reflexivity].
  destruct (String.prefix "Bearer " h); [|reflexivity].
  destruct (idTokens env !! substring_from 7 h) as [tok|]; [|reflexivity].
  destruct (b && negb (tok_email_verified tok)); [reflexivity|].
  cbn [emit set_challenges users effects].
  destruct (store_fault env _); [reflexivity|].
  destruct (users w !! tok_uid tok) as [u|]; [destruct (isBanned u)|]; reflexivity.
Qed.

Lemma applyRateLimit_set_challenges env request k i cs (w : World) :
  applyRateLimit env request k i (set_challenges cs w)
  = (fst (applyRateLimit env request k i w),
     set_challenges cs (snd (applyRateLimit env request k i w))).
Proof.
  unfold applyRateLimit. cbn [set_challenges rateLimitStore].
  destruct (checkRateLimit _ _ _ _) as [rl store']. reflexivity.
Qed.

Lemma active_challenges_fmap (g : Challenge -> string) (cs : gmap string Challenge) solved :
  map (to_public solved) (active_challenges ((fun c => with_flagHash (g c) c) <$> cs))
  = map (to_public solved) (active_challenges cs).
Proof.
  unfold active_challenges. rewrite map_to_list_fmap.
  induction (map_to_list cs) as [|[i c] l IH]; [reflexivity|].
  cbn [fmap list_fmap prod_map List.filter snd fst with_flagHash isActive].
  destruct (isActive c); cbn [map]; [|exact IH].
  f_equal. exact IH.
Qed.

(** The listing does not read the fingerprints: replacing them, document by
    document, leaves the response as it was. *)
Lemma GET_ignores_fingerprints env request (w : World) (g : Challenge -> string) :
  fst (GET env request
         (set_challenges ((fun c => with_flagHash (g c) c) <$> challenges w) w))
  = fst (GET env request w).
Proof.
  unfold GET. rewrite applyRateLimit_set_challenges.
  pose proof (applyRateLimit_stores env request general None w) as (_ & Hc1 & _).
  destruct (applyRateLimit env request general None w) as [[rl fid] w1].
  cbn [fst snd] in *.
  destruct (negb (allowed rl)); [reflexivity|].
  rewrite authenticate_set_challenges.
  pose proof (authenticate_stores env request true w1) as (_ & Hc2 & _).
  destruct (authenticateRequest env request true w1) as [[[resp|ctx]|m] w2];
    cbn [fst snd] in *; [reflexivity | | reflexivity].
  cbn [emit set_challenges challenges effects].
  destruct (store_fault env _); [reflexivity|].
  cbn [fst]. rewrite active_challenges_fmap, Hc2, Hc1. reflexivity.
Qed.

(** C7 (no fingerprint or salt in a response body).  Every string in a
    response body of the submission handler, on every path and for every
    input, is one of the handler's fixed literals; none of them is the
    fingerprint of any flag under any salt, and a configured salt that is not
    one of those literals does not occur.  Every string in a body of the
    listing handler is a fixed literal or a published field (id, title,
    description, category, difficulty, hint, attachment) of an active
    challenge, and the listing's response is the same whatever the stored
    fingerprints are. *)
Theorem no_fingerprint_or_salt_in_responses :
  (forall env request (w : World) s,
      s ∈ result_strings (fst (POST env request w)) ->
      s ∈ SUBMIT_MESSAGES
      /\ (forall salt flag, hashFlag salt flag <> Returned s)
      /\ (forall salt, FLAG_HASH_SALT env = Some salt -> salt ∉ SUBMIT_MESSAGES -> s <> salt))
  /\ (forall env request (w : World) s,
        s ∈ result_strings (fst (GET env request w)) ->
        s ∈ LISTING_MESSAGES
        \/ exists p, p ∈ map_to_list (challenges w) /\ isActive (snd p) = true
                     /\ s ∈ challenge_public_strings p)
  /\ (forall env request (w : World) (g : Challenge -> string),
        fst (GET env request
               (set_challenges ((fun c => with_flagHash (g c) c) <$> challenges w) w))
        = fst (GET env request w)).
Proof.
  split; [|split].
  - intros env request w s Hs. pose proof (POST_strings _ _ _ _ Hs) as Hlit.
    split; [exact Hlit|]. split.
    + intros salt flag Hh. apply fingerprint_length in Hh.
      pose proof (submit_messages_are_short s Hlit). lia.
    + intros salt _ Hsalt ->. contradiction.
  - apply GET_strings.
  - apply GET_ignores_fingerprints.
Qed.

(** Malformed ids, oversized flags, a missing salt and an unavailable store
    on the sample data: the generic messages, nothing else. *)
Example malformed_inputs_get_generic_messages :
  let env := sample_env 1000 in
  let down := mkEnv sample_salt (idTokens env) 1000 challenge_reads_fail in
  result_strings (fst (POST env (submit_request "tok-alice" "c1" (repeat_char "a" 300))
                         sample_world)) = [VALIDATION_FAILED]
  /\ result_strings (fst (POST env (submit_request "tok-alice" "../c1" "ctf{guess}")
                            sample_world)) = [SERVER_ERROR]
  /\ result_strings (fst (POST env (submit_request "tok-alice" "c9" "ctf{guess}")
                            sample_world)) = [NOT_FOUND]
  /\ result_strings (fst (POST (mkEnv None (idTokens env) 1000 store_up)
                            (submit_request "tok-alice" "c1" "ctf{guess}") sample_world))
     = [SERVER_ERROR]
  /\ result_strings (fst (POST down (submit_request "tok-alice" "c1" "ctf{guess}")
                            sample_world)) = [SERVER_ERROR]
  /\ result_strings (fst (GET down (submit_request "tok-alice" "c1" "ctf{guess}")
                            sample_world)) = ["Failed to fetch challenges"]
  /\ result_strings (fst (POST env (submit_request "tok-alice" "c0" "ctf{warm_up}")
                            sample_world)) = [ALREADY_SOLVED; ALREADY_SOLVED].
Proof. vm_compute. repeat split. Qed.

(** ** The statements above on the sample data *)

Lemma authentication_precedes_rate_limit_witness :
  authenticateRequest (sample_env 10000) (submit_request "tok-bob" "c1" "ctf{guess}") true
    (throttled_world "bob")
  = (Returned (inl (errorResponse EMAIL_NOT_VERIFIED 403)),
     emit (VerifyIdToken "tok-bob") (throttled_world "bob"))
  /\ POST (sample_env 10000) (submit_request "tok-bob" "c1" "ctf{guess}")
       (throttled_world "bob")
     = (Responded (errorResponse EMAIL_NOT_VERIFIED 403),
        emit (VerifyIdToken "tok-bob") (throttled_world "bob")).
Proof.
  assert (Hauth : authenticateRequest (sample_env 10000)
                    (submit_request "tok-bob" "c1" "ctf{guess}") true (throttled_world "bob")
                  = (Returned (inl (errorResponse EMAIL_NOT_VERIFIED 403)),
                     emit (VerifyIdToken "tok-bob") (throttled_world "bob")))
    by reflexivity.
  split; [exact Hauth|].
  exact (proj1 (proj1 (authentication_precedes_rate_limit (sample_env 10000)
                         (submit_request "tok-bob" "c1" "ctf{guess}")
                         (throttled_world "bob")) _ _ Hauth)).
Defined.

Lemma no_fingerprint_or_salt_in_responses_witness :
  NOT_FOUND ∈ result_strings
                (fst (POST (sample_env 1000) (submit_request "tok-alice" "zz" "ctf{guess}")
                        sample_world))
  /\ NOT_FOUND ∈ SUBMIT_MESSAGES
  /\ (forall salt flag, hashFlag salt flag <> Returned NOT_FOUND).
Proof.
  assert (Hin : NOT_FOUND ∈ result_strings
                  (fst (POST (sample_env 1000)
                          (submit_request "tok-alice" "zz" "ctf{guess}") sample_world))).
  { vm_compute. apply list_elem_of_here. }
  pose proof (proj1 no_fingerprint_or_salt_in_responses _ _ _ _ Hin) as (Hlit & Hfp & _).
  split; [exact Hin|]. split; [exact Hlit | exact Hfp].
Defined.


(* ===================================================================== *)
(** * Further properties of the code                                      *)
(* ===================================================================== *)

(** ** The rate limiter: reset, status, sweep and keys *)

Lemma rate_key_inj a b : rate_key a = rate_key b -> a = b.
Proof. unfold rate_key. intros H. simpl in H. now injection H. Qed.

(** X1.  A check for one identifier leaves the entry of every other identifier
    as it was. *)
Theorem check_leaves_other_identifiers
    (identifier other : string) (config : RateLimitConfig) (now : Z)
    (store : gmap string RateLimitEntry) :
  other <> identifier ->
  snd (checkRateLimit identifier config now store) !! rate_key other
  = store !! rate_key other.
Proof.
  intros Hne.
  assert (rate_key identifier <> rate_key other) as Hk
    by (intros H; apply rate_key_inj in H; congruence).
  unfold checkRateLimit.
  destruct (store !! rate_key identifier) as [e|]; repeat case_bool_decide; cbn [snd];
    rewrite ?lookup_insert_ne by exact Hk; reflexivity.
Qed.

Lemma check_leaves_other_identifiers_witness :
  "bob" <> "alice"
  /\ snd (checkRateLimit "alice" (RATE_LIMIT_CONFIGS flagSubmission) 7000
            {[ rate_key "bob" := mkEntry 5 0 4000 ]}) !! rate_key "bob"
     = ({[ rate_key "bob" := mkEntry 5 0 4000 ]} : gmap string RateLimitEntry)
         !! rate_key "bob".
Proof.
  assert (H : "bob" <> "alice") by discriminate.
  split; [exact H|].
  exact (check_leaves_other_identifiers "alice" "bob" (RATE_LIMIT_CONFIGS flagSubmission)
           7000 {[ rate_key "bob" := mkEntry 5 0 4000 ]} H).
Defined.

(** X2.  After a reset the next check is allowed and opens a fresh window,
    whatever the entry was before (a full window included); the reset
    touches no other identifier. *)
Theorem reset_reopens_window
    (identifier : string) (config : RateLimitConfig) (now : Z)
    (store : gmap string RateLimitEntry) :
  checkRateLimit identifier config now (resetRateLimit identifier store)
  = (mkResult true (maxRequests config - 1) (now + windowMs config) None,
     <[rate_key identifier := mkEntry 1 now now]> store)
  /\ getRateLimitStatus identifier config now (resetRateLimit identifier store)
     = mkStatus 0 (maxRequests config) (now + windowMs config)
  /\ forall other, other <> identifier ->
       resetRateLimit identifier store !! rate_key other = store !! rate_key other.
Proof.
  unfold resetRateLimit, checkRateLimit, getRateLimitStatus.
  rewrite lookup_delete_eq, insert_delete_eq. repeat split.
  intros other Hne. apply lookup_delete_ne.
  intros H. apply rate_key_inj in H. congruence.
Qed.

(** X3.  The status agrees with the check made at the same instant: with a
    maximum of at least 1, the check is allowed exactly when the status
    reports a positive [remaining], it then returns one less, and a
    rejection reports the status's reset time; the status never reports a
    negative [remaining]. *)
Theorem status_predicts_check
    (identifier : string) (config : RateLimitConfig) (now : Z)
    (store : gmap string RateLimitEntry) :
  1 <= maxRequests config ->
  let s := getRateLimitStatus identifier config now store in
  let r := fst (checkRateLimit identifier config now store) in
  (allowed r = true <-> status_remaining s > 0)
  /\ (allowed r = true -> remaining r = status_remaining s - 1)
  /\ (allowed r = false ->
      status_remaining s = 0 /\ resetTime r = status_resetTime s
      /\ status_count s >= maxRequests config)
  /\ 0 <= status_remaining s.
Proof.
  intros Hmax. unfold getRateLimitStatus, checkRateLimit.
  destruct (store !! rate_key identifier) as [e|]; repeat case_bool_decide;
    cbn [fst allowed remaining resetTime status_remaining status_resetTime status_count];
    repeat split; intros; try discriminate; try reflexivity; cbn [count]; lia.
Qed.

Lemma status_predicts_check_witness :
  1 <= maxRequests (RATE_LIMIT_CONFIGS flagSubmission)
  /\ status_remaining (getRateLimitStatus "u" (RATE_LIMIT_CONFIGS flagSubmission) 9000
                         {[ rate_key "u" := mkEntry 4 0 8000 ]}) = 1
  /\ remaining (fst (checkRateLimit "u" (RATE_LIMIT_CONFIGS flagSubmission) 9000
                       {[ rate_key "u" := mkEntry 4 0 8000 ]}))
     = status_remaining (getRateLimitStatus "u" (RATE_LIMIT_CONFIGS flagSubmission) 9000
                           {[ rate_key "u" := mkEntry 4 0 8000 ]}) - 1.
Proof.
  assert (H : 1 <= maxRequests (RATE_LIMIT_CONFIGS flagSubmission)) by discriminate.
  split; [exact H|]. split; [reflexivity|].
  exact (proj1 (proj2 (status_predicts_check "u" (RATE_LIMIT_CONFIGS flagSubmission) 9000
                         {[ rate_key "u" := mkEntry 4 0 8000 ]} H)) eq_refl).
Defined.

Lemma maxWindow_covers (k : ConfigKey) : windowMs (RATE_LIMIT_CONFIGS k) <= maxWindow.
Proof. destruct k; vm_compute; discriminate. Qed.

Lemma cleanup_lookup swept (store : gmap string RateLimitEntry) key :
  cleanupExpiredEntries swept store !! key
  = match store !! key with
    | Some e => if bool_decide (swept - lastRequest e > maxWindow) then None else Some e
    | None => None
    end.
Proof.
  unfold cleanupExpiredEntries.
  destruct (store !! key) as [e|] eqn:He.
  - case_bool_decide as Hold.
    + apply map_lookup_filter_None. right. intros e' He' Hkeep.
      rewrite He in He'. injection He' as <-. cbn in Hkeep. contradiction.
    + apply map_lookup_filter_Some. split; [exact He | exact Hold].
  - apply map_lookup_filter_None. left. exact He.
Qed.

(** X4.  The periodic sweep is invisible to the limiter.  For every configured
    policy, a check made at or after the sweep returns the same result and
    leaves the same entry as it would have without the sweep, provided the
    entry's first request is not after its last one (as the clock
    guarantees); the sweep keeps every entry whose last request is within the
    largest window, and adds none. *)
Theorem sweep_is_transparent
    (identifier : string) (k : ConfigKey) (swept now : Z)
    (store : gmap string RateLimitEntry) :
  swept <= now ->
  (forall e, store !! rate_key identifier = Some e -> firstRequest e <= lastRequest e) ->
  fst (checkRateLimit identifier (RATE_LIMIT_CONFIGS k) now
         (cleanupExpiredEntries swept store))
  = fst (checkRateLimit identifier (RATE_LIMIT_CONFIGS k) now store)
  /\ snd (checkRateLimit identifier (RATE_LIMIT_CONFIGS k) now
            (cleanupExpiredEntries swept store)) !! rate_key identifier
     = snd (checkRateLimit identifier (RATE_LIMIT_CONFIGS k) now store) !! rate_key identifier
  /\ (forall key e, store !! key = Some e -> swept - lastRequest e <= maxWindow ->
        cleanupExpiredEntries swept store !! key = Some e)
  /\ (forall key e, cleanupExpiredEntries swept store !! key = Some e ->
        store !! key = Some e /\ swept - lastRequest e <= maxWindow).
Proof.
  intros Hlater Horder. pose proof (maxWindow_covers k) as Hcover.
  split; [|split; [|split]].
  - unfold checkRateLimit. rewrite cleanup_lookup.
    destruct (store !! rate_key identifier) as [e|] eqn:He; [|reflexivity].
    specialize (Horder e eq_refl).
    case_bool_decide as Hold; [|repeat case_bool_decide; reflexivity].
    rewrite bool_decide_eq_true_2 by lia. reflexivity.
  - unfold checkRateLimit. rewrite cleanup_lookup.
    destruct (store !! rate_key identifier) as [e|] eqn:He.
    + specialize (Horder e eq_refl).
      case_bool_decide as Hold.
      * rewrite bool_decide_eq_true_2 by lia. cbn [snd]. now rewrite !lookup_insert_eq.
      * repeat case_bool_decide; cbn [snd]; rewrite ?lookup_insert_eq, ?cleanup_lookup, ?He;
          try reflexivity.
        now rewrite bool_decide_eq_false_2.
    + cbn [snd]. now rewrite !lookup_insert_eq.
  - intros key e He Hlive. rewrite cleanup_lookup, He.
    now rewrite bool_decide_eq_false_2 by lia.
  - intros key e. rewrite cleanup_lookup.
    destruct (store !! key) as [e'|]; [|discriminate].
    case_bool_decide; [discriminate|]. intros [= ->]. split; [reflexivity | lia].
Qed.

Lemma sweep_is_transparent_witness :
  3700000 <= 4000000
  /\ (forall e, ({[ rate_key "u" := mkEntry 5 0 4000 ]} : gmap string RateLimitEntry)
                  !! rate_key "u" = Some e -> firstRequest e <= lastRequest e)
  /\ fst (checkRateLimit "u" (RATE_LIMIT_CONFIGS passwordReset) 4000000
            (cleanupExpiredEntries 3700000 {[ rate_key "u" := mkEntry 5 0 4000 ]}))
     = fst (checkRateLimit "u" (RATE_LIMIT_CONFIGS passwordReset) 4000000
              {[ rate_key "u" := mkEntry 5 0 4000 ]}).
Proof.
  assert (H1 : 3700000 <= 4000000) by discriminate.
  assert (H2 : forall e, ({[ rate_key "u" := mkEntry 5 0 4000 ]}
                            : gmap string RateLimitEntry) !! rate_key "u" = Some e ->
                         firstRequest e <= lastRequest e).
  { intros e. rewrite lookup_singleton_eq. intros [= <-]. discriminate. }
  split; [exact H1|]. split; [exact H2|].
  exact (proj1 (sweep_is_transparent "u" passwordReset 3700000 4000000
                  {[ rate_key "u" := mkEntry 5 0 4000 ]} H1 H2)).
Defined.

Lemma slice0_exact_length n s :
  String.length (slice0 n s) = Nat.min n (String.length s).
Proof.
  revert s. induction n as [|n IH]; intros [|c s]; cbn [slice0 String.length Nat.min];
    try reflexivity. now rewrite IH.
Qed.

(** The hashed origin is always sixteen characters, with or without a
    configured salt. *)
Lemma hashIpAddress_length salt ip : String.length (hashIpAddress salt ip) = 16%nat.
Proof.
  unfold hashIpAddress, sha256_hex.
  rewrite slice0_exact_length, to_hex_length, sha256_length. reflexivity.
Qed.

Lemma append_inj_same_length (a b c d : string) :
  String.length a = String.length c -> (a ++ b)%string = (c ++ d)%string -> a = c /\ b = d.
Proof.
  revert c. induction a as [|x a IH]; intros [|y c]; cbn [String.length append];
    try discriminate.
  - auto.
  - intros [= Hlen] [= -> Hrest]. destruct (IH c Hlen Hrest) as [-> ->]. auto.
Qed.

Lemma limiter_identifier_inj k1 k2 i1 i2 :
  limiter_identifier k1 i1 = limiter_identifier k2 i2 -> k1 = k2 /\ i1 = i2.
Proof.
  unfold limiter_identifier.
  destruct k1, k2; intros H; simpl in H; try discriminate; injection H; auto.
Qed.

(** [applyRateLimit] is one check on the key of the policy and the final
    identifier. *)
Lemma applyRateLimit_footprint env request k identifier (w : World) :
  let fid := match identifier with
             | Some (String _ _ as i) => i
             | _ => hashIpAddress (FLAG_HASH_SALT env) (getClientIp request)
             end in
  let checked := checkRateLimit (limiter_identifier k fid) (RATE_LIMIT_CONFIGS k)
                   (clock env) (rateLimitStore w) in
  fst (applyRateLimit env request k identifier w) = (fst checked, fid)
  /\ rateLimitStore (snd (applyRateLimit env request k identifier w)) = snd checked
  /\ effects (snd (applyRateLimit env request k identifier w))
     = (effects w ++ [CheckRateLimit (rate_key (limiter_identifier k fid))])%list.
Proof.
  cbv zeta. unfold applyRateLimit.
  set (fid := match identifier with Some (String _ _ as i) => i | _ => _ end).
  fold (limiter_identifier k fid).
  destruct (checkRateLimit (limiter_identifier k fid) (RATE_LIMIT_CONFIGS k)
              (clock env) (rateLimitStore w)) as [r store'].
  cbn. auto.
Qed.

Lemma check_other_keys identifier config now (store : gmap string RateLimitEntry) key :
  key <> rate_key identifier ->
  snd (checkRateLimit identifier config now store) !! key = store !! key.
Proof.
  intros Hk. unfold checkRateLimit.
  destruct (store !! rate_key identifier) as [e|]; repeat case_bool_decide; cbn [snd];
    rewrite ?lookup_insert_ne by congruence; reflexivity.
Qed.

(** X5.  Limiter keys do not collide.  The key built for a policy and an
    identifier determines both, so the windows of different policies are
    independent; and the flag-submission identifier of a caller determines
    the hashed origin and the uid, so two callers that differ in either
    never share a window. *)
Theorem limiter_keys_are_separate :
  (forall k1 k2 i1 i2,
      rate_key (limiter_identifier k1 i1) = rate_key (limiter_identifier k2 i2) ->
      k1 = k2 /\ i1 = i2)
  /\ (forall env1 env2 request1 request2 usr1 usr2,
        submission_limit_key env1 request1 usr1 = submission_limit_key env2 request2 usr2 ->
        hashIpAddress (FLAG_HASH_SALT env1) (getClientIp request1)
        = hashIpAddress (FLAG_HASH_SALT env2) (getClientIp request2)
        /\ tok_uid usr1 = tok_uid usr2)
  /\ (forall env request k identifier (w : World),
        exists fid,
          snd (fst (applyRateLimit env request k identifier w)) = fid
          /\ effects (snd (applyRateLimit env request k identifier w))
             = (effects w ++ [CheckRateLimit (rate_key (limiter_identifier k fid))])%list
          /\ forall key, key <> rate_key (limiter_identifier k fid) ->
               rateLimitStore (snd (applyRateLimit env request k identifier w)) !! key
               = rateLimitStore w !! key).
Proof.
  split; [|split].
  - intros k1 k2 i1 i2 H. apply rate_key_inj in H. now apply limiter_identifier_inj.
  - intros env1 env2 request1 request2 usr1 usr2. unfold submission_limit_key. intros H.
    apply append_inj_same_length in H as [H1 H2]; [|now rewrite !hashIpAddress_length].
    split; [exact H1|]. simpl in H2. now injection H2.
  - intros env request k identifier w.
    destruct (applyRateLimit_footprint env request k identifier w) as (Hr & Hs & He).
    eexists. split; [now rewrite Hr|]. split; [exact He|].
    intros key Hkey. rewrite Hs. now apply check_other_keys.
Qed.

(* ===================================================================== *)
(** ** Sanitisers                                                          *)
(* ===================================================================== *)

Lemma string_forall_remove_matches (P : ascii -> bool) m (s : string) :
  forall k, string_forall P s = true ->
    string_forall P (remove_matches m k s) = true.
Proof.
  induction s as [|c r IH]; intros k H; [reflexivity|].
  cbn [string_forall] in H. apply andb_true_iff in H as [Hc Hr].
  cbn [remove_matches]. destruct k as [|k]; [|now apply IH].
  destruct (m (String c r)) as [[|j]|]; cbn [string_forall];
    rewrite ?Hc; try now apply IH.
Qed.

Lemma string_forall_slice0 (P : ascii -> bool) (s : string) :
  forall n, string_forall P s = true -> string_forall P (slice0 n s) = true.
Proof.
  induction s as [|c r IH]; intros [|n] H; try reflexivity.
  cbn [string_forall] in H. apply andb_true_iff in H as [Hc Hr].
  cbn [slice0 string_forall]. now rewrite Hc, IH.
Qed.

Lemma remove_angle_clean (s : string) :
  forall k, string_forall (fun c => negb (is_angle c))
              (remove_matches match_angle k s) = true.
Proof.
  induction s as [|c r IH]; intros k; [reflexivity|].
  cbn [remove_matches]. destruct k as [|k]; [|apply IH].
  cbn [match_angle]. fold (is_angle c).
  destruct (is_angle c) eqn:E; [apply IH|].
  cbn [string_forall]. now rewrite E, IH.
Qed.

Lemma remove_not_display_clean (s : string) :
  forall k, string_forall is_display_char
              (remove_matches match_not_display k s) = true.
Proof.
  induction s as [|c r IH]; intros k; [reflexivity|].
  cbn [remove_matches]. destruct k as [|k]; [|apply IH].
  cbn [match_not_display].
  destruct (is_display_char c) eqn:E; [|apply IH].
  cbn [string_forall]. now rewrite E, IH.
Qed.

Lemma slice0_bound (s : string) :
  forall n, (String.length (slice0 n s) <= n)%nat.
Proof.
  induction s as [|c r IH]; intros [|n]; cbn [slice0 String.length]; try lia.
  specialize (IH n). lia.
Qed.

(** X6.  sanitizeInput: whatever the input, the result holds no angle bracket,
    is at most 10000 code units long and never longer than the input. *)
Theorem sanitizeInput_strips_angle_brackets (input : string) :
  string_forall (fun c => negb (is_angle c)) (sanitizeInput input) = true
  /\ str_length (sanitizeInput input) <= 10000
  /\ str_length (sanitizeInput input) <= str_length input.
Proof.
  split; [|split].
  - destruct input as [|c r]; [reflexivity|].
    unfold sanitizeInput.
    apply string_forall_slice0.
    do 2 apply string_forall_remove_matches.
    apply remove_angle_clean.
  - destruct input as [|c r]; [unfold sanitizeInput, str_length, String.length; lia|].
    unfold sanitizeInput, str_length.
    pose proof (slice0_bound
      (remove_matches match_on_handler 0
         (remove_matches match_javascript 0
            (remove_matches match_angle 0 (trim (String c r)))))
      (Z.to_nat 10000)) as H.
    lia.
  - destruct input as [|c r]; [unfold sanitizeInput, str_length, String.length; lia|].
    unfold sanitizeInput, str_length.
    set (t0 := trim (String c r)).
    pose proof (trim_length (String c r)) as H0. fold t0 in H0.
    pose proof (remove_matches_length match_angle 0 t0) as H1.
    pose proof (remove_matches_length match_javascript 0
                  (remove_matches match_angle 0 t0)) as H2.
    pose proof (remove_matches_length match_on_handler 0
                  (remove_matches match_javascript 0
                     (remove_matches match_angle 0 t0))) as H3.
    pose proof (slice0_length (Z.to_nat 10000)
                  (remove_matches match_on_handler 0
                     (remove_matches match_javascript 0
                        (remove_matches match_angle 0 t0)))) as H4.
    lia.
Qed.

(** X7.  sanitizeDisplayName: the result holds only letters, digits,
    underscores, hyphens and white space, is at most 50 code units long and
    never longer than the name. *)
Theorem sanitizeDisplayName_keeps_only_safe_characters (name : string) :
  string_forall is_display_char (sanitizeDisplayName name) = true
  /\ str_length (sanitizeDisplayName name) <= 50
  /\ str_length (sanitizeDisplayName name) <= str_length name.
Proof.
  destruct name as [|c r];
    [unfold sanitizeDisplayName, str_length, String.length; repeat split; lia|].
  unfold sanitizeDisplayName, str_length.
  set (t := remove_matches match_not_display 0 (trim (String c r))).
  split; [|split].
  - apply string_forall_slice0, remove_not_display_clean.
  - pose proof (slice0_bound t 50). lia.
  - pose proof (slice0_length 50 t).
    pose proof (remove_matches_length match_not_display 0 (trim (String c r))).
    pose proof (trim_length (String c r)).
    fold t in H0. lia.
Qed.

(* ===================================================================== *)
(** ** Normalisation of flags                                              *)
(* ===================================================================== *)

Lemma whitespace_lower_char (c : ascii) :
  is_js_whitespace (lower_char c) = is_js_whitespace c.
Proof. destruct c as [[] [] [] [] [] [] [] []]; reflexivity. Qed.

Lemma lower_char_idem (c : ascii) : lower_char (lower_char c) = lower_char c.
Proof. destruct c as [[] [] [] [] [] [] [] []]; reflexivity. Qed.

Lemma toLowerCase_idem (s : string) : toLowerCase (toLowerCase s) = toLowerCase s.
Proof.
  induction s as [|c r IH]; [reflexivity|].
  cbn [toLowerCase]. now rewrite lower_char_idem, IH.
Qed.

Lemma trimStart_toLowerCase (s : string) :
  trimStart (toLowerCase s) = toLowerCase (trimStart s).
Proof.
  induction s as [|c r IH]; [reflexivity|].
  cbn [toLowerCase trimStart]. rewrite whitespace_lower_char.
  destruct (is_js_whitespace c); [exact IH|reflexivity].
Qed.

Lemma trimEnd_toLowerCase (s : string) :
  trimEnd (toLowerCase s) = toLowerCase (trimEnd s).
Proof.
  induction s as [|c r IH]; [reflexivity|].
  cbn [toLowerCase trimEnd]. rewrite IH, whitespace_lower_char.
  destruct (trimEnd r) as [|d r']; cbn [toLowerCase].
  - now destruct (is_js_whitespace c).
  - reflexivity.
Qed.

Lemma trim_toLowerCase (s : string) : trim (toLowerCase s) = toLowerCase (trim s).
Proof. unfold trim. now rewrite trimStart_toLowerCase, trimEnd_toLowerCase. Qed.

Lemma trimEnd_idem (s : string) : trimEnd (trimEnd s) = trimEnd s.
Proof.
  induction s as [|c r IH]; [reflexivity|].
  cbn [trimEnd]. destruct (trimEnd r) as [|d r'] eqn:E.
  - destruct (is_js_whitespace c) eqn:Ec; [reflexivity|].
    cbn [trimEnd]. now rewrite Ec.
  - cbn [trimEnd]. cbn [trimEnd] in IH. now rewrite IH.
Qed.

Lemma trimStart_head (s : string) :
  trimStart s = EmptyString
  \/ exists c r, trimStart s = String c r /\ is_js_whitespace c = false.
Proof.
  induction s as [|c r IH]; [now left|].
  cbn [trimStart]. destruct (is_js_whitespace c) eqn:E; [exact IH|].
  right. now exists c, r.
Qed.

Lemma trimStart_trimEnd_trimStart (s : string) :
  trimStart (trimEnd (trimStart s)) = trimEnd (trimStart s).
Proof.
  destruct (trimStart_head s) as [->|(c & r & -> & Hc)]; [reflexivity|].
  cbn [trimEnd]. destruct (trimEnd r); rewrite ?Hc; cbn [trimStart]; now rewrite Hc.
Qed.

Lemma trim_idem (s : string) : trim (trim s) = trim s.
Proof. unfold trim. now rewrite trimStart_trimEnd_trimStart, trimEnd_idem. Qed.

Lemma trimStart_whitespace (p : string) :
  string_forall is_js_whitespace p = true -> trimStart p = EmptyString.
Proof.
  induction p as [|c r IH]; [reflexivity|].
  cbn [string_forall trimStart]. intros [Hc Hr]%andb_true_iff.
  rewrite Hc. now apply IH.
Qed.

Lemma trimEnd_whitespace (p : string) :
  string_forall is_js_whitespace p = true -> trimEnd p = EmptyString.
Proof.
  induction p as [|c r IH]; [reflexivity|].
  cbn [string_forall trimEnd]. intros [Hc Hr]%andb_true_iff.
  now rewrite (IH Hr), Hc.
Qed.

Lemma trimEnd_app_whitespace (s p : string) :
  string_forall is_js_whitespace p = true -> trimEnd (s ++ p) = trimEnd s.
Proof.
  intros Hp. induction s as [|c r IH]; [now apply trimEnd_whitespace|].
  change (String c r ++ p) with (String c (r ++ p)).
  cbn [trimEnd]. now rewrite IH.
Qed.

Lemma trim_app_whitespace (s p : string) :
  string_forall is_js_whitespace p = true -> trim (s ++ p) = trim s.
Proof.
  intros Hp. unfold trim. induction s as [|c r IH].
  - change (EmptyString ++ p) with p. now rewrite trimStart_whitespace.
  - change (String c r ++ p) with (String c (r ++ p)).
    cbn [trimStart]. destruct (is_js_whitespace c); [exact IH|].
    change (String c (r ++ p)) with (String c r ++ p).
    now apply trimEnd_app_whitespace.
Qed.

Lemma trim_whitespace_app (p s : string) :
  string_forall is_js_whitespace p = true -> trim (p ++ s) = trim s.
Proof.
  unfold trim. induction p as [|c r IH]; [reflexivity|].
  cbn [string_forall]. intros [Hc Hr]%andb_true_iff.
  change (String c r ++ s) with (String c (r ++ s)).
  cbn [trimStart]. rewrite Hc. now apply IH.
Qed.

(** X8.  hashFlag, validateFlag: the fingerprint of a flag does not change when
    the flag is trimmed or lower-cased first, so a submission that differs
    from another only in case or in surrounding white space is judged
    exactly like it, against every stored fingerprint. *)
Theorem fingerprint_ignores_case_and_padding (salt : option string) (flag : string) :
  hashFlag salt (trim flag) = hashFlag salt flag
  /\ hashFlag salt (toLowerCase flag) = hashFlag salt flag
  /\ (forall pad1 pad2 : string,
        string_forall is_js_whitespace pad1 = true ->
        string_forall is_js_whitespace pad2 = true ->
        hashFlag salt (pad1 ++ flag ++ pad2) = hashFlag salt flag)
  /\ (forall stored : string,
        validateFlag salt (toLowerCase (trim flag)) stored
        = validateFlag salt flag stored).
Proof.
  assert (Hnorm : forall f g : string,
            toLowerCase (trim f) = toLowerCase (trim g) ->
            hashFlag salt f = hashFlag salt g).
  { intros f g E. unfold hashFlag. destruct salt as [[|a s]|]; try reflexivity.
    now rewrite E. }
  split; [|split; [|split]].
  - apply Hnorm. now rewrite trim_idem.
  - apply Hnorm. now rewrite trim_toLowerCase, toLowerCase_idem.
  - intros pad1 pad2 H1 H2. apply Hnorm.
    now rewrite trim_whitespace_app, trim_app_whitespace.
  - intros stored. unfold validateFlag.
    replace (hashFlag salt (toLowerCase (trim flag))) with (hashFlag salt flag);
      [reflexivity|].
    symmetry. apply Hnorm.
    now rewrite trim_toLowerCase, toLowerCase_idem, trim_idem.
Qed.

(** X9.  validateFlag: with a configured salt the comparison never throws,
    whatever text is stored as the fingerprint (too short, too long, not
    hexadecimal): it answers true exactly when the stored text decodes to
    the 32 digest bytes of the submission.  Without a salt it always throws
    the configuration error. *)
Theorem validateFlag_answers_for_any_stored_text
    (salt : option string) (submitted stored : string) :
  (truthy salt = true ->
     validateFlag salt submitted stored
     = Returned (bool_decide
                   (buffer_from_hex stored = flag_digest (default "" salt) submitted))
     /\ (length (buffer_from_hex stored) <> 32%nat ->
         validateFlag salt submitted stored = Returned false))
  /\ (truthy salt = false ->
      validateFlag salt submitted stored
      = Threw "FLAG_HASH_SALT environment variable is not set").
Proof.
  split.
  - intros Hsalt.
    assert (E : validateFlag salt submitted stored
                = Returned (bool_decide
                    (buffer_from_hex stored = flag_digest (default "" salt) submitted))).
    { unfold validateFlag. rewrite (hashFlag_configured salt submitted Hsalt).
      unfold flag_digest.
      rewrite buffer_from_hex_to_hex by apply sha256_bytes.
      destruct (length (sha256 (utf8 (default "" salt ++ toLowerCase (trim submitted))))
                =? length (buffer_from_hex stored))%nat eqn:El; cbn [negb].
      - apply Nat.eqb_eq in El. rewrite (timingSafeEqual_spec _ _ El).
        f_equal. apply bool_decide_ext. split; congruence.
      - apply Nat.eqb_neq in El. f_equal. symmetry. apply bool_decide_eq_false.
        intros E. apply El. now rewrite E. }
    split; [exact E|].
    intros Hlen. rewrite E. f_equal. apply bool_decide_eq_false.
    intros E'. apply Hlen. rewrite E'. unfold flag_digest. apply sha256_length.
  - intros Hsalt. unfold validateFlag, hashFlag.
    destruct salt as [[|c s]|]; cbn [truthy] in Hsalt; try discriminate; reflexivity.
Qed.

(* ===================================================================== *)
(** ** Password and email validation                                       *)
(* ===================================================================== *)

Lemma digit_is_password_symbol (c : ascii) :
  is_digit c = true -> is_password_symbol c = true.
Proof.
  unfold is_digit, is_password_symbol. cbv zeta.
  intros [H1 H2]%andb_true_iff.
  apply orb_true_iff; left. apply orb_true_iff; right.
  apply andb_true_iff. split; lia.
Qed.

Lemma string_exists_impl (P Q : ascii -> bool) (s : string) :
  (forall c, P c = true -> Q c = true) ->
  string_exists P s = true -> string_exists Q s = true.
Proof.
  intros HPQ. induction s as [|c r IH]; [discriminate|].
  cbn [string_exists]. intros [H|H]%orb_true_iff; apply orb_true_iff; auto.
Qed.

(** X10.  validatePassword: a password is accepted exactly when it has 12 to 128
    code units, an upper-case letter, a lower-case letter and a digit, and
    matches none of the common patterns.  The special-character test adds
    nothing to this: its character class holds the range from plus to
    equals, which contains the ten digits, so the special-character error
    is never reported for a password that holds a digit. *)
Theorem password_accepted_iff (password : string) :
  (pv_isValid (validatePassword password) = true
   <-> 12 <= str_length password <= 128
       /\ string_exists is_upper password = true
       /\ string_exists is_lower password = true
       /\ string_exists is_digit password = true
       /\ matches_common_pattern password = false)
  /\ (string_exists is_digit password = true ->
      ("Password must contain at least one special character"
         ∉ pv_errors (validatePassword password))).
Proof.
  pose proof (string_exists_impl is_digit is_password_symbol password
                digit_is_password_symbol) as Hsym.
  unfold validatePassword, password_errors; cbn [pv_isValid pv_errors].
  split.
  - destruct (str_length password <? 12) eqn:E1;
    destruct (str_length password >? 128) eqn:E2;
    destruct (string_exists is_upper password) eqn:E3;
    destruct (string_exists is_lower password) eqn:E4;
    destruct (string_exists is_digit password) eqn:E5;
    destruct (string_exists is_password_symbol password) eqn:E6;
    destruct (matches_common_pattern password) eqn:E7;
    cbn [app];
    try (specialize (Hsym eq_refl); discriminate);
    (split; [intros H; try discriminate H | intros (H & ? & ? & ? & ?); try discriminate]);
    try reflexivity; try lia.
  - intros Hd. rewrite Hd, (Hsym Hd).
    destruct (str_length password <? 12), (str_length password >? 128),
      (string_exists is_upper password), (string_exists is_lower password),
      (matches_common_pattern password); cbn [app];
      intros H; repeat (apply elem_of_cons in H as [H|H]; [discriminate H|]);
      now apply elem_of_nil in H.
Qed.

(** X11.  validatePassword: every accepted password is rated strong or very
    strong, and very strong exactly from 20 code units on. *)
Theorem accepted_password_strength (password : string) :
  pv_isValid (validatePassword password) = true ->
  pv_strength (validatePassword password)
  = if str_length password >=? 20 then very_strong else strong.
Proof.
  pose proof (string_exists_impl is_digit is_password_symbol password
                digit_is_password_symbol) as Hsym.
  unfold validatePassword, password_errors, password_score;
    cbn [pv_isValid pv_strength]. cbv zeta.
  destruct (str_length password <? 12) eqn:E1; [discriminate|].
  destruct (str_length password >? 128) eqn:E2; [discriminate|].
  destruct (string_exists is_upper password); [|discriminate].
  destruct (string_exists is_lower password); [|discriminate].
  destruct (string_exists is_digit password); [|discriminate].
  rewrite (Hsym eq_refl).
  destruct (matches_common_pattern password); [discriminate|].
  intros _.
  destruct (str_length password >=? 16) eqn:E3;
    destruct (str_length password >=? 20) eqn:E4; try reflexivity.
  lia.
Qed.

Lemma accepted_password_strength_witness :
  pv_isValid (validatePassword "Abcdefghijk1") = true
  /\ pv_strength (validatePassword "Abcdefghijk1") = strong.
Proof.
  split; [reflexivity|].
  exact (accepted_password_strength "Abcdefghijk1" eq_refl).
Defined.

Lemma split_first_spec (sep : ascii) (s a b : string) :
  split_first sep s = Some (a, b) ->
  s = a ++ String sep b /\ string_forall (fun c => negb (bool_decide (c = sep))) a = true.
Proof.
  revert a b. induction s as [|c r IH]; intros a b; [discriminate|].
  cbn [split_first]. case_bool_decide as Hc.
  - intros [= <- <-]. subst c. now split.
  - destruct (split_first sep r) as [[a' b']|]; [|discriminate].
    intros [= <- <-]. destruct (IH a' b' eq_refl) as [-> Ha].
    split; [reflexivity|]. cbn [string_forall].
    rewrite Ha. now rewrite bool_decide_eq_false_2.
Qed.

Lemma string_forall_app (P : ascii -> bool) (a b : string) :
  string_forall P (a ++ b) = string_forall P a && string_forall P b.
Proof.
  induction a as [|c r IH]; [reflexivity|].
  change (String c r ++ b) with (String c (r ++ b)).
  cbn [string_forall]. now rewrite IH, andb_assoc.
Qed.

Lemma string_forall_impl (P Q : ascii -> bool) (s : string) :
  (forall c, P c = true -> Q c = true) ->
  string_forall P s = true -> string_forall Q s = true.
Proof.
  intros HPQ. induction s as [|c r IH]; [reflexivity|].
  cbn [string_forall]. intros [H1 H2]%andb_true_iff.
  now rewrite (HPQ c H1), IH.
Qed.

Lemma label_ok_chars (l : string) :
  label_ok l = true -> l <> EmptyString /\ string_forall is_label_char l = true.
Proof.
  destruct l as [|c r]; [discriminate|].
  unfold label_ok. intros H.
  repeat (apply andb_true_iff in H as [H ?]).
  now split.
Qed.

Lemma domain_ok_chars (fuel : nat) :
  forall d, domain_ok fuel d = true ->
    d <> EmptyString /\ string_forall is_domain_char d = true.
Proof.
  induction fuel as [|k IH]; intros d; [discriminate|].
  cbn [domain_ok]. destruct (split_first "." d) as [[l rest]|] eqn:E.
  - intros [Hl Hr]%andb_true_iff.
    apply split_first_spec in E as [-> _].
    destruct (label_ok_chars l Hl) as [Hne Hchars].
    destruct (IH rest Hr) as [_ Hrest].
    split; [destruct l; [contradiction|discriminate]|].
    rewrite string_forall_app. cbn [string_forall].
    rewrite Hrest.
    rewrite (string_forall_impl is_label_char is_domain_char l); [reflexivity| |exact Hchars].
    intros c Hc. unfold is_domain_char. now rewrite Hc.
  - intros Hl. destruct (label_ok_chars d Hl) as [Hne Hchars].
    split; [exact Hne|].
    apply (string_forall_impl is_label_char is_domain_char); [|exact Hchars].
    intros c Hc. unfold is_domain_char. now rewrite Hc.
Qed.

Lemma local_char_not_whitespace (c : ascii) :
  is_local_char c = true -> negb (is_js_whitespace c) = true.
Proof. destruct c as [[] [] [] [] [] [] [] []]; cbv; congruence. Qed.

Lemma domain_char_not_whitespace (c : ascii) :
  is_domain_char c = true -> negb (is_js_whitespace c) = true.
Proof. destruct c as [[] [] [] [] [] [] [] []]; cbv; congruence. Qed.

(** X12.  validateEmail: an accepted address is at most 254 code units long and
    reads local part, at sign, domain, both non-empty; the local part holds
    only letters, digits and the marks of the pattern, the domain only
    letters, digits, hyphens and dots.  So an address with white space
    anywhere, also at either end, or with a second at sign is refused. *)
Theorem accepted_email_shape (email : string) :
  vr_isValid (validateEmail email) = true ->
  str_length email <= 254
  /\ (exists local domain : string,
        email = local ++ String "@" domain
        /\ local <> EmptyString /\ domain <> EmptyString
        /\ string_forall is_local_char local = true
        /\ string_forall is_domain_char domain = true)
  /\ string_forall (fun c => negb (is_js_whitespace c)) email = true.
Proof.
  unfold validateEmail; cbn [vr_isValid].
  destruct ((match email with EmptyString => true | _ => false end)
            || (str_length (trim email) =? 0)); [discriminate|].
  destruct (email_regex_test email) eqn:Ere; cbn [negb]; [|discriminate].
  destruct (str_length email >? 254) eqn:Elen; [discriminate|].
  intros _. split; [lia|].
  unfold email_regex_test in Ere.
  destruct (split_first "@" email) as [[local domain]|] eqn:Es; [|discriminate].
  apply split_first_spec in Es as [-> _].
  destruct local as [|c r]; [discriminate|].
  apply andb_true_iff in Ere as [Hloc Hdom].
  apply domain_ok_chars in Hdom as [Hne Hdom].
  split.
  - exists (String c r), domain. repeat split; try assumption. discriminate.
  - rewrite string_forall_app.
    rewrite (string_forall_impl _ _ _ local_char_not_whitespace Hloc).
    change (string_forall (fun c => negb (is_js_whitespace c)) (String "@" domain))
      with (string_forall (fun c => negb (is_js_whitespace c)) domain).
    exact (string_forall_impl _ _ _ domain_char_not_whitespace Hdom).
Qed.

Lemma accepted_email_shape_witness :
  vr_isValid (validateEmail "player.one@ctf-platform.example") = true
  /\ str_length "player.one@ctf-platform.example" <= 254.
Proof.
  split; [reflexivity|].
  exact (proj1 (accepted_email_shape "player.one@ctf-platform.example" eq_refl)).
Defined.

(* ===================================================================== *)
(** ** The submission handler and the limiter                              *)
(* ===================================================================== *)

Lemma evaluate_limiter env request ctx ipH c flag (w : World) :
  rateLimitStore (snd (evaluate_submission env request ctx ipH c flag w)) = rateLimitStore w.
Proof.
  open_try; unfold submission_error.
  case_bool_decide; [reflexivity|].
  destruct (doc c) as [ref|m]; [|reflexivity].
  cbn [emit challenges effects].
  destruct (store_fault env _); [reflexivity|].
  destruct (get_doc (challenges w) ref) as [ch|]; [|reflexivity].
  destruct (negb (isActive ch)); [reflexivity|].
  destruct (validateFlag _ _ _) as [isCorrect|m]; [|reflexivity].
  destruct (store_fault env _); [reflexivity|].
  destruct isCorrect; [|reflexivity].
  destruct (store_fault env _); [reflexivity|].
  match goal with |- context [runTransaction ?u ?cc ?p ?w0] =>
    destruct (runTransaction u cc p w0) as [w5|m] eqn:Hrun; [|reflexivity];
    pose proof (transaction_frame _ _ _ _ _ Hrun) as (_ & _ & Hrl & _)
  end.
  destruct (store_fault env _); cbn [snd emit logSecurityEvent rateLimitStore];
    rewrite Hrl; reflexivity.
Qed.

(** X13.  POST /api/challenges/submit and the limiter: a request that does not
    authenticate leaves the limiter as it was; every request that does is
    counted by exactly one check on the caller's flag-submission key,
    whatever its body (unreadable, malformed, or a challenge already
    solved) and whatever the verdict. *)
Theorem submission_counts_every_authenticated_request
    (env : Env) (request : Request) (w : World) :
  rateLimitStore (snd (POST env request w))
  = match fst (authenticateRequest env request true w) with
    | Returned (inr ctx) =>
        snd (checkRateLimit
               (limiter_identifier flagSubmission
                  (submission_limit_key env request (user ctx)))
               (RATE_LIMIT_CONFIGS flagSubmission) (clock env) (rateLimitStore w))
    | _ => rateLimitStore w
    end.
Proof.
  open_POST.
  pose proof (authenticate_stores env request true w) as (_ & _ & Hr1 & _).
  destruct (authenticateRequest env request true w) as [[[resp|ctx]|m] w1] eqn:Hauth;
    cbn [snd fst] in *; try exact Hr1.
  fold (submission_limit_key env request (user ctx)).
  pose proof (applyRateLimit_footprint env request flagSubmission
                (Some (submission_limit_key env request (user ctx))) w1) as (_ & Hs & _).
  cbv zeta in Hs.
  assert (Hid : match Some (submission_limit_key env request (user ctx)) with
                | Some (String _ _ as i) => i
                | _ => hashIpAddress (FLAG_HASH_SALT env) (getClientIp request)
                end = submission_limit_key env request (user ctx)).
  { unfold submission_limit_key, hashIpAddress.
    pose proof (hashIpAddress_length (FLAG_HASH_SALT env) (getClientIp request)) as Hl.
    unfold hashIpAddress in Hl.
    destruct (slice0 16 _) as [|a r] eqn:E; [discriminate Hl|reflexivity]. }
  rewrite Hid, Hr1 in Hs. rewrite <- Hs.
  destruct (applyRateLimit env request flagSubmission _ w1) as [[rl fid] w2];
    cbn [snd] in *.
  destruct (negb (allowed rl)); [reflexivity|].
  destruct (req_json request) as [| |cid flag]; try reflexivity.
  destruct (nonempty_string cid) as [c|]; [|reflexivity].
  destruct (nonempty_string flag) as [f|]; [|reflexivity].
  destruct (_ || _); [reflexivity|].
  apply evaluate_limiter.
Qed.

(** X14.  POST /api/challenges/submit: an answer other than the 500 of the
    [catch] block that carries no [correct: true] verdict (a rejection, or
    the verdict incorrect or already solved) comes with every score, every
    solved list and every solve counter as they were. *)
Theorem unrewarded_submission_changes_no_score
    (env : Env) (request : Request) (w : World) (resp : Response) :
  fst (POST env request w) = Responded resp ->
  status resp <> 500 ->
  (forall d, data (body resp) = Some (DSubmit d) -> correct d = false) ->
  users (snd (POST env request w)) = users w
  /\ challenges (snd (POST env request w)) = challenges w.
Proof.
  intros Hresp H500 Hverdict.
  destruct (POST_cases env request w)
    as [(Hu & Hc & _) | (ctx & w2 & c & f & Hgates & _ & _ & _ & HPOST)]; [auto|].
  destruct (passes_gates_stores _ _ _ _ _ Hgates) as (Hu2 & Hc2 & _).
  rewrite HPOST in Hresp |- *.
  destruct (evaluate_cases env request ctx
              (hashIpAddress (FLAG_HASH_SALT env) (getClientIp request))
              c (sanitizeInput f) w2)
    as [(_ & _ & ->) | [(_ & _ & -> & -> & _) | [(_ & Hr) | [(_ & _ & -> & -> & _)
       | (_ & k & ch & w4 & w5 & _ & _ & _ & _ & _ & _ & _ & _ & _ & _ & Hr)]]]]; auto.
  - rewrite Hr in Hresp. injection Hresp as <-. now contradiction H500.
  - rewrite Hr in Hresp. injection Hresp as <-.
    specialize (Hverdict _ eq_refl). discriminate Hverdict.
Qed.

Lemma unrewarded_submission_changes_no_score_witness :
  fst (POST (sample_env 1000) (submit_request "tok-alice" "c1" "ctf{guess}") sample_world)
  = Responded incorrect_response
  /\ users (snd (POST (sample_env 1000) (submit_request "tok-alice" "c1" "ctf{guess}")
                   sample_world)) = users sample_world.
Proof.
  assert (H : fst (POST (sample_env 1000) (submit_request "tok-alice" "c1" "ctf{guess}")
                     sample_world) = Responded incorrect_response)
    by (vm_compute; reflexivity).
  split; [exact H|].
  refine (proj1 (unrewarded_submission_changes_no_score (sample_env 1000)
                   (submit_request "tok-alice" "c1" "ctf{guess}") sample_world
                   incorrect_response H _ _)).
  - cbn. lia.
  - intros d [= <-]. reflexivity.
Defined.

(** X15.  POST /api/challenges/submit: every verdict correct or incorrect is
    answered after exactly one submission record was added, for the
    caller's uid and the challenge id of the body, with the verdict of the
    answer, the 16-digit hash of the client address (never the address) and
    at most 256 code units of the user agent. *)
Theorem verdict_is_recorded
    (env : Env) (request : Request) (w : World) (resp : Response) (d : SubmitData) :
  fst (POST env request w) = Responded resp ->
  data (body resp) = Some (DSubmit d) ->
  sd_message d <> ALREADY_SOLVED ->
  exists tok c f record,
    bearer_identity env request = Some tok
    /\ req_json request = BodyFields (VString c) (VString f)
    /\ submissions (snd (POST env request w)) = (submissions w ++ [record])%list
    /\ record = submission_record request tok
                  (hashIpAddress (FLAG_HASH_SALT env) (getClientIp request)) c (correct d)
    /\ String.length (sub_ipAddress record) = 16%nat
    /\ (String.length (sub_userAgent record) <= 256)%nat.
Proof.
  intros Hresp Hdata Hmsg.
  destruct (POST_cases env request w)
    as [(_ & _ & _ & Hnone) | (ctx & w2 & c & f & Hgates & Hbody & _ & _ & HPOST)].
  { rewrite Hresp in Hnone. destruct Hnone as (Hnone & _). congruence. }
  destruct (passes_gates_stores _ _ _ _ _ Hgates) as (_ & _ & Hs2).
  destruct Hgates as (w1 & rl & fid & Hauth & _ & _).
  destruct (authenticate_identity _ _ _ _ _ _ Hauth) as (Hid & _).
  rewrite HPOST in Hresp |- *.
  assert (Hshape : forall b,
    String.length (sub_ipAddress (submission_record request (user ctx)
        (hashIpAddress (FLAG_HASH_SALT env) (getClientIp request)) c b)) = 16%nat
    /\ (String.length (sub_userAgent (submission_record request (user ctx)
        (hashIpAddress (FLAG_HASH_SALT env) (getClientIp request)) c b)) <= 256)%nat).
  { intros b. cbn [submission_record sub_ipAddress sub_userAgent].
    split; [apply hashIpAddress_length | apply slice0_bound]. }
  destruct (evaluate_cases env request ctx
              (hashIpAddress (FLAG_HASH_SALT env) (getClientIp request))
              c (sanitizeInput f) w2)
    as [(_ & Hr & _) | [(_ & Hr & _) | [(_ & Hr) | [(_ & Hr & _ & _ & Hsub & _)
       | (_ & k & ch & w4 & w5 & _ & _ & _ & _ & _ & _ & _ & _ & _ & Hsub & Hr)]]]];
    rewrite Hr in Hresp; injection Hresp as <-; cbn in Hdata;
    try discriminate Hdata; injection Hdata as <-;
    try (now contradiction Hmsg).
  - exists (user ctx), c, f, (submission_record request (user ctx)
        (hashIpAddress (FLAG_HASH_SALT env) (getClientIp request)) c false).
    rewrite Hsub, Hs2. cbn [correct]. destruct (Hshape false). auto 10.
  - exists (user ctx), c, f, (submission_record request (user ctx)
        (hashIpAddress (FLAG_HASH_SALT env) (getClientIp request)) c true).
    rewrite Hsub, Hs2. cbn [correct]. destruct (Hshape true). auto 10.
Qed.

Lemma verdict_is_recorded_witness :
  exists tok c f record,
    bearer_identity (sample_env 1000) (submit_request "tok-alice" "c1" "ctf{guess}")
    = Some tok
    /\ req_json (submit_request "tok-alice" "c1" "ctf{guess}")
       = BodyFields (VString c) (VString f)
    /\ submissions (snd (POST (sample_env 1000)
                           (submit_request "tok-alice" "c1" "ctf{guess}") sample_world))
       = (submissions sample_world ++ [record])%list
    /\ record = submission_record (submit_request "tok-alice" "c1" "ctf{guess}") tok
                  (hashIpAddress (FLAG_HASH_SALT (sample_env 1000))
                     (getClientIp (submit_request "tok-alice" "c1" "ctf{guess}")))
                  c false
    /\ String.length (sub_ipAddress record) = 16%nat
    /\ (String.length (sub_userAgent record) <= 256)%nat.
Proof.
  refine (verdict_is_recorded (sample_env 1000)
            (submit_request "tok-alice" "c1" "ctf{guess}") sample_world
            incorrect_response (mkSubmitData false FLAG_INCORRECT None None) _ _ _).
  - vm_compute. reflexivity.
  - reflexivity.
  - discriminate.
Defined.

Lemma bearer_identity_ext env env' request :
  idTokens env' = idTokens env ->
  bearer_identity env' request = bearer_identity env request.
Proof. unfold bearer_identity. now intros ->. Qed.

(** The snapshot of a caller whose stored solved list holds the challenge
    sends the [try] block into its first branch. *)
Lemma evaluate_already_solved env request ctx ipH c flag (w : World) :
  c ∈ snapshot_solved ctx ->
  evaluate_submission env request ctx ipH c flag w
  = (Responded already_solved_response, w).
Proof.
  intros Hin. open_try. fold (snapshot_solved ctx).
  now rewrite bool_decide_eq_true_2.
Qed.

(** X16.  POST /api/challenges/submit, twice: once a submission was answered
    [correct: true], the same request sent again (at any later time, under
    any state of the limiter) is never rewarded again: it changes no score,
    no solved list, no solve counter and adds no submission record, and
    when it is answered with status 200 the answer is that the challenge is
    already solved. *)
Theorem correct_answer_is_rewarded_once
    (env env' : Env) (request : Request) (w : World) (resp : Response) (d : SubmitData) :
  fst (POST env request w) = Responded resp ->
  data (body resp) = Some (DSubmit d) ->
  correct d = true ->
  idTokens env' = idTokens env ->
  users (snd (POST env' request (snd (POST env request w))))
  = users (snd (POST env request w))
  /\ challenges (snd (POST env' request (snd (POST env request w))))
     = challenges (snd (POST env request w))
  /\ submissions (snd (POST env' request (snd (POST env request w))))
     = submissions (snd (POST env request w))
  /\ forall resp',
       fst (POST env' request (snd (POST env request w))) = Responded resp' ->
       status resp' = 200 ->
       resp' = already_solved_response.
Proof.
  intros Hresp Hdata Hcorrect Htokens.
  destruct (POST_cases env request w)
    as [(_ & _ & _ & Hnone) | (ctx & w2 & c & f & Hgates & Hbody & _ & _ & HPOST)].
  { rewrite Hresp in Hnone. destruct Hnone as (Hnone & _). congruence. }
  destruct Hgates as (w1 & rl & fid & Hauth & _ & _).
  destruct (authenticate_identity _ _ _ _ _ _ Hauth) as (Hid & _).
  assert (Hsolved : c ∈ stored_solved (snd (POST env request w)) (tok_uid (user ctx))).
  { rewrite HPOST in Hresp |- *.
    destruct (evaluate_cases env request ctx
                (hashIpAddress (FLAG_HASH_SALT env) (getClientIp request))
                c (sanitizeInput f) w2)
      as [(_ & Hr & _) | [(_ & Hr & _) | [(_ & Hr) | [(_ & Hr & _)
         | (_ & k & ch & w4 & w5 & _ & _ & _ & _ & _ & _ & Hrun & Hu & _)]]]];
      try (rewrite Hr in Hresp; injection Hresp as <-; cbn in Hdata;
           try discriminate Hdata; injection Hdata as <-; discriminate Hcorrect).
    unfold stored_solved. rewrite Hu.
    pose proof (transaction_marks_solved _ _ _ _ _ Hrun) as Hin.
    unfold ledger_record in Hin.
    destruct (users w5 !! tok_uid (user ctx)) as [u|]; [exact Hin|].
    cbn in Hin. now apply elem_of_nil in Hin. }
  set (w' := snd (POST env request w)) in *.
  destruct (POST_cases env' request w')
    as [(Hu & Hc & Hs & Hnone)
       | (ctx' & w2' & c' & f' & Hgates' & Hbody' & _ & _ & HPOST')].
  { repeat split; try assumption.
    intros resp' Hresp' H200. rewrite Hresp' in Hnone. now destruct Hnone as (_ & ? & _). }
  destruct (passes_gates_stores _ _ _ _ _ Hgates') as (Hu2 & Hc2 & Hs2).
  destruct Hgates' as (w1' & rl' & fid' & Hauth' & _ & _).
  destruct (authenticate_identity _ _ _ _ _ _ Hauth') as (Hid' & _ & Hdata' & _).
  rewrite (bearer_identity_ext _ _ _ Htokens), Hid in Hid'. injection Hid' as Hsame.
  rewrite Hbody in Hbody'. injection Hbody' as <- <-.
  assert (Hin : c ∈ snapshot_solved ctx').
  { unfold snapshot_solved. rewrite Hdata', <- Hsame. exact Hsolved. }
  rewrite HPOST', (evaluate_already_solved _ _ _ _ _ _ _ Hin). cbn [fst snd].
  repeat split; try assumption.
  now intros resp' [= <-] _.
Qed.

Lemma correct_answer_is_rewarded_once_witness :
  fst (POST (sample_env 1000)
         (submit_request "tok-alice" "c1" " CTF{Rotate_Me_Baby_One_More_Time} ")
         sample_world)
  = Responded (correct_response 250 750)
  /\ users (snd (POST (sample_env 2000)
                   (submit_request "tok-alice" "c1" " CTF{Rotate_Me_Baby_One_More_Time} ")
                   (snd (POST (sample_env 1000)
                           (submit_request "tok-alice" "c1"
                              " CTF{Rotate_Me_Baby_One_More_Time} ")
                           sample_world))))
     = users (snd (POST (sample_env 1000)
                     (submit_request "tok-alice" "c1" " CTF{Rotate_Me_Baby_One_More_Time} ")
                     sample_world)).
Proof.
  assert (H : fst (POST (sample_env 1000)
                     (submit_request "tok-alice" "c1" " CTF{Rotate_Me_Baby_One_More_Time} ")
                     sample_world)
              = Responded (correct_response 250 750))
    by (vm_compute; reflexivity).
  split; [exact H|].
  exact (proj1 (correct_answer_is_rewarded_once (sample_env 1000) (sample_env 2000)
                  (submit_request "tok-alice" "c1" " CTF{Rotate_Me_Baby_One_More_Time} ")
                  sample_world (correct_response 250 750)
                  (mkSubmitData true FLAG_CORRECT (Some 250) (Some 750))
                  H eq_refl eq_refl eq_refl)).
Defined.

(** X17.  GET /api/challenges consults the limiter before it looks at the token
    (the submission handler does the opposite).  Every request, with or
    without a valid token, is counted by one check on the key of the hashed
    client address; a rejected check is answered 429 with no call to the
    identity provider or the store; and no run of the handler writes to the
    users, the challenges or the submissions. *)
Theorem listing_limits_before_authenticating
    (env : Env) (request : Request) (w : World) :
  let checked := checkRateLimit
                   (limiter_identifier general
                      (hashIpAddress (FLAG_HASH_SALT env) (getClientIp request)))
                   (RATE_LIMIT_CONFIGS general) (clock env) (rateLimitStore w) in
  rateLimitStore (snd (GET env request w)) = snd checked
  /\ (exists rest,
        effects (snd (GET env request w))
        = (effects w ++ CheckRateLimit (listing_limit_key env request) :: rest)%list
        /\ no_rate_check rest)
  /\ (allowed (fst checked) = false ->
      fst (GET env request w) = Responded (rateLimitedResponse (fst checked))
      /\ effects (snd (GET env request w))
         = (effects w ++ [CheckRateLimit (listing_limit_key env request)])%list)
  /\ users (snd (GET env request w)) = users w
  /\ challenges (snd (GET env request w)) = challenges w
  /\ submissions (snd (GET env request w)) = submissions w.
Proof.
  cbv zeta. unfold GET, listing_limit_key.
  pose proof (applyRateLimit_footprint env request general None w) as (Hr & Hs & He).
  pose proof (applyRateLimit_stores env request general None w) as (Hu & Hc & Hsub).
  cbv zeta in Hr, Hs, He.
  set (checked := checkRateLimit _ _ _ _) in *.
  set (key := rate_key _) in *.
  destruct (applyRateLimit env request general None w) as [[rl fid] w1]; cbn [fst snd] in *.
  injection Hr as -> _.
  destruct (allowed (fst checked)) eqn:Hok; cbn [negb].
  2:{ cbn [snd fst]. repeat split; try assumption.
      exists []. split; [exact He | reflexivity]. }
  pose proof (authenticate_stores env request true w1) as (Hu1 & Hc1 & Hr1 & Hs1).
  destruct (authenticateRequest env request true w1) as [res w2] eqn:Hauth.
  destruct (authenticate_effects _ _ _ _ _ Hauth) as (_ & es & Hes & Hno & _).
  cbn [snd] in *.
  assert (Hpre : effects w2 = (effects w ++ CheckRateLimit key :: es)%list)
    by (rewrite Hes, He, <- app_assoc; reflexivity).
  destruct res as [[resp|ctx]|m]; cbn [fst snd].
  1,3: repeat split; try congruence; try discriminate; exists es; now split.
  cbn [emit effects].
  destruct (store_fault env _); cbn [fst snd emit rateLimitStore effects users challenges
                                      submissions];
    (repeat split; try congruence; try discriminate;
     exists (es ++ [QueryActiveChallenges])%list;
     split; [rewrite Hpre, <- app_assoc; reflexivity|];
     unfold no_rate_check in *; rewrite forallb_app, Hno; reflexivity).
Qed.


Lemma active_challenges_spec (cs : gmap string Challenge) id ch :
  (id, ch) ∈ active_challenges cs <-> cs !! id = Some ch /\ isActive ch = true.
Proof.
  unfold active_challenges. rewrite list_elem_of_In, filter_In, <- list_elem_of_In.
  now rewrite elem_of_map_to_list.
Qed.



(** X19.  GET /api/challenges/[id] against GET /api/challenges, for one caller
    and one state of the store: when the listing is answered 200, the
    single-challenge handler answers with an entry of that listing, the one
    whose id is the document that the requested id names as a Firestore
    path (so [c1/] names [c1]), with the coming-soon mark of that document;
    or with 404 and the generic not-found message when the id names a
    document of which the listing has no entry (the challenge is absent or
    inactive, the answer does not tell which); or with the 500 of its
    [catch] block, which is also the answer when the id names no
    document. *)
Theorem detail_agrees_with_listing
    (env : Env) (comingSoon : gmap string bool) (request : Request) (id : string)
    (w : World) (resp : Response) (items : list ChallengePublic) :
  fst (GET env request w) = Responded resp ->
  status resp = 200 ->
  data (body resp) = Some (DChallenges items) ->
  match fst (GET_by_id env comingSoon request id w) with
  | DetailFound c soon =>
      c ∈ items /\ doc id = Returned [pub_id c]
      /\ soon = default false (comingSoon !! pub_id c)
  | DetailOther (Responded r) =>
      (r = errorResponse NOT_FOUND 404
       /\ exists ref,
            doc id = Returned ref
            /\ (forall item, item ∈ items -> ref <> [pub_id item])
            /\ (get_doc (challenges w) ref = None
                \/ exists d, get_doc (challenges w) ref = Some d /\ isActive d = false))
      \/ (r = errorResponse "Failed to fetch challenge" 500)
  | DetailOther (Uncaught _) => False
  end
  /\ (forall m, doc id = Threw m ->
        fst (GET_by_id env comingSoon request id w)
        = DetailOther (Responded (errorResponse "Failed to fetch challenge" 500))).
Proof.
  unfold GET, GET_by_id.
  pose proof (applyRateLimit_stores env request general None w) as (_ & Hc & _).
  destruct (applyRateLimit env request general None w) as [[rl fid] w1]; cbn [snd] in *.
  destruct (negb (allowed rl)); [cbn; intros [= <-]; cbn; lia|].
  pose proof (authenticate_stores env request true w1) as (_ & Hc1 & _).
  destruct (authenticateRequest env request true w1) as [[[r|ctx]|m] w2] eqn:Hauth;
    cbn [fst snd] in *.
  - intros [= <-] H200.
    now destruct (authenticate_rejection_has_no_data _ _ _ _ _ _ Hauth) as (_ & ? & _).
  - cbn [emit effects challenges].
    destruct (store_fault env (effects w2 ++ [QueryActiveChallenges]));
      cbn [fst]; [intros [= <-]; cbn; lia|].
    intros [= <-] _ [= <-].
    rewrite Hc1, Hc.
    assert (Hitems : forall item,
              item ∈ map (to_public (snapshot_solved ctx)) (active_challenges (challenges w))
              -> exists d, challenges w !! pub_id item = Some d /\ isActive d = true).
    { intros item Hin. apply list_elem_of_In, in_map_iff in Hin as ([i d] & <- & Hin).
      apply list_elem_of_In, active_challenges_spec in Hin. cbn. eauto. }
    fold (snapshot_solved ctx).
    destruct (doc id) as [ref|m] eqn:Hdoc; cbn [fst];
      [|split; [right; reflexivity | reflexivity]].
    split; [|discriminate].
    destruct (store_fault env (effects w2 ++ [GetChallengeDoc (ref_path ref)])); cbn [fst];
      [right; reflexivity|].
    destruct (get_doc (challenges w) ref) as [d|] eqn:Hd; cbn [fst].
    + destruct (get_doc_single _ _ _ Hd) as (k & -> & Hk).
      destruct (isActive d) eqn:Hact; cbn [negb fst].
      * split; [|split; reflexivity].
        apply list_elem_of_In, in_map_iff. exists (k, d). split; [reflexivity|].
        apply list_elem_of_In, active_challenges_spec. auto.
      * left. split; [reflexivity|]. exists [k]. split; [reflexivity|].
        split; [|right; eauto].
        intros item Hin [= ->]. destruct (Hitems item Hin) as (d' & Hd' & Hact').
        congruence.
    + left. split; [reflexivity|]. exists ref. split; [reflexivity|].
      split; [|now left].
      intros item Hin ->. destruct (Hitems item Hin) as (d' & Hd' & _).
      cbn [get_doc] in Hd. congruence.
  - discriminate.
Qed.

Lemma detail_agrees_with_listing_witness :
  exists c soon,
    fst (GET_by_id (sample_env 1000) ∅ (listing_request "tok-alice") "c1/" sample_world)
    = DetailFound c soon
    /\ pub_id c = "c1"
    /\ doc "c1/" = Returned [pub_id c].
Proof.
  pose (items := map (to_public (stored_solved sample_world "alice"))
                   (active_challenges (challenges sample_world))).
  assert (H : fst (GET (sample_env 1000) (listing_request "tok-alice") sample_world)
              = Responded (successResponse (DChallenges items) None))
    by (vm_compute; reflexivity).
  pose proof (detail_agrees_with_listing (sample_env 1000) ∅
                (listing_request "tok-alice") "c1/" sample_world
                (successResponse (DChallenges items) None) items H eq_refl eq_refl)
    as [D _].
  destruct (fst (GET_by_id (sample_env 1000) ∅ (listing_request "tok-alice") "c1/"
                   sample_world)) as [c soon|r] eqn:E.
  - exists c, soon. split; [reflexivity|]. destruct D as (_ & Hd & _).
    split; [|exact Hd].
    assert (Hc : doc "c1/" = Returned ["c1"]) by reflexivity.
    rewrite Hc in Hd. now injection Hd.
  - exfalso. vm_compute in E. discriminate E.
Defined.

(* ===================================================================== *)
(** ** Ranks                                                               *)
(* ===================================================================== *)

Lemma filter_length_mono {A : Type} (P Q : A -> bool) (l : list A) :
  (forall x, x ∈ l -> P x = true -> Q x = true) ->
  (length (List.filter P l) <= length (List.filter Q l))%nat.
Proof.
  induction l as [|x l IH]; intros H; cbn [List.filter]; [lia|].
  assert (IH' : (length (List.filter P l) <= length (List.filter Q l))%nat).
  { apply IH. intros y Hy. apply H. now apply list_elem_of_further. }
  destruct (P x) eqn:HP.
  - rewrite (H x (list_elem_of_here _ _) HP). cbn [length]. lia.
  - destruct (Q x); cbn [length]; lia.
Qed.

Lemma filter_length_zero {A : Type} (P : A -> bool) (l : list A) :
  length (List.filter P l) = 0%nat <-> forall x, x ∈ l -> P x = false.
Proof.
  induction l as [|x l IH]; cbn [List.filter].
  - split; [intros _ x Hx; now apply elem_of_nil in Hx | reflexivity].
  - destruct (P x) eqn:HP; cbn [length].
    + split; [discriminate|]. intros H. specialize (H x (list_elem_of_here _ _)). congruence.
    + rewrite IH. split.
      * intros H y [->|Hy]%elem_of_cons; auto.
      * intros H y Hy. apply H. now apply list_elem_of_further.
Qed.

Lemma filter_length_eq {A : Type} (P Q : A -> bool) (l : list A) :
  (forall x, P x = true -> Q x = true) ->
  (length (List.filter P l) = length (List.filter Q l)
   <-> forall x, x ∈ l -> Q x = true -> P x = true).
Proof.
  intros HPQ. induction l as [|x l IH]; cbn [List.filter].
  - split; [intros _ x Hx; now apply elem_of_nil in Hx | reflexivity].
  - pose proof (filter_length_mono P Q l (fun y _ => HPQ y)) as Hle.
    destruct (P x) eqn:HP.
    + rewrite (HPQ x HP). cbn [length]. split.
      * intros [= E]. pose proof (proj1 IH E) as E'.
        intros y [->|Hy]%elem_of_cons; auto.
      * intros H. f_equal. apply IH. intros y Hy. apply H. now apply list_elem_of_further.
    + destruct (Q x) eqn:HQ; cbn [length].
      * split; [lia|]. intros H.
        specialize (H x (list_elem_of_here _ _) HQ). congruence.
      * rewrite IH. split.
        -- intros H y [->|Hy]%elem_of_cons; [congruence | auto].
        -- intros H y Hy. apply H. now apply list_elem_of_further.
Qed.

(** X20.  GET /api/user/profile: the rank is at least 1, a higher score never
    gives a worse rank, equal scores give equal ranks, and the rank is 1
    exactly when no user who is not banned has a higher score. *)
Theorem own_rank_follows_scores (w : World) (u1 u2 : User) :
  1 <= profile_rank w u1
  /\ (score u1 <= score u2 -> profile_rank w u2 <= profile_rank w u1)
  /\ (score u1 = score u2 -> profile_rank w u1 = profile_rank w u2)
  /\ (profile_rank w u1 = 1
      <-> forall id v, users w !! id = Some v -> isBanned v = false ->
                       score v <= score u1).
Proof.
  unfold profile_rank, count_users. split; [lia|]. split; [|split].
  - intros Hle.
    pose proof (filter_length_mono
      (fun kv : string * User => (score (snd kv) >? score u2) && negb (isBanned (snd kv)))
      (fun kv : string * User => (score (snd kv) >? score u1) && negb (isBanned (snd kv)))
      (map_to_list (users w))) as H.
    cbv beta in H.
    assert ((length (List.filter
               (fun kv : string * User =>
                  (score (snd kv) >? score u2) && negb (isBanned (snd kv)))
               (map_to_list (users w)))
             <= length (List.filter
               (fun kv : string * User =>
                  (score (snd kv) >? score u1) && negb (isBanned (snd kv)))
               (map_to_list (users w))))%nat); [|lia].
    apply H. intros [i v] _. cbn [snd].
    intros [H1 H2]%andb_true_iff. rewrite H2, andb_true_r.
    rewrite Z.gtb_ltb in *. apply Z.ltb_lt. apply Z.ltb_lt in H1. lia.
  - now intros ->.
  - split.
    + intros H id v Hv Hb.
      assert (Hz : length (List.filter
                (fun kv : string * User =>
                   (score (snd kv) >? score u1) && negb (isBanned (snd kv)))
                (map_to_list (users w))) = 0%nat) by lia.
      pose proof (proj1 (filter_length_zero _ _) Hz (id, v)) as Hf.
      cbn [snd] in Hf. rewrite Hb in Hf. cbn [negb] in Hf. rewrite andb_true_r in Hf.
      specialize (Hf (proj2 (elem_of_map_to_list _ _ _) Hv)).
      rewrite Z.gtb_ltb in Hf. apply Z.ltb_ge in Hf. exact Hf.
    + intros H.
      assert (Hz : length (List.filter
                (fun kv : string * User =>
                   (score (snd kv) >? score u1) && negb (isBanned (snd kv)))
                (map_to_list (users w))) = 0%nat); [|lia].
      apply filter_length_zero. intros [id v] Hin. cbn [snd].
      apply elem_of_map_to_list in Hin.
      destruct (isBanned v) eqn:Hb; [now rewrite andb_false_r|].
      specialize (H id v Hin Hb). cbn [negb]. rewrite andb_true_r.
      rewrite Z.gtb_ltb. apply Z.ltb_ge. exact H.
Qed.

(** X21.  GET /api/user/[uid] against GET /api/user/profile: the public rank is
    given only for a positive score, counts banned users with a higher
    score as well, and so is never better than the rank the same user sees
    on the own profile; the two agree exactly when no banned user has a
    higher score. *)
Theorem public_rank_counts_banned_users (w : World) (u : User) (r : Z) :
  public_rank w u = Some r ->
  0 < score u
  /\ profile_rank w u <= r
  /\ (r = profile_rank w u
      <-> forall id v, users w !! id = Some v -> score u < score v ->
                       isBanned v = false).
Proof.
  unfold public_rank, profile_rank, count_users.
  destruct (score u >? 0) eqn:Hpos; [|discriminate].
  intros [= <-]. rewrite Z.gtb_ltb in Hpos. apply Z.ltb_lt in Hpos.
  split; [exact Hpos|].
  pose proof (filter_length_mono
    (fun kv : string * User => (score (snd kv) >? score u) && negb (isBanned (snd kv)))
    (fun kv : string * User => score (snd kv) >? score u)
    (map_to_list (users w))) as Hle.
  pose proof (filter_length_eq
    (fun kv : string * User => (score (snd kv) >? score u) && negb (isBanned (snd kv)))
    (fun kv : string * User => score (snd kv) >? score u)
    (map_to_list (users w))) as Heq.
  cbv beta in Hle, Heq.
  assert (Himp : forall x : string * User,
            (score (snd x) >? score u) && negb (isBanned (snd x)) = true ->
            (score (snd x) >? score u) = true)
    by (intros x [H1 _]%andb_true_iff; exact H1).
  specialize (Hle (fun x _ => Himp x)). specialize (Heq Himp).
  split; [lia|]. split.
  - intros E id v Hv Hs.
    assert (E' : length (List.filter
               (fun kv : string * User =>
                  (score (snd kv) >? score u) && negb (isBanned (snd kv)))
               (map_to_list (users w)))
             = length (List.filter (fun kv : string * User => score (snd kv) >? score u)
                         (map_to_list (users w)))) by lia.
    pose proof (proj1 Heq E' (id, v) (proj2 (elem_of_map_to_list _ _ _) Hv)) as Hb.
    cbn [snd] in Hb.
    assert (Hgt : (score v >? score u) = true)
      by (rewrite Z.gtb_ltb; apply Z.ltb_lt; exact Hs).
    specialize (Hb Hgt). rewrite Hgt in Hb. cbn [andb] in Hb.
    now destruct (isBanned v).
  - intros H.
    assert (E' : length (List.filter
               (fun kv : string * User =>
                  (score (snd kv) >? score u) && negb (isBanned (snd kv)))
               (map_to_list (users w)))
             = length (List.filter (fun kv : string * User => score (snd kv) >? score u)
                         (map_to_list (users w)))); [|lia].
    apply Heq. intros [id v] Hin Hgt. cbn [snd] in *.
    apply elem_of_map_to_list in Hin. rewrite Hgt. cbn [andb].
    rewrite Z.gtb_ltb in Hgt. apply Z.ltb_lt in Hgt.
    now rewrite (H id v Hin Hgt).
Qed.

Lemma public_rank_counts_banned_users_witness :
  public_rank sample_world alice = Some 1
  /\ profile_rank sample_world alice <= 1.
Proof.
  assert (H : public_rank sample_world alice = Some 1) by (vm_compute; reflexivity).
  split; [exact H|].
  exact (proj1 (proj2 (public_rank_counts_banned_users sample_world alice 1 H))).
Defined.

(* ===================================================================== *)
(** ** The 429 answer                                                      *)
(* ===================================================================== *)

(** X22.  rateLimitedResponse, createRateLimitHeaders: the answer built from a
    rejected check has status 429, reports no request remaining and the end
    of the window, and tells to retry after at least one second; only a
    rejection in the last millisecond of the window (the wait rounds to 0,
    which the header test takes as absent) has no [Retry-After].  The
    headers of an allowed check never hold one. *)
Theorem rejection_headers
    (identifier : string) (config : RateLimitConfig) (now : Z)
    (store : gmap string RateLimitEntry) :
  (allowed (fst (checkRateLimit identifier config now store)) = false ->
   exists e,
     store !! rate_key identifier = Some e
     /\ now <= firstRequest e + windowMs config
     /\ status (rateLimitedResponse (fst (checkRateLimit identifier config now store))) = 429
     /\ headers (rateLimitedResponse (fst (checkRateLimit identifier config now store)))
        = ([("X-RateLimit-Remaining", 0);
            ("X-RateLimit-Reset", firstRequest e + windowMs config)]
           ++ (if now <? firstRequest e + windowMs config
               then [("Retry-After",
                      ceil_div (firstRequest e + windowMs config - now) 1000)]
               else []))%list
     /\ 0 <= ceil_div (firstRequest e + windowMs config - now) 1000
     /\ (now < firstRequest e + windowMs config ->
         1 <= ceil_div (firstRequest e + windowMs config - now) 1000))
  /\ (allowed (fst (checkRateLimit identifier config now store)) = true ->
      createRateLimitHeaders (fst (checkRateLimit identifier config now store))
      = [("X-RateLimit-Remaining",
          remaining (fst (checkRateLimit identifier config now store)));
         ("X-RateLimit-Reset",
          resetTime (fst (checkRateLimit identifier config now store)))]).
Proof.
  split.
  - intros Hrej.
    destruct (checkRateLimit identifier config now store) as [r store'] eqn:Hcall.
    cbn [fst] in *.
    destruct (rejected_inv identifier config now store r store' Hcall Hrej)
      as (e & He & Hlive & Hfull).
    rewrite (check_live_rejected identifier config now store e He Hlive Hfull) in Hcall.
    injection Hcall as <- <-.
    pose proof (ceil_div_spec (firstRequest e + windowMs config - now) 1000 ltac:(lia))
      as Hceil.
    exists e. split; [exact He|]. split; [lia|]. split; [reflexivity|].
    split; [|split; lia].
    unfold rateLimitedResponse, createRateLimitHeaders.
    cbn [headers remaining resetTime retryAfter].
    destruct (now <? firstRequest e + windowMs config) eqn:Hlt.
    + apply Z.ltb_lt in Hlt.
      destruct (ceil_div (firstRequest e + windowMs config - now) 1000 =? 0) eqn:Hz;
        [|reflexivity].
      apply Z.eqb_eq in Hz. lia.
    + apply Z.ltb_ge in Hlt.
      assert (Hz : ceil_div (firstRequest e + windowMs config - now) 1000 = 0) by lia.
      rewrite Hz. reflexivity.
  - unfold checkRateLimit, createRateLimitHeaders.
    destruct (store !! rate_key identifier) as [e|]; repeat case_bool_decide;
      cbn [fst allowed retryAfter remaining resetTime app]; try discriminate; reflexivity.
Qed.

(* ===================================================================== *)
(** ** Fixed windows                                                       *)
(* ===================================================================== *)

Lemma run_checks_app identifier config (a b : list Z) (store : gmap string RateLimitEntry) :
  run_checks identifier config (a ++ b) store
  = (fst (run_checks identifier config a store)
     ++ fst (run_checks identifier config b (snd (run_checks identifier config a store))),
     snd (run_checks identifier config b (snd (run_checks identifier config a store))))%list.
Proof.
  revert store. induction a as [|t a IH]; intros store; cbn [app run_checks fst snd].
  - now destruct (run_checks identifier config b store).
  - destruct (checkRateLimit identifier config t store) as [r store1].
    rewrite (IH store1).
    destruct (run_checks identifier config a store1) as [ra sa]. reflexivity.
Qed.

(** X23.  checkRateLimit counts per fixed window, not per sliding interval: a
    caller who opens a window at [t1] can place the rest of its allowance in
    the last millisecond of that window and a full allowance in the first
    millisecond after it, and every one of these requests is allowed,
    twice the maximum less one of them within two milliseconds. *)
Theorem burst_across_window_boundary
    (identifier : string) (config : RateLimitConfig) (t1 : Z)
    (store : gmap string RateLimitEntry) :
  1 <= maxRequests config ->
  0 <= windowMs config ->
  no_live_window identifier config t1 store ->
  map allowed
    (fst (run_checks identifier config
            ((t1 :: repeat (t1 + windowMs config) (Z.to_nat (maxRequests config) - 1))
             ++ repeat (t1 + windowMs config + 1) (Z.to_nat (maxRequests config)))
            store))
  = repeat true (Z.to_nat (maxRequests config) + Z.to_nat (maxRequests config)).
Proof.
  intros Hmax Hwin Hfresh.
  set (n := Z.to_nat (maxRequests config)).
  assert (Hn : n = S (n - 1)) by lia.
  rewrite run_checks_app. cbn [fst]. rewrite map_app.
  destruct (run_fresh_window identifier config t1
              (repeat (t1 + windowMs config) (n - 1)) store Hmax Hfresh)
    as [Hflags (e' & He' & Hf' & _)].
  { apply Forall_forall. intros t Ht. apply list_elem_of_In, repeat_spec in Ht. lia. }
  rewrite Hflags, repeat_length. fold n.
  replace (Nat.min (S (n - 1)) n) with n by lia.
  replace (S (n - 1) - n)%nat with 0%nat by lia.
  cbn [repeat]. rewrite app_nil_r.
  set (store1 := snd (run_checks identifier config
                        (t1 :: repeat (t1 + windowMs config) (n - 1)) store)) in *.
  rewrite Hn at 2. cbn [repeat].
  destruct (run_fresh_window identifier config (t1 + windowMs config + 1)
              (repeat (t1 + windowMs config + 1) (n - 1)) store1 Hmax)
    as [Hflags2 _].
  { unfold no_live_window. rewrite He', Hf'. lia. }
  { apply Forall_forall. intros t Ht. apply list_elem_of_In, repeat_spec in Ht. lia. }
  rewrite Hflags2, repeat_length. fold n.
  replace (Nat.min (S (n - 1)) n) with n by lia.
  replace (S (n - 1) - n)%nat with 0%nat by lia.
  cbn [repeat]. rewrite app_nil_r. now rewrite repeat_app.
Qed.

Lemma burst_across_window_boundary_witness :
  map allowed
    (fst (run_checks "flagSubmission:203.0.113.7:alice" (RATE_LIMIT_CONFIGS flagSubmission)
            [0; 60000; 60000; 60000; 60000; 60001; 60001; 60001; 60001; 60001] ∅))
  = repeat true 10.
Proof.
  exact (burst_across_window_boundary "flagSubmission:203.0.113.7:alice"
           (RATE_LIMIT_CONFIGS flagSubmission) 0 ∅
           ltac:(cbn; lia) ltac:(cbn; lia) I).
Defined.

(* ===================================================================== *)
(** ** The award, seen from the answer                                     *)
(* ===================================================================== *)

Lemma ledger_record_solved usr (w : World) :
  solvedChallenges (ledger_record usr w) = stored_solved w (tok_uid usr).
Proof.
  unfold ledger_record, stored_solved.
  now destruct (users w !! tok_uid usr).
Qed.

(** The handler among other requests: before the [try] block nothing of
    [others] is consulted. *)
Lemma POST_during_cases env request others (w : World) :
  (match fst (POST_during env request others w) with
   | Responded resp => data (body resp) = None
   | Uncaught _ => True
   end)
  \/ exists ctx w2 c f,
       passes_gates env request w ctx w2
       /\ req_json request = BodyFields (VString c) (VString f)
       /\ POST_during env request others w
          = evaluate_submission_during env request others ctx
              (hashIpAddress (FLAG_HASH_SALT env) (getClientIp request))
              c (sanitizeInput f) w2.
Proof.
  unfold POST_during.
  destruct (authenticateRequest env request true w) as [[[resp|ctx]|m] w1] eqn:Hauth;
    cbn [snd fst] in *.
  - left. cbn [fst]. exact (proj1 (authenticate_rejection_has_no_data _ _ _ _ _ _ Hauth)).
  - fold (submission_limit_key env request (user ctx)).
    destruct (applyRateLimit env request flagSubmission _ w1) as [[rl fid] w2] eqn:Hrl;
      cbn [snd] in *.
    destruct (allowed rl) eqn:Hok; cbn [negb]; [|left; reflexivity].
    destruct (req_json request) as [| |cid flag] eqn:Hbody;
      [left; reflexivity | left; exact I|].
    destruct cid as [| | | |[|a c]|]; cbn [nonempty_string]; try (left; reflexivity).
    destruct flag as [| | | |[|a' f]|]; cbn [nonempty_string]; try (left; reflexivity).
    destruct (_ || _); [left; reflexivity|].
    right. exists ctx, w2, (String a c), (String a' f).
    split; [exists w1, rl, fid; auto|]. split; reflexivity.
  - left. exact I.
Qed.

(** The [try] block among other requests, when it answers [correct: true]. *)
Lemma evaluate_during_correct env request others ctx ipH c flag (w : World) resp d :
  fst (evaluate_submission_during env request others ctx ipH c flag w) = Responded resp ->
  data (body resp) = Some (DSubmit d) ->
  correct d = true ->
  (c ∉ snapshot_solved ctx)
  /\ exists k ch wt wt',
       doc c = Returned [k]
       /\ challenges (others (GetChallengeDoc k) w) !! k = Some ch
       /\ isActive ch = true
       /\ validateFlag (FLAG_HASH_SALT env) flag (flagHash ch) = Returned true
       /\ runTransaction (user ctx) c (points ch) wt = Returned wt'
       /\ snd (evaluate_submission_during env request others ctx ipH c flag w)
          = emit (GetUserDoc (tok_uid (user ctx)))
              (others (GetUserDoc (tok_uid (user ctx))) wt')
       /\ d = mkSubmitData true FLAG_CORRECT (Some (points ch))
                (Some (match users (snd (evaluate_submission_during env request others
                                           ctx ipH c flag w)) !! tok_uid (user ctx) with
                       | Some u => score u
                       | None => 0
                       end))
       /\ ((forall e x, users (others e x) = users x
                        /\ challenges (others e x) = challenges x) ->
           users wt = users w /\ challenges wt = challenges w).
Proof.
  unfold evaluate_submission_during, submission_error. fold (snapshot_solved ctx).
  case_bool_decide as Hs;
    [cbn [fst]; intros [= <-] [= <-]; discriminate|].
  destruct (doc c) as [ref|m] eqn:Hdoc; [|cbn [fst]; intros [= <-]; discriminate].
  cbn [emit challenges effects].
  destruct (store_fault env _); [cbn [fst]; intros [= <-]; discriminate|].
  destruct (get_doc _ ref) as [ch|] eqn:Hch; [|cbn [fst]; intros [= <-]; discriminate].
  destruct (isActive ch) eqn:Hact; cbn [negb];
    [|cbn [fst]; intros [= <-]; discriminate].
  destruct (get_doc_single _ _ _ Hch) as (k & -> & Hk).
  change (ref_path [k]) with k in *.
  destruct (validateFlag _ _ _) as [isCorrect|m] eqn:Hv;
    [|cbn [fst]; intros [= <-]; discriminate].
  destruct (store_fault env _); [cbn [fst]; intros [= <-]; discriminate|].
  destruct isCorrect; [|cbn [fst]; intros [= <-] [= <-]; discriminate].
  destruct (store_fault env _); [cbn [fst]; intros [= <-]; discriminate|].
  match goal with |- context [runTransaction ?u ?cc ?p ?w0] =>
    destruct (runTransaction u cc p w0) as [w5|m] eqn:Hrun;
      [|cbn [fst]; intros [= <-]; discriminate]
  end.
  destruct (store_fault env _); [cbn [fst]; intros [= <-]; discriminate|].
  cbn [fst snd]. intros [= <-] [= <-] _. split; [exact Hs|].
  eexists k, ch, _, w5. split; [reflexivity|]. split; [exact Hk|].
  split; [exact Hact|]. split; [exact Hv|]. split; [exact Hrun|].
  split; [reflexivity|]. split; [reflexivity|].
  intros Hothers. cbn [emit logSecurityEvent add_submission users challenges].
  rewrite !(proj1 (Hothers _ _)), !(proj2 (Hothers _ _)).
  cbn [emit logSecurityEvent add_submission users challenges].
  rewrite !(proj1 (Hothers _ _)), !(proj2 (Hothers _ _)).
  cbn [emit logSecurityEvent add_submission users challenges].
  rewrite !(proj1 (Hothers _ _)), !(proj2 (Hothers _ _)).
  split; reflexivity.
Qed.

(** X24.  POST /api/challenges/submit, served while other requests are served
    too: an answer [correct: true] was given to an authenticated caller
    whose solved list, as read at authentication, did not hold the id of
    the body; the id names a challenge document as a Firestore path, that
    document as the handler read it was active and its fingerprint
    matches the sanitised flag; the points in the answer are its points.
    The transaction was committed: when the solved list it read holds the
    id, it wrote nothing (the answer still reports the points); otherwise
    it added the points to the caller's score, appended the id to the
    solved list and raised the solve counter of the named document by one,
    and wrote nothing else.  The new score in the answer is the caller's
    score as stored when the handler read it back.  When the other
    requests write no user and no challenge in the meantime, the new score
    is the caller's previous score plus the points and is the score now
    stored, the id was appended, the counter of the named document went up
    by one, and no other user or challenge was changed. *)
Theorem correct_answer_reports_the_stored_award
    (env : Env) (request : Request) (others : Effect -> World -> World)
    (w : World) (resp : Response) (d : SubmitData) :
  fst (POST_during env request others w) = Responded resp ->
  data (body resp) = Some (DSubmit d) ->
  correct d = true ->
  let w' := snd (POST_during env request others w) in
  exists ctx w2 c f k ch wt wt',
    let tok := user ctx in
    passes_gates env request w ctx w2
    /\ bearer_identity env request = Some tok
    /\ req_json request = BodyFields (VString c) (VString f)
    /\ (c ∉ stored_solved w (tok_uid tok))
    /\ doc c = Returned [k]
    /\ challenges (others (GetChallengeDoc k) w2) !! k = Some ch
    /\ isActive ch = true
    /\ validateFlag (FLAG_HASH_SALT env) (sanitizeInput f) (flagHash ch) = Returned true
    /\ pointsAwarded d = Some (points ch)
    /\ runTransaction tok c (points ch) wt = Returned wt'
    /\ (c ∈ stored_solved wt (tok_uid tok) -> wt' = wt)
    /\ ((c ∉ stored_solved wt (tok_uid tok)) ->
        exists stored,
          challenges wt !! k = Some stored
          /\ users wt'
             = <[tok_uid tok := awarded (ledger_record tok wt) (points ch) c]> (users wt)
          /\ challenges wt' = <[k := solved_once_more stored]> (challenges wt))
    /\ w' = emit (GetUserDoc (tok_uid tok)) (others (GetUserDoc (tok_uid tok)) wt')
    /\ newScore d = Some (match users w' !! tok_uid tok with
                          | Some u => score u
                          | None => 0
                          end)
    /\ ((forall e x, users (others e x) = users x
                     /\ challenges (others e x) = challenges x) ->
        challenges w !! k = Some ch
        /\ newScore d = Some (score (ledger_record tok w) + points ch)
        /\ users w' !! tok_uid tok = Some (awarded (ledger_record tok w) (points ch) c)
        /\ challenges w' !! k = Some (solved_once_more ch)
        /\ (forall j, j <> tok_uid tok -> users w' !! j = users w !! j)
        /\ (forall k', k' <> k -> challenges w' !! k' = challenges w !! k')).
Proof.
  intros Hresp Hdata Hcorrect. cbv zeta.
  destruct (POST_during_cases env request others w)
    as [Hnone | (ctx & w2 & c & f & Hgates & Hbody & HPOST)].
  { rewrite Hresp in Hnone. congruence. }
  destruct (passes_gates_stores _ _ _ _ _ Hgates) as (Hu2 & Hc2 & _).
  pose proof Hgates as (w1 & rl & fid & Hauth & _ & _).
  destruct (authenticate_identity _ _ _ _ _ _ Hauth) as (Hid & _ & Hud & _).
  rewrite HPOST in Hresp |- *.
  destruct (evaluate_during_correct _ _ _ _ _ _ _ _ _ _ Hresp Hdata Hcorrect)
    as (Hnew & k & ch & wt & wt' & Hdoc & Hk & Hact & Hv & Hrun & Hw' & Hd & Hquiet).
  assert (Hnew' : c ∉ stored_solved w (tok_uid (user ctx)))
    by (unfold stored_solved; rewrite <- Hud; exact Hnew).
  exists ctx, w2, c, f, k, ch, wt, wt'.
  split; [exact Hgates|]. split; [exact Hid|]. split; [exact Hbody|].
  split; [exact Hnew'|]. split; [exact Hdoc|]. split; [exact Hk|].
  split; [exact Hact|]. split; [exact Hv|].
  split; [rewrite Hd; reflexivity|]. split; [exact Hrun|].
  pose proof (transaction_committed _ _ _ _ _ Hrun) as Hcases.
  rewrite ledger_record_solved in Hcases.
  split; [|split; [|split; [exact Hw'|split; [rewrite Hd; reflexivity|]]]].
  - intros Hin. destruct Hcases as [(_ & ->) | (Hnotin & _)]; [reflexivity|].
    now contradiction Hnotin.
  - intros Hnotin. destruct Hcases as [(Hin & _) | (_ & k0 & stored & Hdoc0 & Hst & ->)];
      [now contradiction Hnotin|].
    rewrite Hdoc in Hdoc0. injection Hdoc0 as <-.
    exists stored. split; [exact Hst|]. split; reflexivity.
  - intros Hothers. destruct (Hquiet Hothers) as (Hut & Hct).
    rewrite (proj2 (Hothers _ _)), Hc2 in Hk.
    assert (Hrec : ledger_record (user ctx) wt = ledger_record (user ctx) w)
      by (unfold ledger_record; now rewrite Hut, Hu2).
    assert (Hst : stored_solved wt (tok_uid (user ctx))
                  = stored_solved w (tok_uid (user ctx)))
      by (unfold stored_solved; now rewrite Hut, Hu2).
    destruct Hcases as [(Hin & _) | (_ & k0 & stored & Hdoc0 & Hstored & ->)];
      [rewrite Hst in Hin; now contradiction Hnew'|].
    rewrite Hdoc in Hdoc0. injection Hdoc0 as <-.
    rewrite Hct, Hc2, Hk in Hstored. injection Hstored as <-.
    rewrite Hd, Hw'. cbn [newScore emit users challenges set_users set_challenges].
    rewrite (proj1 (Hothers _ _)), (proj2 (Hothers _ _)).
    cbn [users challenges set_users set_challenges].
    rewrite Hrec, Hut, Hct, Hu2, Hc2, !lookup_insert_eq.
    cbn [awarded score].
    repeat split; try assumption; try reflexivity.
    + intros j Hj. now apply lookup_insert_ne.
    + intros k' Hk'. now apply lookup_insert_ne.
Qed.

Lemma correct_answer_reports_the_stored_award_witness :
  let request := submit_request "tok-alice" "c1" " CTF{Rotate_Me_Baby_One_More_Time} " in
  fst (POST_during (sample_env 1000) request quiet sample_world)
  = Responded (correct_response 250 750)
  /\ exists k ch,
       doc "c1" = Returned [k]
       /\ challenges sample_world !! k = Some ch
       /\ Some 250 = Some (points ch)
       /\ Some 750 = Some (score (ledger_record alice_token sample_world) + points ch).
Proof.
  cbv zeta.
  assert (H : fst (POST_during (sample_env 1000)
                     (submit_request "tok-alice" "c1" " CTF{Rotate_Me_Baby_One_More_Time} ")
                     quiet sample_world)
              = Responded (correct_response 250 750))
    by (vm_compute; reflexivity).
  split; [exact H|].
  destruct (correct_answer_reports_the_stored_award (sample_env 1000)
              (submit_request "tok-alice" "c1" " CTF{Rotate_Me_Baby_One_More_Time} ")
              quiet sample_world (correct_response 250 750)
              (mkSubmitData true FLAG_CORRECT (Some 250) (Some 750))
              H eq_refl eq_refl)
    as (ctx & w2 & c & f & k & ch & wt & wt' & _ & Hid & Hbody & _ & Hdoc & _ & _ & _
        & Hp & _ & _ & _ & _ & _ & Hq).
  destruct (Hq (fun _ _ => conj eq_refl eq_refl)) as (Hch & Hs & _).
  assert (Htok : user ctx = alice_token)
    by (vm_compute in Hid; now injection Hid).
  assert (Hc : c = "c1") by (vm_compute in Hbody; now injection Hbody).
  rewrite Htok in Hs. rewrite Hc in Hdoc.
  exists k, ch. split; [exact Hdoc|]. split; [exact Hch|]. split; [exact Hp | exact Hs].
Defined.

(** Two requests of alice for [c1] with the right flag, the second served
    while the first waits for its transaction: the transaction of the
    first finds the id in the solved list and writes nothing, the answer
    is still [correct: true] with 250 points, and the score was raised
    once. *)
Example stale_snapshot_is_answered_correct :
  let request := submit_request "tok-alice" "c1" "ctf{rotate_me_baby_one_more_time}" in
  let others (e : Effect) (w : World) : World :=
    match e with
    | RunTransaction _ _ => default w (returned (runTransaction alice_token "c1" 250 w))
    | _ => w
    end in
  let w' := snd (POST_during (sample_env 1000) request others sample_world) in
  fst (POST_during (sample_env 1000) request others sample_world)
  = Responded (correct_response 250 750)
  /\ users w' !! "alice"
     = Some (mkUser "alice" "alice@example.org" true 750 ["c0"; "c1"] false false)
  /\ (solveCount <$> challenges w' !! "c1") = Some 1.
Proof. vm_compute. repeat split. Qed.

(* ===================================================================== *)
(** ** Flags that sanitisation leaves alone                                *)
(* ===================================================================== *)

Lemma remove_matches_id (P : ascii -> bool) m (s : string) :
  (forall t k, m t = Some (S k) -> string_forall P t = false) ->
  string_forall P s = true -> remove_matches m 0 s = s.
Proof.
  intros Hm. induction s as [|c r IH]; [reflexivity|].
  intros Hs. cbn [remove_matches].
  assert (Hr : string_forall P r = true).
  { cbn [string_forall] in Hs. now apply andb_true_iff in Hs as [_ ?]. }
  destruct (m (String c r)) as [[|k]|] eqn:E.
  - now rewrite IH.
  - rewrite (Hm _ _ E) in Hs. discriminate.
  - now rewrite IH.
Qed.

Lemma match_angle_not_plain t k :
  match_angle t = Some (S k) -> string_forall is_plain_flag_char t = false.
Proof.
  destruct t as [|c r]; [discriminate|]. cbn [match_angle string_forall].
  unfold is_plain_flag_char, is_angle.
  destruct ((code c =? 60) || (code c =? 62)); [reflexivity|discriminate].
Qed.

Lemma colon_not_plain c :
  ci_eq ":" c = true -> is_plain_flag_char c = false.
Proof. destruct c as [[] [] [] [] [] [] [] []]; vm_compute; congruence. Qed.

Lemma ci_prefix_get (pat : string) :
  forall s k p, ci_prefix pat s = true -> String.get k pat = Some p ->
    exists c, String.get k s = Some c /\ ci_eq p c = true.
Proof.
  induction pat as [|q pat IH]; intros s k p; [discriminate 2|].
  destruct s as [|c s]; [discriminate|].
  cbn [ci_prefix String.get]. intros [Hq Hrest]%andb_true_iff Hget.
  destruct k as [|k]; [injection Hget as <-; eauto|]. now apply IH.
Qed.

Lemma get_forall (P : ascii -> bool) (s : string) :
  forall k e, String.get k s = Some e -> string_forall P s = true -> P e = true.
Proof.
  induction s as [|c r IH]; intros k e; [discriminate|].
  cbn [String.get string_forall]. intros Hget [Hc Hr]%andb_true_iff.
  destruct k as [|k]; [now injection Hget as <-|]. now apply (IH k).
Qed.

Lemma match_javascript_not_plain t k :
  match_javascript t = Some (S k) -> string_forall is_plain_flag_char t = false.
Proof.
  unfold match_javascript. destruct (ci_prefix "javascript:" t) eqn:E; [|discriminate].
  intros _.
  destruct (ci_prefix_get "javascript:" t 10 ":" E eq_refl) as (c & Hget & Hc).
  destruct (string_forall is_plain_flag_char t) eqn:Hp; [|reflexivity].
  pose proof (get_forall _ _ _ _ Hget Hp) as Hplain.
  now rewrite (colon_not_plain c Hc) in Hplain.
Qed.

Lemma match_on_handler_not_plain t k :
  match_on_handler t = Some (S k) -> string_forall is_plain_flag_char t = false.
Proof.
  destruct t as [|c0 [|c1 r]]; try discriminate. cbn [match_on_handler].
  destruct (ci_eq "o" c0 && ci_eq "n" c1); [|discriminate].
  destruct (word_run r) as [|j] eqn:Hrun; [discriminate|].
  destruct (String.get (S j) r) as [e|] eqn:Hget; [|discriminate].
  destruct (code e =? 61) eqn:He; [|discriminate].
  intros _. cbn [string_forall].
  destruct (string_forall is_plain_flag_char r) eqn:Hr;
    [|now rewrite !andb_false_r].
  pose proof (get_forall _ _ _ _ Hget Hr) as Hp.
  unfold is_plain_flag_char in Hp. rewrite He in Hp.
  rewrite orb_true_r in Hp. discriminate.
Qed.

Lemma string_forall_trimStart (P : ascii -> bool) (s : string) :
  string_forall P s = true -> string_forall P (trimStart s) = true.
Proof.
  induction s as [|c r IH]; [reflexivity|].
  cbn [trimStart]. destruct (is_js_whitespace c); [|auto].
  cbn [string_forall]. intros [_ ?]%andb_true_iff. auto.
Qed.

Lemma string_forall_trimEnd (P : ascii -> bool) (s : string) :
  string_forall P s = true -> string_forall P (trimEnd s) = true.
Proof.
  induction s as [|c r IH]; [reflexivity|].
  cbn [string_forall trimEnd]. intros [Hc Hr]%andb_true_iff.
  specialize (IH Hr).
  destruct (trimEnd r); [destruct (is_js_whitespace c)|];
    cbn [string_forall] in *; rewrite ?Hc; auto.
Qed.

Lemma sanitizeInput_plain (s : string) :
  string_forall is_plain_flag_char s = true ->
  str_length s <= 10000 ->
  sanitizeInput s = trim s.
Proof.
  intros Hplain Hlen. destruct s as [|c r]; [reflexivity|].
  unfold sanitizeInput.
  assert (Ht : string_forall is_plain_flag_char (trim (String c r)) = true)
    by (unfold trim; now apply string_forall_trimEnd, string_forall_trimStart).
  rewrite (remove_matches_id _ _ _ match_angle_not_plain Ht).
  rewrite (remove_matches_id _ _ _ match_javascript_not_plain Ht).
  rewrite (remove_matches_id _ _ _ match_on_handler_not_plain Ht).
  pose proof (trim_length (String c r)) as Hl. unfold str_length in Hlen.
  generalize dependent (trim (String c r)). intros t _ Hl.
  assert (Hn : (String.length t <= Z.to_nat 10000)%nat) by lia.
  clear -Hn. revert Hn. generalize (Z.to_nat 10000). intros n. revert n.
  induction t as [|a t IH]; intros [|n] Hn; cbn [slice0 String.length] in *;
    try reflexivity; try lia.
  rewrite IH by lia. reflexivity.
Qed.

(** X25.  sanitizeInput, hashFlag, validateFlag together: a submission without
    angle bracket, colon and equals sign (every seeded flag is of this kind)
    passes sanitisation with nothing but the trimming, so it is judged
    correct whenever it is the secret up to case and surrounding white
    space. *)
Theorem plain_flag_is_accepted
    (salt : option string) (secret submitted fingerprint : string) :
  truthy salt = true ->
  hashFlag salt secret = Returned fingerprint ->
  string_forall is_plain_flag_char submitted = true ->
  str_length submitted <= 10000 ->
  toLowerCase (trim submitted) = toLowerCase (trim secret) ->
  sanitizeInput submitted = trim submitted
  /\ validateFlag salt (sanitizeInput submitted) fingerprint = Returned true.
Proof.
  intros Hsalt Hfp Hplain Hlen Hnorm.
  pose proof (sanitizeInput_plain submitted Hplain Hlen) as Hs.
  split; [exact Hs|].
  rewrite Hs.
  assert (Hf : fingerprint = to_hex (flag_digest (default "" salt) secret)).
  { rewrite (hashFlag_configured salt secret Hsalt) in Hfp. now injection Hfp. }
  rewrite Hf, (validateFlag_digests salt (trim submitted) secret Hsalt).
  f_equal. apply bool_decide_eq_true_2.
  unfold flag_digest. now rewrite trim_idem, Hnorm.
Qed.

Lemma plain_flag_is_accepted_witness :
  validateFlag sample_salt (sanitizeInput "  CTF{Union_Select_Flag_From_Secrets} ")
    (sha256_hex (default "" sample_salt ++ "ctf{union_select_flag_from_secrets}"))
  = Returned true.
Proof.
  exact (proj2 (plain_flag_is_accepted sample_salt "ctf{union_select_flag_from_secrets}"
                  "  CTF{Union_Select_Flag_From_Secrets} "
                  (sha256_hex (default "" sample_salt ++ "ctf{union_select_flag_from_secrets}"))
                  eq_refl ltac:(vm_compute; reflexivity) eq_refl
                  ltac:(vm_compute; discriminate) eq_refl)).
Defined.

(* ===================================================================== *)
(** ** Callers that are turned away                                        *)
(* ===================================================================== *)

(** X26.  POST /api/challenges/submit: a caller who is not identified by an
    accepted token, or whose e-mail is not verified, or whose stored record
    is banned, changes nothing: users, challenges, submissions and the
    limiter are as before, and the answer is 401 or 403 without data (or
    the failed read of the user record escapes). *)
Theorem refused_callers_change_nothing (env : Env) (request : Request) (w : World) :
  (forall tok, bearer_identity env request = Some tok ->
               tok_email_verified tok = true ->
               exists u, users w !! tok_uid tok = Some u /\ isBanned u = true) ->
  users (snd (POST env request w)) = users w
  /\ challenges (snd (POST env request w)) = challenges w
  /\ submissions (snd (POST env request w)) = submissions w
  /\ rateLimitStore (snd (POST env request w)) = rateLimitStore w
  /\ match fst (POST env request w) with
     | Responded resp => (status resp = 401 \/ status resp = 403) /\ data (body resp) = None
     | Uncaught _ => True
     end.
Proof.
  intros Hrefused. open_POST.
  pose proof (authenticate_stores env request true w) as (Hu & Hc & Hr & Hs).
  destruct (authenticateRequest env request true w) as [[[resp|ctx]|m] w1] eqn:Hauth;
    cbn [fst snd] in *.
  - repeat split; try assumption.
    + revert Hauth. unfold authenticateRequest, verifyAuthToken.
      repeat case_match; simplify_eq; intros [= <- <-]; cbn; auto.
    + now destruct (authenticate_rejection_has_no_data _ _ _ _ _ _ Hauth).
  - exfalso.
    destruct (authenticate_identity _ _ _ _ _ _ Hauth) as (Hid & Hver & _ & Hban & _).
    destruct (Hrefused (user ctx) Hid (Hver eq_refl)) as (u & Hu' & Hb).
    rewrite (Hban u Hu') in Hb. discriminate.
  - auto.
Qed.

Lemma refused_callers_change_nothing_witness :
  users (snd (POST (sample_env 1000) (submit_request "tok-bob" "c1" "ctf{guess}")
                sample_world))
  = users sample_world.
Proof.
  refine (proj1 (refused_callers_change_nothing (sample_env 1000)
                   (submit_request "tok-bob" "c1" "ctf{guess}") sample_world _)).
  intros tok Hid Hver. vm_compute in Hid. injection Hid as <-. discriminate Hver.
Defined.
